(** * fsnap: file-system snapshots (packages [dirsnap] and [filesnap])

    A shallow embedding of the two Go packages of the repository and of the
    part of the operating-system interface they consume, followed by the
    properties of the scan ([Read]/[ReadFS]) and materialise ([Write])
    operations.

    Layout of the development:
    - [path]: Go's [path.Clean], [path.Join] and [path.Dir] on strings;
    - [OS]: the file tree behind the [os] calls of the writers
      ([Mkdir], [MkdirAll], [WriteFile], [Stat], [IsExist]) and the [fs.FS]
      view of it used by the scanners;
    - [dirsnap] and [filesnap]: the two packages, function by function;
    - [Fixtures]: the directory layouts and snapshots of the repository's
      tests;
    - the vocabulary of the statements (well-formed snapshots, the tree a
      snapshot describes, the files of a tree);
    - the properties: paths, the file tree, scans of an arbitrary [fs.FS],
      writes, the tests of the repository replayed on the model, and the
      main results;
    - further properties: scans of the disk at any depth, what a write
      leaves alone, when a write succeeds and what it leaves, in
      whichever order it takes the entries, and scans after writes;
    - scans that meet [io.EOF] or an error: what they return on a disk
      whose listings end with [io.EOF], and on a disk that refuses the
      access to one path. *)

From stdpp Require Import base list strings.
From Stdlib Require Import Ascii ZArith Lia.

Set Warnings "-register-all".
Set Default Proof Using "Type".

(** ** Go values shared by both packages *)

(** A Go [[]byte]: [None] is the nil slice, [Some l] a non-nil slice. *)
Definition bytes := option (list Byte.byte).

(** The bytes that reach the disk when a slice is written. *)
Definition content (b : bytes) : list Byte.byte := default [] b.

(** Go's [error] values, as far as the two packages tell them apart:
    [io.EOF] is compared by identity, [os.IsExist] classifies [ErrExist]. *)
Inductive error :=
| EOF
| ErrExist
| ErrNotExist
| ErrNotDir
| ErrIsDir
| ErrOther (code : nat).

#[global] Instance error_eq_dec : EqDecision error.
Proof. solve_decision. Defined.

(** Go's [int] on a 64-bit platform, carried as a [Z] in
    [-2^63, 2^63); [n - 1] wraps around. *)
Definition int_min : Z := - 2 ^ 63.
Definition int_max : Z := 2 ^ 63 - 1.
Definition int_dec (n : Z) : Z :=
  if (n =? int_min)%Z then int_max else (n - 1)%Z.

(** ** Association lists

    A Go map is carried as the sequence of its entries; [aset] is the
    assignment [m[k] = v] (replace the entry of [k], or add one) and
    [alookup] the read [m[k]]. The order of the sequence is the order in
    which [range] yields the entries, which Go leaves unspecified: the
    theorems below hold for every order. *)

Fixpoint alookup {A} (k : string) (l : list (string * A)) : option A :=
  match l with
  | [] => None
  | (k', v) :: l' => if decide (k = k') then Some v else alookup k l'
  end.

Fixpoint aset {A} (k : string) (v : A) (l : list (string * A))
  : list (string * A) :=
  match l with
  | [] => [(k, v)]
  | (k', v') :: l' =>
      if decide (k = k') then (k, v) :: l' else (k', v') :: aset k v l'
  end.

(** ** Go's [path] package *)

Module path.

Definition is_slash (c : ascii) : bool := bool_decide (c = "/"%char).

(** The elements between the slashes of [s], empty ones included. *)
Fixpoint split (s : string) : list string :=
  match s with
  | EmptyString => [EmptyString]
  | String c s' =>
      if is_slash c then EmptyString :: split s'
      else match split s' with
           | [] => [String c EmptyString]
           | h :: t => String c h :: t
           end
  end.

Fixpoint join_slash (l : list string) : string :=
  match l with
  | [] => ""
  | [x] => x
  | x :: l' => x +:+ "/" +:+ join_slash l'
  end.

Definition rooted (s : string) : bool :=
  match s with
  | String c _ => is_slash c
  | EmptyString => false
  end.

(** One element of the lexical clean-up of [path.Clean]; [stk] is the
    output so far, last element first. Empty and [.] elements vanish, an
    inner [..] removes the element before it, a [..] at the start of a
    rooted path vanishes and one at the start of a relative path stays. *)
Definition lex_step (r : bool) (stk : list string) (e : string)
  : list string :=
  if decide (e = "") then stk
  else if decide (e = ".") then stk
  else if decide (e = "..") then
    match stk with
    | t :: stk' => if decide (t = "..") then e :: stk else stk'
    | [] => if r then [] else [e]
    end
  else e :: stk.

Definition lex (r : bool) (l : list string) : list string :=
  rev (fold_left (lex_step r) l []).

Definition render (r : bool) (segs : list string) : string :=
  if r then "/" +:+ join_slash segs
  else match segs with [] => "." | _ => join_slash segs end.

(** [path.Clean] *)
Definition Clean (s : string) : string :=
  render (rooted s) (lex (rooted s) (split s)).

(** [path.Join] of two elements: empty elements are ignored, the rest is
    joined by a slash and cleaned; two empty elements give the empty
    string. *)
Definition Join (a b : string) : string :=
  if decide (a = "") then
    if decide (b = "") then "" else Clean b
  else Clean (a +:+ "/" +:+ b).

(** [path.Dir]: drop the last element, clean what is left. *)
Definition Dir (p : string) : string :=
  render (rooted p) (lex (rooted p) (removelast (split p))).

(** An entry name as a directory listing yields it: one element, neither
    empty nor [.] nor [..]. *)
Definition valid_name (s : string) : Prop :=
  s ≠ "" ∧ s ≠ "." ∧ s ≠ ".." ∧ split s = [s].

#[global] Instance valid_name_dec s : Decision (valid_name s).
Proof. unfold valid_name. apply _. Defined.

End path.

(** ** The operating system behind the [os] and [fs] calls

    The packages reach the disk through [github.com/echocrow/osa], which
    mirrors Go's [os] package and is not part of the repository. This
    module is the part of it they use, on a file tree, with the results
    and errors of the POSIX calls behind [os]: [Mkdir] fails with
    "exists" on anything that is there, [WriteFile] creates or truncates a
    plain file and fails with "is a directory" on a directory, [MkdirAll]
    accepts directories that exist, and every call fails when an ancestor
    is missing or is a plain file. A call returns the new tree and its
    error; the tree is unchanged when it fails. *)

Module OS.

(** The file tree: a plain file with its bytes, or a directory with its
    entries. Permissions, timestamps and links are not tracked. *)
Inductive node :=
| File (data : list Byte.byte)
| Dir (ents : list (string * node)).

(** Name resolution. A name is walked element by element from the root of
    the tree (the working directory of the process is the root); [..]
    steps back to the parent and the parent of the root is the root. *)
Definition walk_step (stk : list string) (e : string) : list string :=
  if decide (e = "") then stk
  else if decide (e = ".") then stk
  else if decide (e = "..") then tail stk
  else e :: stk.

Definition walk (from : list string) (l : list string) : list string :=
  rev (fold_left walk_step l (rev from)).

Definition resolve (name : string) : list string := walk [] (path.split name).

Fixpoint get (q : list string) (t : node) : option node :=
  match q with
  | [] => Some t
  | s :: q' =>
      match t with
      | Dir ents => c ← alookup s ents; get q' c
      | File _ => None
      end
  end.

(** What a system call finds at the end of a path. *)
Inductive probe_result :=
| Found (n : node)     (* the object exists *)
| Absent               (* the parent is a directory without this entry *)
| NoEnt                (* an ancestor is missing *)
| NotDir.              (* an ancestor is a plain file *)

Fixpoint probe (q : list string) (t : node) : probe_result :=
  match q with
  | [] => Found t
  | s :: q' =>
      match t with
      | File _ => NotDir
      | Dir ents =>
          match alookup s ents with
          | Some c => probe q' c
          | None => match q' with [] => Absent | _ => NoEnt end
          end
      end
  end.

(** Store [v] at [q]: replace the object there, or add the last element
    of [q] to its parent directory. Nothing happens off the tree. *)
Fixpoint put (q : list string) (v : node) (t : node) : node :=
  match q with
  | [] => v
  | s :: q' =>
      match t with
      | File _ => t
      | Dir ents =>
          match alookup s ents with
          | Some c => Dir (aset s (put q' v c) ents)
          | None => match q' with [] => Dir (aset s v ents) | _ => t end
          end
      end
  end.

Definition probe_error (r : probe_result) : error :=
  match r with NotDir => ErrNotDir | _ => ErrNotExist end.

(** [os.Mkdir]: one level, fails on anything that exists. *)
Definition mkdir_at (q : list string) (st : node) : node * option error :=
  match probe q st with
  | Found _ => (st, Some ErrExist)
  | Absent => (put q (Dir []) st, None)
  | r => (st, Some (probe_error r))
  end.

(** [os.WriteFile]: create or truncate, then write. *)
Definition writefile_at (q : list string) (data : list Byte.byte) (st : node)
  : node * option error :=
  match probe q st with
  | Found (Dir _) => (st, Some ErrIsDir)
  | Found (File _) | Absent => (put q (File data) st, None)
  | r => (st, Some (probe_error r))
  end.

(** [os.MkdirAll]: the directory and every missing ancestor; a directory
    that exists is left alone, a plain file on the way is an error. *)
Fixpoint mkdirall_at (q : list string) (st : node) : node * option error :=
  match st with
  | File _ => (st, Some ErrNotDir)
  | Dir ents =>
      match q with
      | [] => (st, None)
      | s :: q' =>
          let '(c', err) := mkdirall_at q' (default (Dir []) (alookup s ents)) in
          match err with
          | Some e => (st, Some e)
          | None => (Dir (aset s c' ents), None)
          end
      end
  end.

Definition Mkdir (name : string) (st : node) : node * option error :=
  mkdir_at (resolve name) st.

Definition MkdirAll (name : string) (st : node) : node * option error :=
  mkdirall_at (resolve name) st.

Definition WriteFile (name : string) (data : bytes) (st : node)
  : node * option error :=
  writefile_at (resolve name) (content data) st.

(** [os.Stat], reduced to [FileInfo.IsDir]; the [FileInfo] is nil on
    error. *)
Definition Stat (name : string) (st : node) : option bool * option error :=
  match probe (resolve name) st with
  | Found (Dir _) => (Some true, None)
  | Found (File _) => (Some false, None)
  | r => (None, Some (probe_error r))
  end.

(** [os.IsExist] *)
Definition IsExist (err : option error) : bool :=
  bool_decide (err = Some ErrExist).

(** *** The [fs.FS] capability of the scanners *)

Record DirEntry := { Name : string; IsDir : bool }.

(** [fs.ReadDir] and [fs.ReadFile] of a file system. Both return a value
    and an error, and an implementation may return a non-nil value
    together with an error. A scan does not change the file system. *)
Record FS := {
  ReadDir : string → list DirEntry * option error;
  ReadFile : string → bytes * option error;
}.

Definition is_dir (t : node) : bool :=
  match t with Dir _ => true | File _ => false end.

(** The [fs.FS] view of the tree ([osa.Current()]). A directory is listed
    in the order the tree keeps its entries; the snapshots that the
    scanners build are maps and do not depend on it. *)
Definition osfs (st : node) : FS := {|
  ReadDir name :=
    match probe (resolve name) st with
    | Found (Dir ents) =>
        (map (λ kv, {| Name := kv.1; IsDir := is_dir kv.2 |}) ents, None)
    | Found (File _) => ([], Some ErrNotDir)
    | r => ([], Some (probe_error r))
    end;
  ReadFile name :=
    match probe (resolve name) st with
    | Found (File data) => (Some data, None)
    | Found (Dir _) => (None, Some ErrIsDir)
    | r => (None, Some (probe_error r))
    end;
|}.

(** The test [err != nil && err != io.EOF] of both scanners. *)
Definition failed (err : option error) : bool :=
  match err with
  | None | Some EOF => false
  | Some _ => true
  end.

End OS.

Import OS.

(** ** Package [dirsnap] *)

Module dirsnap.

(** [type Dirs map[string]Dirs]: the nil map [DNil] marks a file, a
    non-nil map [DMap] is a directory with its entries. *)
Inductive Dirs :=
| DNil
| DMap (l : list (string * Dirs)).

(** The [for _, e := range entries] loop of [ReadFS]; [rec] is the
    recursive call and [t] the entries of the map built so far. *)
Fixpoint ReadFS_loop (rec : string → Z → option (Dirs * option error))
    (dir : string) (n : Z) (entries : list DirEntry)
    (t : list (string * Dirs)) : option (Dirs * option error) :=
  match entries with
  | [] => Some (DMap t, None)
  | e :: es =>
      let en := Name e in
      if negb (IsDir e) then ReadFS_loop rec dir n es (aset en DNil t)
      else if (n =? 0)%Z then ReadFS_loop rec dir n es (aset en (DMap []) t)
      else
        match rec (path.Join dir en) (int_dec n) with
        | None => None
        | Some (sub, Some err) => Some (DMap (aset en sub t), Some err)
        | Some (sub, None) => ReadFS_loop rec dir n es (aset en sub t)
        end
  end.

(** [ReadFS]. The recursion follows the directories of [fsys], which
    need not be finite: [fuel] bounds its depth and [None] is "out of
    fuel". *)
Fixpoint ReadFS (fuel : nat) (fsys : FS) (dir : string) (n : Z)
  : option (Dirs * option error) :=
  match fuel with
  | O => None
  | S fuel' =>
      let '(entries, err) := ReadDir fsys dir in
      if failed err then Some (DNil, err)
      else ReadFS_loop (ReadFS fuel' fsys) dir n entries []
  end.

(** [Read] binds [ReadFS] to the live file system. *)
Definition Read (fuel : nat) (st : node) (dir : string) (n : Z)
  : option (Dirs * option error) :=
  ReadFS fuel (osfs st) dir n.

Definition writeEmptyFile (name : string) (st : node)
  : node * option error :=
  WriteFile name (Some []) st.

Definition isWriteErrOk (err : option error) (name : string)
    (wantDir : bool) (st : node) : bool :=
  if negb (IsExist err) then bool_decide (err = None)
  else
    let '(fi, err') := Stat name st in
    let gotDir := match fi with Some d => d | None => false end in
    bool_decide (err' = None) && bool_decide (gotDir = wantDir).

(** [Dirs.Write]: the entries are written in the order of the list. *)
Fixpoint Write (d : Dirs) (dir : string) (st : node)
  : node * option error :=
  match d with
  | DNil => (st, None)
  | DMap l =>
      (fix range (l : list (string * Dirs)) (st : node)
         : node * option error :=
         match l with
         | [] => (st, None)
         | (n, sub) :: l' =>
             let name := path.Join dir n in
             match sub with
             | DNil =>
                 let '(st1, err) := writeEmptyFile name st in
                 if negb (isWriteErrOk err name false st1) then (st1, err)
                 else range l' st1
             | DMap _ =>
                 let '(st1, err) := Mkdir name st in
                 if negb (isWriteErrOk err name true st1) then (st1, err)
                 else
                   let '(st2, err2) := Write sub name st1 in
                   match err2 with
                   | Some e => (st2, Some e)
                   | None => range l' st2
                   end
             end
         end) l st
  end.

(** Equality of two snapshots as [reflect.DeepEqual] (and so testify's
    [assert.Equal]) decides it: both nil, or both non-nil maps with
    equal values under every key. *)
Inductive Dirs_equal : Dirs → Dirs → Prop :=
| equal_nil : Dirs_equal DNil DNil
| equal_map la lb :
    (∀ k, option_Forall2 Dirs_equal (alookup k la) (alookup k lb)) →
    Dirs_equal (DMap la) (DMap lb).

End dirsnap.

Arguments dirsnap.Write : simpl never.

(** ** Package [filesnap] *)

Module filesnap.

(** [type Files map[string][]byte]: [FNil] is the nil map and [FMap l] a
    non-nil map with the entries [l], in the order in which [range]
    yields them. Go tells the nil map from the empty one: [ReadFS]
    returns a non-nil map, and [reflect.DeepEqual] finds the two
    different. *)
Inductive Files :=
| FNil
| FMap (l : list (string * bytes)).

(** The entries that [range f] yields; the nil map has none. *)
Definition range (f : Files) : list (string * bytes) :=
  match f with
  | FNil => []
  | FMap l => l
  end.

(** The loop of [readFS]; [f] holds the entries of the receiver, which
    the Go code updates in place and which is threaded through here. The
    receiver is the non-nil map that [ReadFS] makes: [readFS] is not
    exported and is called on no other. *)
Fixpoint readFS_loop
    (rec : string → Z → list (string * bytes)
           → option (list (string * bytes) * option error))
    (fsys : FS) (dir subDir : string) (n : Z)
    (entries : list DirEntry) (f : list (string * bytes))
  : option (list (string * bytes) * option error) :=
  match entries with
  | [] => Some (f, None)
  | e :: es =>
      let p := path.Join dir (Name e) in
      let sp := path.Join subDir (Name e) in
      if negb (IsDir e) then
        let '(data, err) := ReadFile fsys p in
        let f1 := aset sp data f in
        if failed err then Some (f1, err)
        else readFS_loop rec fsys dir subDir n es f1
      else if negb (n =? 0)%Z then
        match rec sp (int_dec n) f with
        | None => None
        | Some (f1, Some err) => Some (f1, Some err)
        | Some (f1, None) => readFS_loop rec fsys dir subDir n es f1
        end
      else readFS_loop rec fsys dir subDir n es f
  end.

Fixpoint readFS (fuel : nat) (fsys : FS) (rootDir subDir : string) (n : Z)
    (f : list (string * bytes))
  : option (list (string * bytes) * option error) :=
  match fuel with
  | O => None
  | S fuel' =>
      let dir := path.Join rootDir subDir in
      let '(entries, err) := ReadDir fsys dir in
      if failed err then Some (f, err)
      else readFS_loop (readFS fuel' fsys rootDir) fsys dir subDir n entries f
  end.

(** [ReadFS]: the map [f := Files{}] is made, filled by [readFS] and
    returned with the error, whatever the error. *)
Definition ReadFS (fuel : nat) (fsys : FS) (dir : string) (n : Z)
  : option (Files * option error) :=
  match readFS fuel fsys dir "" n [] with
  | Some (f, err) => Some (FMap f, err)
  | None => None
  end.

Definition Read (fuel : nat) (st : node) (dir : string) (n : Z)
  : option (Files * option error) :=
  ReadFS fuel (osfs st) dir n.

(** The loop [for n, data := range f] of [Files.Write], on the entries
    that [range] yields, in their order. *)
Fixpoint Write_loop (l : list (string * bytes)) (dir : string) (st : node)
  : node * option error :=
  match l with
  | [] => (st, None)
  | (n, data) :: l' =>
      let p := path.Join dir n in
      let dir' := path.Dir p in
      let '(st1, err) := MkdirAll dir' st in
      match err with
      | Some e => (st1, Some e)
      | None =>
          let '(st2, err) := WriteFile p data st1 in
          match err with
          | Some e => (st2, Some e)
          | None => Write_loop l' dir st2
          end
      end
  end.

(** [Files.Write]; its receiver may be the nil map, which has no
    entries. *)
Definition Write (f : Files) (dir : string) (st : node)
  : node * option error :=
  Write_loop (range f) dir st.

(** Equality of two snapshots as [reflect.DeepEqual] (and so testify's
    [assert.Equal]) decides it: both nil, or both non-nil with the same
    keys and the same values, a nil slice being different from an empty
    one. *)
Definition Files_equal (a b : Files) : Prop :=
  match a, b with
  | FNil, FNil => True
  | FMap la, FMap lb => ∀ k, alookup k la = alookup k lb
  | _, _ => False
  end.

End filesnap.

(** ** Fixtures

    The directory layouts of the repository's tests, a file system that
    refuses access to one path, and one whose listings end with
    [io.EOF]. *)

Module Fixtures.
Import dirsnap filesnap.

Definition text (s : string) : list Byte.byte :=
  Strings.String.list_byte_of_string s.

(** An empty temporary directory. *)
Definition tmp : node := Dir [("tmp", Dir [])].

(** The layout of [testScanTree]. *)
Definition scan_tree : node :=
  Dir [("tmp", Dir [
    ("emptyDir", Dir []);
    ("some", Dir [("sub", Dir [("dir", Dir [])]); ("nested.txt", File [])]);
    ("anotherFile", File [])])].

(** The same top level with other contents below it. *)
Definition scan_tree' : node :=
  Dir [("tmp", Dir [
    ("emptyDir", Dir [("late", File (text "x"))]);
    ("some", Dir []);
    ("anotherFile", File (text "data"))])].

(** The layout of [testScanFiles]. *)
Definition scan_files : node :=
  Dir [("tmp", Dir [
    ("emptyDir", Dir []);
    ("some", Dir [
       ("sub", Dir [("dir", Dir []); ("file", File (text "foobar"))]);
       ("nested.txt", File (text "File Contents"))]);
    ("emptyFile", File [])])].

(** The snapshots of [TestWriteTree] and [TestWriteFiles]. *)
Definition tr : Dirs :=
  DMap [
    ("emptyDir", DMap []);
    ("some", DMap [("subDir", DMap []); ("nested.txt", DNil)]);
    ("anotherFile", DNil)].

Definition fl : Files :=
  FMap [("myFile", Some (text "some contents"));
        ("emptyFile", Some []);
        ("nested/file", Some (text "foobar"))].

(** [fsys] with every access to the path [q] refused: to list or to read
    a name that resolves to [q] fails with the error [err]. [l] and
    [data] are what the failed call returns beside the error, which
    [fs.ReadDir] and [fs.ReadFile] do not promise to be nil. *)
Definition refusing (q : list string) (l : list DirEntry) (data : bytes)
    (err : error) (fsys : FS) : FS := {|
  ReadDir d :=
    if decide (resolve d = q) then (l, Some err) else ReadDir fsys d;
  ReadFile d :=
    if decide (resolve d = q) then (data, Some err) else ReadFile fsys d;
|}.

(** [fsys] with [io.EOF] at the end of every listing that [fsys] returns
    without an error. *)
Definition with_eof (fsys : FS) : FS := {|
  ReadDir d :=
    let '(entries, err) := ReadDir fsys d in
    (entries, if decide (err = None) then Some EOF else err);
  ReadFile := ReadFile fsys;
|}.
End Fixtures.

(** ** Vocabulary of the statements and of their proofs *)

(** An element without a slash. *)
Definition nosl (e : string) : Prop := path.split e = [e].

(** An element that names an entry. *)
Definition normal (e : string) : Prop := e ≠ "" ∧ e ≠ "." ∧ e ≠ "..".

(** The shape of a cleaned path: leading [..] elements (none in a rooted
    path), then entry names. *)
Definition cleaned (r : bool) (segs : list string) : Prop :=
  ∃ k M, segs = replicate k ".." ++ M ∧ Forall normal M ∧
         (r = true → k = 0).

(** There is a directory at [q]. *)
Definition dir_at (q : list string) (t : node) : Prop :=
  ∃ ents, get q t = Some (Dir ents).

(** The entry a depth-0 tree scan records for a listed entry. *)
Definition shallow_entry (e : DirEntry) : string * dirsnap.Dirs :=
  (Name e, if IsDir e then dirsnap.DMap [] else dirsnap.DNil).

(** The pair a flat scan records for a plain file listed in [dir]. *)
Definition flat_entry (fsys : FS) (dir : string) (e : DirEntry)
  : string * bytes :=
  (Name e, (ReadFile fsys (path.Join dir (Name e))).1).

(** A file system whose listings report no error where those of [fsys]
    report [io.EOF]. *)
Definition mask_eof (fsys : FS) : FS := {|
  ReadDir name :=
    let '(entries, err) := ReadDir fsys name in
    (entries, if decide (err = Some EOF) then None else err);
  ReadFile := ReadFile fsys;
|}.

(** A snapshot whose names are entry names, distinct in each map. *)
Inductive wf_dirs : dirsnap.Dirs → Prop :=
| wf_DNil : wf_dirs dirsnap.DNil
| wf_DMap l :
    NoDup (l.*1) →
    Forall (λ kv, path.valid_name kv.1 ∧ wf_dirs kv.2) l →
    wf_dirs (dirsnap.DMap l).

(** The tree a snapshot describes: an empty file for a marker, a directory
    for a map. *)
Fixpoint tree_of (d : dirsnap.Dirs) : node :=
  match d with
  | dirsnap.DNil => File []
  | dirsnap.DMap l =>
      Dir ((fix entries (l : list (string * dirsnap.Dirs)) :=
              match l with
              | [] => []
              | (k, v) :: l' => (k, tree_of v) :: entries l'
              end) l)
  end.

Definition tree_entry (kv : string * dirsnap.Dirs) : string * node :=
  (kv.1, tree_of kv.2).

(** The tree [t] has everything the snapshot asks for: an empty file
    where it has a marker, a directory with the entries of the map where
    it has a map. The tree may have more. *)
Fixpoint holds (d : dirsnap.Dirs) (t : node) : Prop :=
  match d with
  | dirsnap.DNil => t = File []
  | dirsnap.DMap l =>
      ∃ ents, t = Dir ents ∧
        (fix all (l : list (string * dirsnap.Dirs)) : Prop :=
           match l with
           | [] => True
           | (k, v) :: l' =>
               (∃ c, alookup k ents = Some c ∧ holds v c) ∧ all l'
           end) l
  end.

Definition holds_entry (ents : list (string * node))
    (kv : string * dirsnap.Dirs) : Prop :=
  ∃ c, alookup kv.1 ents = Some c ∧ holds kv.2 c.

(** The number of directory levels of a snapshot. *)
Fixpoint Dirs_depth (d : dirsnap.Dirs) : nat :=
  match d with
  | dirsnap.DNil => 0
  | dirsnap.DMap l =>
      S ((fix deepest (l : list (string * dirsnap.Dirs)) : nat :=
            match l with
            | [] => 0
            | (_, v) :: l' => Nat.max (Dirs_depth v) (deepest l')
            end) l)
  end.

Definition deepest (l : list (string * dirsnap.Dirs)) : nat :=
  foldr (λ kv m, Nat.max (Dirs_depth kv.2) m) 0 l.

(** A key of a flat snapshot that is a relative path of entry names. *)
Definition clean_key (k : string) : Prop :=
  Forall path.valid_name (path.split k).

(** A flat snapshot with distinct keys, all of them clean. *)
Definition wf_files (f : list (string * bytes)) : Prop :=
  NoDup (f.*1) ∧ Forall (λ kv, clean_key kv.1) f.

(** Where an entry written into [dir] ends up in the tree, and with which
    bytes. *)
Definition file_at (dir : string) (kv : string * bytes)
  : list string * list Byte.byte :=
  (resolve dir ++ path.split kv.1, content kv.2).

(** [Files.Write] on resolved paths: one entry, and a sequence of them. *)
Definition write_file_at (e : list string * list Byte.byte) (t : node)
  : node * option error :=
  let '(t1, err) := mkdirall_at (removelast e.1) t in
  match err with
  | Some e' => (t1, Some e')
  | None => writefile_at e.1 e.2 t1
  end.

Fixpoint write_files_at (L : list (list string * list Byte.byte)) (t : node)
  : node * option error :=
  match L with
  | [] => (t, None)
  | e :: L' =>
      let '(t1, err) := write_file_at e t in
      match err with
      | Some e' => (t1, Some e')
      | None => write_files_at L' t1
      end
  end.

(** The listing of the directory a map describes. *)
Definition listing (l : list (string * dirsnap.Dirs)) : list DirEntry :=
  map (λ kv, {| Name := kv.1; IsDir := is_dir kv.2 |}) (map tree_entry l).

(** A tree whose names are entry names, distinct in each directory. *)
Inductive wf_node : node → Prop :=
| wf_File x : wf_node (File x)
| wf_Dir ents :
    NoDup (ents.*1) →
    Forall (λ kv, path.valid_name kv.1 ∧ wf_node kv.2) ents →
    wf_node (Dir ents).

(** The number of nested directory levels of a tree. *)
Fixpoint height (t : node) : nat :=
  match t with
  | File _ => 0
  | Dir ents =>
      S ((fix highest (l : list (string * node)) : nat :=
            match l with
            | [] => 0
            | (_, c) :: l' => Nat.max (height c) (highest l')
            end) ents)
  end.

Definition highest (l : list (string * node)) : nat :=
  foldr (λ kv m, Nat.max (height kv.2) m) 0 l.

(** The plain files of a tree in the order a scan meets them, each with
    the key the scan gives it below the relative path [pre]. *)
Fixpoint files_of (pre : list string) (t : node) : list (string * bytes) :=
  match t with
  | File x => [(path.join_slash pre, Some x)]
  | Dir ents =>
      (fix below (l : list (string * node)) : list (string * bytes) :=
         match l with
         | [] => []
         | (k, c) :: l' => files_of (pre ++ [k]) c ++ below l'
         end) ents
  end.

(** The snapshot a flat scan returns for what [f] put on the disk: the
    same keys, with the bytes written. *)
Definition written (f : list (string * bytes)) : list (string * bytes) :=
  map (λ kv, (kv.1, Some (content kv.2))) f.

(** Where an entry ends up below the directory it is written into. *)
Definition file_below (kv : string * bytes) : list string * list Byte.byte :=
  (path.split kv.1, content kv.2).

(** The directory entry of a child. *)
Definition entry_of (kv : string * node) : DirEntry :=
  {| Name := kv.1; IsDir := is_dir kv.2 |}.

(** One assignment [f[k] = v] of a flat scan. *)
Definition record (t : list (string * bytes)) (kv : string * bytes)
  : list (string * bytes) :=
  aset kv.1 kv.2 t.

(** A flat snapshot whose entries have consistent types: no key is a
    directory on the path of another key. *)
Definition consistent_files (f : list (string * bytes)) : Prop :=
  Forall (λ kv, Forall (λ kv', kv.1 = kv'.1 ∨
                  ¬ path.split kv.1 `prefix_of` path.split kv'.1) f) f.

(** What a tree under construction has after the paths [D] were written:
    it is a directory, its plain files are at paths of [D], and its
    directories are the root and proper ancestors of paths of [D]. *)
Definition built (t : node) (D : list (list string)) : Prop :=
  is_dir t = true ∧
  (∀ q x, get q t = Some (File x) → q ∈ D) ∧
  (∀ q, dir_at q t → q = [] ∨ ∃ ks, ks ∈ D ∧ q `prefix_of` ks ∧ q ≠ ks).

(** The snapshot a tree scan descending [k] directory levels takes of a
    tree: a marker for a plain file, a map of the entries for a directory,
    and the empty map for a directory at level [k], which is recorded
    without being listed. *)
Fixpoint snap_upto (k : nat) (t : node) {struct t} : dirsnap.Dirs :=
  match t with
  | File _ => dirsnap.DNil
  | Dir ents =>
      match k with
      | O => dirsnap.DMap []
      | S k' =>
          dirsnap.DMap
            ((fix entries (l : list (string * node)) :=
                match l with
                | [] => []
                | (n, c) :: l' => (n, snap_upto k' c) :: entries l'
                end) ents)
      end
  end.

(** The snapshot of the whole tree. *)
Fixpoint snap_of (t : node) : dirsnap.Dirs :=
  match t with
  | File _ => dirsnap.DNil
  | Dir ents =>
      dirsnap.DMap
        ((fix entries (l : list (string * node)) :=
            match l with
            | [] => []
            | (n, c) :: l' => (n, snap_of c) :: entries l'
            end) ents)
  end.

(** The plain files of a tree that a flat scan descending [k] directory
    levels meets, in the order it meets them. *)
Fixpoint files_upto (k : nat) (pre : list string) (t : node) {struct t}
  : list (string * bytes) :=
  match t with
  | File x => [(path.join_slash pre, Some x)]
  | Dir ents =>
      match k with
      | O => []
      | S k' =>
          (fix below (l : list (string * node)) : list (string * bytes) :=
             match l with
             | [] => []
             | (n, c) :: l' => files_upto k' (pre ++ [n]) c ++ below l'
             end) ents
      end
  end.

(** The number of directory levels a scan with depth [n] descends, the
    scanned directory included, in a tree of height [h]. *)
Definition levels (n : Z) (h : nat) : nat :=
  if (n <? 0)%Z then h else S (Z.to_nat n).

(** Every object of [t] is still there in [t'], with its type: a plain
    file is a plain file and a directory a directory. *)
Definition keeps_kinds (t t' : node) : Prop :=
  ∀ q c, get q t = Some c →
         ∃ c', get q t' = Some c' ∧ is_dir c' = is_dir c.

(** Every plain file of [t] is in [t'] with its bytes, or empty. *)
Definition keeps_or_empties (t t' : node) : Prop :=
  ∀ q x, get q t = Some (File x) →
         get q t' = Some (File x) ∨ get q t' = Some (File []).

(** The path that an entry written into [dir] resolves to, and the bytes
    that reach it. *)
Definition target (dir : string) (kv : string * bytes)
  : list string * list Byte.byte :=
  (resolve (path.Join dir kv.1), content kv.2).

(** What the files [L] ask of the disk they are written to: for each of
    them no plain file is on the way to its parent directory, its path is
    not taken by a directory, and its path is not a directory on the way
    to another of them. *)
Definition writable (t : node) (L : list (list string * list Byte.byte))
  : Prop :=
  Forall (λ e,
    (∀ q x, q `prefix_of` removelast e.1 → get q t ≠ Some (File x)) ∧
    ¬ dir_at e.1 t ∧
    Forall (λ e', ¬ e.1 `prefix_of` removelast e'.1) L) L.

(** Two trees with the same objects: the same directories and the same
    plain files with the same bytes. The order in which a directory
    lists its entries may differ. *)
Definition same_objects (t t' : node) : Prop :=
  (∀ q, dir_at q t ↔ dir_at q t') ∧
  (∀ q x, get q t = Some (File x) ↔ get q t' = Some (File x)).

(** What is found under the name of an entry of a tree snapshot does not
    stand in its way: nothing is there; or a plain file, for a marker;
    or, for a map, a directory in which nothing stands in the way of the
    entries of the map. *)
Fixpoint accepts (d : dirsnap.Dirs) (o : option node) : Prop :=
  match d with
  | dirsnap.DNil => match o with Some (Dir _) => False | _ => True end
  | dirsnap.DMap l =>
      match o with
      | None => True
      | Some (File _) => False
      | Some (Dir ents) =>
          (fix all (l : list (string * dirsnap.Dirs)) : Prop :=
             match l with
             | [] => True
             | (k, v) :: l' => accepts v (alookup k ents) ∧ all l'
             end) l
      end
  end.

Definition accepts_entry (ents : list (string * node))
    (kv : string * dirsnap.Dirs) : Prop :=
  accepts kv.2 (alookup kv.1 ents).

(** The object under the name of an entry of a tree snapshot once the
    entry is written over [o], the object that was found there, if any:
    an empty plain file for a marker; for a map, the directory that was
    found, or a new one, with the entries of the map written into it one
    after the other. *)
Fixpoint merge (d : dirsnap.Dirs) (o : option node) : node :=
  match d with
  | dirsnap.DNil => File []
  | dirsnap.DMap l =>
      Dir ((fix entries (l : list (string * dirsnap.Dirs))
                (ents : list (string * node)) : list (string * node) :=
              match l with
              | [] => ents
              | (k, v) :: l' =>
                  entries l' (aset k (merge v (alookup k ents)) ents)
              end) l (match o with Some (Dir ents) => ents | _ => [] end))
  end.

Definition merge_entries (l : list (string * dirsnap.Dirs))
    (ents : list (string * node)) : list (string * node) :=
  fold_left (λ ents kv, aset kv.1 (merge kv.2 (alookup kv.1 ents)) ents)
    l ents.

(** The same on snapshots: the snapshot [d] laid over the snapshot [o]. *)
Fixpoint Dirs_merge (d : dirsnap.Dirs) (o : option dirsnap.Dirs)
  : dirsnap.Dirs :=
  match d with
  | dirsnap.DNil => dirsnap.DNil
  | dirsnap.DMap l =>
      dirsnap.DMap
        ((fix entries (l : list (string * dirsnap.Dirs))
              (t : list (string * dirsnap.Dirs))
            : list (string * dirsnap.Dirs) :=
            match l with
            | [] => t
            | (k, v) :: l' =>
                entries l' (aset k (Dirs_merge v (alookup k t)) t)
            end) l (match o with Some (dirsnap.DMap t) => t | _ => [] end))
  end.

Definition Dirs_merge_entries (l : list (string * dirsnap.Dirs))
    (t : list (string * dirsnap.Dirs)) : list (string * dirsnap.Dirs) :=
  fold_left (λ t kv, aset kv.1 (Dirs_merge kv.2 (alookup kv.1 t)) t) l t.

(** [fsys] lists the directories of the tree [st] below the path [q]: to
    list a name that resolves to a directory of [st] below [q] returns
    the entries of the directory, and the error beside them, if any, is
    [io.EOF]. *)
Definition lists (fsys : FS) (st : node) (q : list string) : Prop :=
  ∀ name ents,
    q `prefix_of` resolve name → get (resolve name) st = Some (Dir ents) →
    ∃ e, ReadDir fsys name = (map entry_of ents, e) ∧ failed e = false.

(** [fsys] reads the plain files of [st] below [q]. *)
Definition reads (fsys : FS) (st : node) (q : list string) : Prop :=
  ∀ name x,
    q `prefix_of` resolve name → get (resolve name) st = Some (File x) →
    ∃ e, ReadFile fsys name = (Some x, e) ∧ failed e = false.

(** [fsys] shows the tree [st] below [q]. *)
Definition shows (fsys : FS) (st : node) (q : list string) : Prop :=
  lists fsys st q ∧ reads fsys st q.

(** The entries that a directory lists before the entry named [s]. *)
Fixpoint before {A} (s : string) (l : list (string * A))
  : list (string * A) :=
  match l with
  | [] => []
  | (n, c) :: l' => if decide (n = s) then [] else (n, c) :: before s l'
  end.

(** The snapshot that a tree scan descending [k] directory levels has
    built of the tree [t] when the listing of the directory at the path
    [p] below [t] fails. An entry listed before the one on the way to
    [p] is there with all that the scan records below it; the entry on
    the way to [p] is there with what was built of it; the directory at
    [p] itself is the nil snapshot; an entry listed after the one on the
    way to [p] is not there. *)
Fixpoint snap_until (k : nat) (p : list string) (t : node) {struct p}
  : dirsnap.Dirs :=
  match p, t, k with
  | s :: p', Dir ents, S k' =>
      dirsnap.DMap
        (map (λ kv, (kv.1, snap_upto k' kv.2)) (before s ents)
         ++ match alookup s ents with
            | Some c => [(s, snap_until k' p' c)]
            | None => []
            end)
  | _, _, _ => dirsnap.DNil
  end.

(** The assignments that a flat scan descending [k] directory levels has
    made when the access to the path [p] below [t] fails, in their
    order: the plain files met before [p], each with its bytes, and then,
    when a plain file is at [p], the key of that file with [data], which
    the failed read returned. A directory at [p] adds nothing. *)
Fixpoint files_until (k : nat) (pre p : list string) (data : bytes)
    (t : node) {struct p} : list (string * bytes) :=
  match p with
  | [] =>
      match t with
      | File _ => [(path.join_slash pre, data)]
      | Dir _ => []
      end
  | s :: p' =>
      match t, k with
      | Dir ents, S k' =>
          foldr (λ kv r, files_upto k' (pre ++ [kv.1]) kv.2 ++ r) []
            (before s ents)
          ++ match alookup s ents with
             | Some c => files_until k' (pre ++ [s]) p' data c
             | None => []
             end
      | _, _ => []
      end
  end.

(** * Properties *)

(** ** Association lists *)

Section alist.
Context {A : Type}.
Implicit Types (l : list (string * A)) (k : string) (v : A).

Lemma alookup_aset_eq k v l : alookup k (aset k v l) = Some v.
Proof.
  induction l as [|[k' v'] l IH]; simpl.
  - by rewrite decide_True.
  - destruct (decide (k = k')) as [->|Hne]; simpl.
    + by rewrite decide_True.
    + by rewrite decide_False.
Qed.

Lemma alookup_aset_ne k k' v l :
  k ≠ k' → alookup k' (aset k v l) = alookup k' l.
Proof.
  intros Hne. induction l as [|[k0 v0] l IH]; simpl.
  - by rewrite decide_False.
  - destruct (decide (k = k0)) as [->|Hne0]; simpl.
    + by rewrite !decide_False.
    + by rewrite IH.
Qed.

Lemma alookup_aset k k' v l :
  alookup k' (aset k v l) = if decide (k' = k) then Some v else alookup k' l.
Proof.
  destruct (decide (k' = k)) as [->|Hne].
  - apply alookup_aset_eq.
  - by apply alookup_aset_ne.
Qed.

Lemma aset_same k v l : alookup k l = Some v → aset k v l = l.
Proof.
  induction l as [|[k' v'] l IH]; simpl; [done|].
  destruct (decide (k = k')) as [->|Hne]; [naive_solver|].
  intros Hl. by rewrite IH.
Qed.

Lemma aset_aset k v v' l : aset k v (aset k v' l) = aset k v l.
Proof.
  induction l as [|[k0 v0] l IH]; simpl.
  - by rewrite decide_True.
  - destruct (decide (k = k0)) as [->|Hne]; simpl.
    + by rewrite decide_True.
    + by rewrite decide_False, IH.
Qed.

Lemma aset_fresh k v l : alookup k l = None → aset k v l = l ++ [(k, v)].
Proof.
  induction l as [|[k' v'] l IH]; simpl; [done|].
  destruct (decide (k = k')); [done|]. intros Hl. by rewrite IH.
Qed.

Lemma alookup_app_fresh k k' v l :
  alookup k l = None →
  alookup k' (l ++ [(k, v)]) = if decide (k' = k) then Some v else alookup k' l.
Proof. intros Hl. rewrite <-aset_fresh by done. apply alookup_aset. Qed.

Lemma alookup_Some_elem k v l : alookup k l = Some v → (k, v) ∈ l.
Proof.
  induction l as [|[k' v'] l IH]; simpl; [done|].
  destruct (decide (k = k')) as [->|Hne].
  - intros [= ->]. left.
  - intros Hl. right. by apply IH.
Qed.

Lemma alookup_None_keys k l : alookup k l = None ↔ k ∉ (l.*1).
Proof.
  induction l as [|[k' v'] l IH]; simpl.
  - split; [|done]. intros _. apply not_elem_of_nil.
  - rewrite not_elem_of_cons. destruct (decide (k = k')) as [->|Hne].
    + split; [done|]. by intros [? _].
    + rewrite IH. tauto.
Qed.

Lemma alookup_elem_NoDup k v l :
  NoDup (l.*1) → (k, v) ∈ l → alookup k l = Some v.
Proof.
  induction l as [|[k' v'] l IH]; simpl.
  - intros _ H. by apply elem_of_nil in H.
  - intros [Hk Hnd]%NoDup_cons [[= -> ->]|Hin]%elem_of_cons.
    + by rewrite decide_True.
    + rewrite decide_False; [by apply IH|].
      intros ->. apply Hk. apply list_elem_of_fmap. by exists (k', v).
Qed.

Lemma aset_keys_NoDup k v l : NoDup (l.*1) → NoDup ((aset k v l).*1).
Proof.
  induction l as [|[k' v'] l IH]; simpl.
  - intros _. apply NoDup_singleton.
  - intros [Hk Hnd]%NoDup_cons.
    destruct (decide (k = k')) as [->|Hne]; simpl.
    + by apply NoDup_cons.
    + apply NoDup_cons. split; [|by apply IH].
      rewrite <-alookup_None_keys, alookup_aset_ne by done.
      by apply alookup_None_keys.
Qed.
End alist.

(** ** Paths: splitting, cleaning and resolving *)

Section path_facts.
Import path.

Lemma valid_name_normal s : valid_name s → normal s.
Proof. unfold valid_name, normal. tauto. Qed.

Lemma valid_name_nosl s : valid_name s → nosl s.
Proof. unfold valid_name, nosl. tauto. Qed.

Lemma split_not_nil s : split s ≠ [].
Proof.
  destruct s as [|c s]; simpl; [done|].
  destruct (is_slash c); [done|]. by destruct (split s).
Qed.

Lemma split_app_slash a b : split (a +:+ "/" +:+ b) = split a ++ split b.
Proof.
  induction a as [|c a IH]; simpl; [done|].
  destruct (is_slash c); simpl.
  - by rewrite IH.
  - rewrite IH. pose proof (split_not_nil a). by destruct (split a).
Qed.

Lemma split_nosl s : Forall nosl (split s).
Proof.
  induction s as [|c s IH]; simpl.
  - by repeat constructor.
  - destruct (is_slash c) eqn:Hc.
    + by constructor.
    + destruct (split s) as [|h t].
      { repeat constructor. unfold nosl. simpl. by rewrite Hc. }
      apply Forall_cons in IH as [Hh Ht]. constructor; [|done].
      unfold nosl in *. simpl. by rewrite Hc, Hh.
Qed.

Lemma split_join l : l ≠ [] → Forall nosl l → split (join_slash l) = l.
Proof.
  induction l as [|x l IH]; [done|]. intros _ [Hx Hl]%Forall_cons.
  destruct l as [|y l]; [done|].
  change (join_slash (x :: y :: l)) with (x +:+ "/" +:+ join_slash (y :: l)).
  rewrite split_app_slash, Hx, IH; done.
Qed.

Lemma nosl_not_rooted e : nosl e → rooted e = false.
Proof.
  destruct e as [|c e]; [done|]. unfold nosl. simpl.
  destruct (is_slash c); [|done].
  intros ?. simplify_eq.
Qed.

Lemma rooted_app a b : a ≠ "" → rooted (a +:+ b) = rooted a.
Proof. by destruct a. Qed.

Lemma rev_replicate {A} k (x : A) : rev (replicate k x) = replicate k x.
Proof.
  induction k as [|k IH]; simpl; [done|].
  by rewrite IH, <-replicate_cons_app.
Qed.

Lemma Forall_removelast {A} (P : A → Prop) l :
  Forall P l → Forall P (removelast l).
Proof.
  induction 1 as [|x l Hx Hl IH]; simpl; [done|].
  destruct l; [done|]. by constructor.
Qed.

(** *** Walking *)

Lemma walk_app from l1 l2 : walk from (l1 ++ l2) = walk (walk from l1) l2.
Proof. unfold walk. by rewrite fold_left_app, rev_involutive. Qed.

Lemma walk_nil from : walk from [] = from.
Proof. unfold walk. simpl. apply rev_involutive. Qed.

Lemma walk_cons_normal from e l :
  normal e → walk from (e :: l) = walk (from ++ [e]) l.
Proof.
  intros (?&?&?). unfold walk. simpl. unfold walk_step at 2.
  rewrite !decide_False by done. by rewrite rev_unit.
Qed.

Lemma walk_cons_skip from e l :
  e = "" ∨ e = "." → walk from (e :: l) = walk from l.
Proof.
  intros He. unfold walk. simpl. unfold walk_step at 2.
  destruct He as [->| ->]; done.
Qed.

Lemma walk_normal from l : Forall normal l → walk from l = from ++ l.
Proof.
  revert from. induction l as [|e l IH]; intros from Hl.
  - by rewrite walk_nil, app_nil_r.
  - apply Forall_cons in Hl as [He Hl].
    rewrite walk_cons_normal, IH, <-app_assoc; done.
Qed.

Lemma walk_dots k l : walk [] (replicate k ".." ++ l) = walk [] l.
Proof. induction k as [|k IH]; [done|]. simpl. by rewrite <-IH. Qed.

Lemma walk_valid from n : valid_name n → walk from (split n) = from ++ [n].
Proof.
  intros Hn. destruct (Hn) as (_&_&_&->).
  apply walk_normal. constructor; [by apply valid_name_normal|constructor].
Qed.

(** *** The shape of a cleaned path *)

Lemma lex_fold_spec r l N k :
  Forall normal N → (r = true → k = 0) →
  ∃ N' k', fold_left (lex_step r) l (N ++ replicate k "..")
             = N' ++ replicate k' ".." ∧
           Forall normal N' ∧ (r = true → k' = 0) ∧
           fold_left walk_step l N = N'.
Proof.
  revert N k. induction l as [|e l IH]; intros N k HN Hk; simpl.
  - by exists N, k.
  - unfold lex_step at 2, walk_step at 2.
    destruct (decide (e = "")); [by apply IH|].
    destruct (decide (e = ".")); [by apply IH|].
    destruct (decide (e = "..")) as [->|].
    + destruct N as [|t N]; simpl.
      * destruct k as [|k]; simpl.
        -- destruct r.
           ++ by apply (IH [] 0).
           ++ by apply (IH [] 1).
        -- apply (IH [] (S (S k))); [done|]. intros Hr. by specialize (Hk Hr).
      * apply Forall_cons in HN as [(?&?&?) HN].
        rewrite decide_False by done. by apply IH.
    + apply (IH (e :: N) k); [|done]. by constructor.
Qed.

Lemma lex_spec r l :
  ∃ k M, lex r l = replicate k ".." ++ M ∧ Forall normal M ∧
         (r = true → k = 0) ∧ walk [] l = M.
Proof.
  destruct (lex_fold_spec r l [] 0) as (N'&k'&Hf&HN&Hk&Hw); [done..|].
  exists k', (rev N'). unfold lex, walk. simpl in *. rewrite Hf, Hw.
  rewrite rev_app_distr, rev_replicate.
  repeat split; [|done]. by apply List.Forall_rev.
Qed.

Lemma lex_cleaned r l : cleaned r (lex r l).
Proof. destruct (lex_spec r l) as (k&M&?&?&?&?). by exists k, M. Qed.

Lemma lex_Forall (P : string → Prop) r l :
  Forall P l → Forall P (lex r l).
Proof.
  intros Hl. unfold lex.
  assert (∀ stk, Forall P stk → Forall P (fold_left (lex_step r) l stk))
    as Hfold.
  { induction Hl as [|e l He Hl IH]; intros stk Hstk; simpl; [done|].
    apply IH. unfold lex_step. repeat case_decide; try done.
    - destruct stk as [|t stk]; [destruct r; by repeat constructor|].
      apply Forall_cons in Hstk as [??]. case_decide; [by repeat constructor|done].
    - by constructor. }
  apply List.Forall_rev, Hfold. constructor.
Qed.

Lemma lex_fold_dots k j :
  fold_left (lex_step false) (replicate k "..") (replicate j "..")
  = replicate (k + j) "..".
Proof.
  revert j. induction k as [|k IH]; intros j; [done|].
  change (replicate (S k) "..") with (".." :: replicate k "..").
  cbn [fold_left].
  assert (lex_step false (replicate j "..") ".." = replicate (S j) "..") as ->
    by (by destruct j).
  rewrite IH. f_equal. lia.
Qed.

Lemma lex_fold_normal r M stk :
  Forall normal M → fold_left (lex_step r) M stk = rev M ++ stk.
Proof.
  revert stk. induction M as [|e M IH]; intros stk HM; simpl; [done|].
  apply Forall_cons in HM as [(?&?&?) HM].
  unfold lex_step at 2. rewrite !decide_False by done.
  rewrite IH by done. by rewrite <-app_assoc.
Qed.

Lemma lex_cleaned_id r segs : cleaned r segs → lex r segs = segs.
Proof.
  intros (k&M&->&HM&Hk). unfold lex. rewrite fold_left_app.
  assert (fold_left (lex_step r) (replicate k "..") [] = replicate k "..")
    as ->.
  { destruct r.
    - by rewrite Hk.
    - pose proof (lex_fold_dots k 0) as Hd. simpl in Hd. rewrite Hd.
      f_equal. lia. }
  rewrite lex_fold_normal by done.
  by rewrite rev_app_distr, rev_involutive, rev_replicate.
Qed.

Lemma cleaned_removelast r segs : cleaned r segs → cleaned r (removelast segs).
Proof.
  intros (k&M&->&HM&Hk). destruct (decide (M = [])) as [->|HMne].
  - rewrite app_nil_r. destruct k as [|k]; [by exists 0, []|].
    exists k, []. rewrite app_nil_r. split; [|split; [done|]].
    + replace (replicate (S k) "..") with (replicate k ".." ++ [".."]).
      * by rewrite removelast_last.
      * by rewrite <-replicate_cons_app.
    + intros Hr. by specialize (Hk Hr).
  - exists k, (removelast M). rewrite removelast_app by done.
    split; [done|]. split; [|done]. by apply Forall_removelast.
Qed.

Lemma walk_cleaned_removelast r segs :
  cleaned r segs → walk [] (removelast segs) = removelast (walk [] segs).
Proof.
  intros (k&M&->&HM&Hk). rewrite walk_dots, (walk_normal [] M) by done.
  simpl. destruct (decide (M = [])) as [->|HMne].
  - rewrite app_nil_r. simpl. destruct k as [|k]; [done|].
    replace (replicate (S k) "..") with (replicate k ".." ++ [".."])
      by (by rewrite <-replicate_cons_app).
    rewrite removelast_last. rewrite <-(app_nil_r (replicate k "..")).
    by rewrite walk_dots.
  - rewrite removelast_app, walk_dots by done. apply walk_normal.
    by apply Forall_removelast.
Qed.
End path_facts.

Section resolve_facts.
Import path.

Lemma resolve_render r segs :
  Forall nosl segs → resolve (render r segs) = walk [] segs.
Proof.
  intros Hs. unfold resolve, render.
  assert (walk [] (split (join_slash segs)) = walk [] segs) as Hj.
  { destruct (decide (segs = [])) as [->|Hne]; [done|].
    by rewrite split_join. }
  destruct r.
  - change ("/" +:+ join_slash segs) with (String "/" (join_slash segs)).
    cbn [split]. change (is_slash "/") with true. cbv iota.
    by rewrite walk_cons_skip by (by left).
  - destruct segs as [|x segs]; [done|]. done.
Qed.

Lemma resolve_Clean s : resolve (Clean s) = resolve s.
Proof.
  unfold Clean. rewrite resolve_render by apply lex_Forall, split_nosl.
  destruct (lex_spec (rooted s) (split s)) as (k&M&->&HM&_&Hw).
  by rewrite walk_dots, walk_normal.
Qed.

Lemma resolve_Join a b : resolve (Join a b) = walk (resolve a) (split b).
Proof.
  unfold Join. destruct (decide (a = "")) as [->|Ha].
  - destruct (decide (b = "")) as [->|Hb]; [done|]. apply resolve_Clean.
  - rewrite resolve_Clean. unfold resolve.
    by rewrite split_app_slash, walk_app.
Qed.

Lemma resolve_Join_valid a n :
  valid_name n → resolve (Join a n) = resolve a ++ [n].
Proof. intros Hn. by rewrite resolve_Join, walk_valid. Qed.

Lemma cleaned_head_not_rooted x segs :
  cleaned false (x :: segs) → nosl x →
  x ≠ "" ∧ rooted (join_slash (x :: segs)) = false.
Proof.
  intros (k&M&Heq&HM&_) Hx.
  assert (x ≠ "") as Hne.
  { destruct k as [|k]; simpl in Heq.
    - subst M. apply Forall_cons in HM as [(?&_) _]. done.
    - by injection Heq as -> _. }
  split; [done|].
  destruct segs as [|y segs]; [by apply nosl_not_rooted|].
  change (join_slash (x :: y :: segs))
    with (x +:+ "/" +:+ join_slash (y :: segs)).
  rewrite rooted_app by done. by apply nosl_not_rooted.
Qed.

Lemma rooted_render r segs :
  cleaned r segs → Forall nosl segs → rooted (render r segs) = r.
Proof.
  intros Hc Hs. destruct r; [done|]. unfold render.
  destruct segs as [|x segs]; [done|].
  apply Forall_cons in Hs as [Hx _].
  by apply cleaned_head_not_rooted.
Qed.

Lemma lex_cons_empty r l : lex r ("" :: l) = lex r l.
Proof. done. Qed.

Lemma Dir_render r segs :
  cleaned r segs → Forall nosl segs →
  Dir (render r segs) = render r (removelast segs).
Proof.
  intros Hc Hs. unfold Dir. rewrite rooted_render by done.
  f_equal. destruct (decide (segs = [])) as [->|Hne].
  { by destruct r. }
  assert (split (join_slash segs) = segs) as Hj by (by apply split_join).
  assert (lex r (removelast segs) = removelast segs) as Hl
    by (by apply lex_cleaned_id, cleaned_removelast).
  destruct r; unfold render.
  - change ("/" +:+ join_slash segs) with (String "/" (join_slash segs)).
    cbn [split]. change (is_slash "/") with true. cbv iota. rewrite Hj.
    destruct segs as [|x segs]; [done|].
    change (removelast ("" :: x :: segs)) with ("" :: removelast (x :: segs)).
    by rewrite lex_cons_empty.
  - destruct segs as [|x segs]; [done|]. by rewrite Hj.
Qed.

Lemma resolve_Dir_Clean s :
  resolve (Dir (Clean s)) = removelast (resolve (Clean s)).
Proof.
  unfold Clean.
  pose proof (lex_cleaned (rooted s) (split s)) as Hc.
  pose proof (lex_Forall nosl (rooted s) _ (split_nosl s)) as Hs.
  rewrite Dir_render, !resolve_render by (done || by apply Forall_removelast).
  by eapply walk_cleaned_removelast.
Qed.

Lemma resolve_Dir_Join a b :
  resolve (Dir (Join a b)) = removelast (resolve (Join a b)).
Proof.
  unfold Join. repeat case_decide; [done|apply resolve_Dir_Clean..].
Qed.

Lemma string_app_assoc a b c : (a +:+ b) +:+ c = a +:+ (b +:+ c).
Proof.
  induction a as [|x a IH]; [done|].
  change (String x ((a +:+ b) +:+ c) = String x (a +:+ (b +:+ c))).
  by rewrite IH.
Qed.

Lemma join_slash_snoc segs n :
  segs ≠ [] → join_slash (segs ++ [n]) = join_slash segs +:+ "/" +:+ n.
Proof.
  induction segs as [|x segs IH]; [done|]. intros _.
  destruct segs as [|y segs]; [done|].
  change (join_slash ((x :: y :: segs) ++ [n]))
    with (x +:+ "/" +:+ join_slash ((y :: segs) ++ [n])).
  rewrite IH by done.
  change (join_slash (x :: y :: segs))
    with (x +:+ "/" +:+ join_slash (y :: segs)).
  by rewrite !string_app_assoc.
Qed.

(** The key under which a scan records the entry [n] of the directory
    with relative path [segs]. *)
Lemma Join_names segs n :
  Forall valid_name segs → valid_name n →
  Join (join_slash segs) n = join_slash (segs ++ [n]).
Proof.
  intros Hs Hn.
  assert (Forall valid_name (segs ++ [n])) as Hall
    by (apply Forall_app; split; [done|by apply Forall_singleton]).
  assert (cleaned false (segs ++ [n])) as Hc.
  { exists 0, (segs ++ [n]). split; [done|]. split; [|done].
    eapply Forall_impl; [done|]. apply valid_name_normal. }
  assert (Forall nosl (segs ++ [n])) as Hns.
  { eapply Forall_impl; [done|]. apply valid_name_nosl. }
  unfold Join. destruct segs as [|x segs].
  - simpl. rewrite decide_False by apply Hn. unfold Clean.
    rewrite nosl_not_rooted by (by apply valid_name_nosl).
    destruct Hn as (?&?&?&->). by rewrite (lex_cleaned_id false [n]).
  - assert (join_slash (x :: segs) ≠ "") as Hne.
    { apply Forall_cons in Hs as [(Hx&_) _].
      destruct segs; simpl; [done|]. by destruct x. }
    rewrite decide_False by done. unfold Clean.
    rewrite <-join_slash_snoc by done.
    rewrite split_join by (done || by destruct segs).
    replace (rooted (join_slash ((x :: segs) ++ [n]))) with false.
    + by rewrite lex_cleaned_id.
    + symmetry. apply (cleaned_head_not_rooted x (segs ++ [n])); [done|].
      by apply Forall_cons in Hns as [? _].
Qed.
End resolve_facts.

(** ** Scanning an arbitrary [fs.FS] *)

Section scan_facts.
Import dirsnap filesnap.

Lemma alookup_app {A} k (l1 l2 : list (string * A)) :
  alookup k (l1 ++ l2) = from_option Some (alookup k l2) (alookup k l1).
Proof.
  induction l1 as [|[k' v] l1 IH]; simpl; [done|].
  by destruct (decide (k = k')).
Qed.

(** Assigning the pairs of [l] to a map one after the other: a later
    pair overrides an earlier one with the same key. *)
Lemma alookup_fold_aset {A} k (l : list (string * A)) t :
  alookup k (fold_left (λ t kv, aset kv.1 kv.2 t) l t)
  = from_option Some (alookup k t) (alookup k (rev l)).
Proof.
  revert t. induction l as [|[k' v] l IH]; intros t; simpl; [done|].
  rewrite IH, alookup_app. simpl.
  destruct (alookup k (rev l)); simpl; [done|].
  rewrite alookup_aset. by destruct (decide (k = k')).
Qed.

Lemma ReadFS_loop_zero rec dir entries t :
  ReadFS_loop rec dir 0 entries t
  = Some (DMap (fold_left (λ t kv, aset kv.1 kv.2 t)
                  (map shallow_entry entries) t), None).
Proof.
  revert t. induction entries as [|e es IH]; intros t; simpl; [done|].
  destruct (IsDir e); simpl; apply IH.
Qed.

Lemma ReadFS_loop_app rec dir n pre rest t :
  ReadFS_loop rec dir n (pre ++ rest) t
  = match ReadFS_loop rec dir n pre t with
    | Some (DMap t1, None) => ReadFS_loop rec dir n rest t1
    | r => r
    end.
Proof.
  revert t. induction pre as [|e pre IH]; intros t; simpl; [done|].
  destruct (IsDir e); simpl; [|apply IH].
  destruct (n =? 0)%Z; [apply IH|].
  destruct (rec _ _) as [[sub [err|]]|]; [done|apply IH|done].
Qed.

Lemma readFS_loop_app rec fsys dir subDir n pre rest f :
  readFS_loop rec fsys dir subDir n (pre ++ rest) f
  = match readFS_loop rec fsys dir subDir n pre f with
    | Some (f1, None) => readFS_loop rec fsys dir subDir n rest f1
    | r => r
    end.
Proof.
  revert f. induction pre as [|e pre IH]; intros f; simpl; [done|].
  destruct (IsDir e); simpl.
  - destruct (n =? 0)%Z; simpl; [apply IH|].
    destruct (rec _ _ _) as [[f1 [err|]]|]; [done|apply IH|done].
  - destruct (ReadFile fsys _) as [data err].
    destruct err as [[]|]; simpl; (done || apply IH).
Qed.

Lemma readFS_loop_zero rec fsys dir entries f :
  Forall (λ e, path.valid_name (Name e)) entries →
  Forall (λ e, IsDir e = false →
               failed (ReadFile fsys (path.Join dir (Name e))).2 = false)
         entries →
  readFS_loop rec fsys dir "" 0 entries f
  = Some (fold_left (λ t kv, aset kv.1 kv.2 t)
            (map (flat_entry fsys dir)
               (filter (λ e, IsDir e = false) entries)) f, None).
Proof.
  intros Hv Hr. revert f.
  induction entries as [|e es IH]; intros f; simpl; [done|].
  apply Forall_cons in Hv as [Hn Hv]. apply Forall_cons in Hr as [He Hr].
  destruct (IsDir e) eqn:Hd; simpl.
  - rewrite filter_cons_False by (by rewrite Hd). by apply IH.
  - rewrite filter_cons_True by done. specialize (He eq_refl).
    destruct (ReadFile fsys _) as [data err] eqn:Hf. simpl in He.
    rewrite He.
    pose proof (Join_names [] (Name e) (List.Forall_nil _) Hn) as Hj.
    simpl in Hj. rewrite Hj.
    rewrite IH by done. simpl. unfold flat_entry. simpl. by rewrite Hf.
Qed.

Lemma failed_mask err :
  failed (if decide (err = Some EOF) then None else err) = failed err.
Proof. by destruct err as [[]|]. Qed.

Lemma ReadFS_loop_ext rec rec' dir n entries t :
  (∀ d m, rec d m = rec' d m) →
  ReadFS_loop rec dir n entries t = ReadFS_loop rec' dir n entries t.
Proof.
  intros Hrec. revert t. induction entries as [|e es IH]; intros t; simpl; [done|].
  rewrite Hrec. destruct (IsDir e); simpl; [|apply IH].
  destruct (n =? 0)%Z; [apply IH|].
  destruct (rec' _ _) as [[sub [err|]]|]; [done|apply IH|done].
Qed.

Lemma readFS_loop_ext rec rec' fsys dir subDir n entries f :
  (∀ d m g, rec d m g = rec' d m g) →
  readFS_loop rec fsys dir subDir n entries f
  = readFS_loop rec' fsys dir subDir n entries f.
Proof.
  intros Hrec. revert f.
  induction entries as [|e es IH]; intros f; simpl; [done|].
  rewrite Hrec. destruct (IsDir e); simpl.
  - destruct (n =? 0)%Z; simpl; [apply IH|].
    destruct (rec' _ _ _) as [[f1 [err|]]|]; [done|apply IH|done].
  - destruct (ReadFile fsys _) as [data err].
    destruct (failed err); [done|apply IH].
Qed.

Lemma dirsnap_ReadFS_mask_eof fuel fsys dir n :
  dirsnap.ReadFS fuel (mask_eof fsys) dir n = dirsnap.ReadFS fuel fsys dir n.
Proof.
  revert dir n. induction fuel as [|fuel IH]; intros dir n; simpl; [done|].
  destruct (ReadDir fsys dir) as [entries err].
  rewrite failed_mask. destruct (failed err) eqn:Hf.
  - f_equal. f_equal. by destruct err as [[]|].
  - by apply ReadFS_loop_ext.
Qed.

Lemma filesnap_readFS_mask_eof fuel fsys rootDir subDir n f :
  readFS fuel (mask_eof fsys) rootDir subDir n f
  = readFS fuel fsys rootDir subDir n f.
Proof.
  revert subDir n f.
  induction fuel as [|fuel IH]; intros subDir n f; simpl; [done|].
  destruct (ReadDir fsys _) as [entries err].
  rewrite failed_mask. destruct (failed err) eqn:Hf.
  - f_equal. f_equal. by destruct err as [[]|].
  - rewrite (readFS_loop_ext _ (readFS fuel fsys rootDir)) by (intros; apply IH).
    generalize (readFS fuel fsys rootDir). intros rec.
    generalize (path.Join rootDir subDir). intros d. clear.
    revert f. induction entries as [|e es IH]; intros f; simpl; [done|].
    destruct (IsDir e); simpl.
    + destruct (n =? 0)%Z; simpl; [apply IH|].
      destruct (rec _ _ _) as [[f1 [err|]]|]; [done|apply IH|done].
    + destruct (ReadFile fsys _) as [data err].
      destruct (failed err); [done|apply IH].
Qed.

(** An error returned by a scan is one that [failed] lets through. *)
Lemma ReadFS_loop_error rec dir n entries t r e :
  (∀ d m r e, rec d m = Some (r, Some e) → failed (Some e) = true) →
  ReadFS_loop rec dir n entries t = Some (r, Some e) →
  failed (Some e) = true.
Proof.
  intros Hrec. revert t. induction entries as [|e' es IH]; intros t; simpl; [done|].
  destruct (IsDir e'); simpl; [|apply IH].
  destruct (n =? 0)%Z; [apply IH|].
  destruct (rec _ _) as [[sub [err|]]|] eqn:Hr; [|apply IH|done].
  intros [= <- <-]. by eapply Hrec.
Qed.

Lemma dirsnap_ReadFS_error fuel fsys dir n r e :
  dirsnap.ReadFS fuel fsys dir n = Some (r, Some e) → failed (Some e) = true.
Proof.
  revert dir n r e. induction fuel as [|fuel IH]; intros dir n r e; simpl; [done|].
  destruct (ReadDir fsys dir) as [entries err].
  destruct (failed err) eqn:Hf.
  - by intros [= <- ->].
  - apply ReadFS_loop_error. apply IH.
Qed.

Lemma readFS_loop_error rec fsys dir subDir n entries f r e :
  (∀ d m g r e, rec d m g = Some (r, Some e) → failed (Some e) = true) →
  readFS_loop rec fsys dir subDir n entries f = Some (r, Some e) →
  failed (Some e) = true.
Proof.
  intros Hrec. revert f. induction entries as [|e' es IH]; intros f; simpl; [done|].
  destruct (IsDir e'); simpl.
  - destruct (n =? 0)%Z; simpl; [apply IH|].
    destruct (rec _ _ _) as [[f1 [err|]]|] eqn:Hr; [|apply IH|done].
    intros [= <- <-]. by eapply Hrec.
  - destruct (ReadFile fsys _) as [data err].
    destruct (failed err) eqn:Hf; [|apply IH]. by intros [= <- ->].
Qed.

Lemma filesnap_readFS_error fuel fsys rootDir subDir n f r e :
  readFS fuel fsys rootDir subDir n f = Some (r, Some e) →
  failed (Some e) = true.
Proof.
  revert subDir n f r e.
  induction fuel as [|fuel IH]; intros subDir n f r e; simpl; [done|].
  destruct (ReadDir fsys _) as [entries err].
  destruct (failed err) eqn:Hf.
  - by intros [= <- ->].
  - apply readFS_loop_error. apply IH.
Qed.
End scan_facts.

(** ** The file tree *)

Section tree_facts.
Implicit Types (t c : node) (q d : list string) (ents : list (string * node)).

Lemma get_app d q t : get (d ++ q) t = get d t ≫= get q.
Proof.
  revert t. induction d as [|s d IH]; intros t; simpl; [done|].
  destruct t as [|ents]; [done|]. destruct (alookup s ents); simpl; [apply IH|done].
Qed.

Lemma probe_Found q t n : probe q t = Found n ↔ get q t = Some n.
Proof.
  revert t. induction q as [|s q IH]; intros t; simpl.
  - split; by intros [= ->].
  - destruct t as [|ents]; [done|]. destruct (alookup s ents); simpl; [apply IH|].
    by destruct q.
Qed.

Lemma probe_app d q t T : get d t = Some T → probe (d ++ q) t = probe q T.
Proof.
  revert t. induction d as [|s d IH]; intros t; simpl.
  - by intros [= ->].
  - destruct t as [|ents]; [done|].
    destruct (alookup s ents); simpl; [apply IH|done].
Qed.

Lemma put_app d q v t T :
  get d t = Some T → put (d ++ q) v t = put d (put q v T) t.
Proof.
  revert t. induction d as [|s d IH]; intros t; simpl.
  - by intros [= ->].
  - destruct t as [|ents]; [done|].
    destruct (alookup s ents) as [c|]; simpl; [|done].
    intros Hg. by rewrite IH.
Qed.

Lemma get_put d v t T : get d t = Some T → get d (put d v t) = Some v.
Proof.
  revert t. induction d as [|s d IH]; intros t; simpl; [done|].
  destruct t as [|ents]; [done|].
  destruct (alookup s ents) as [c|] eqn:Hc; simpl; [|done].
  intros Hg. rewrite alookup_aset_eq. simpl. by apply IH.
Qed.

Lemma put_put d v v' t T :
  get d t = Some T → put d v' (put d v t) = put d v' t.
Proof.
  revert t. induction d as [|s d IH]; intros t; simpl; [done|].
  destruct t as [|ents]; [done|].
  destruct (alookup s ents) as [c|] eqn:Hc; simpl; [|done].
  intros Hg. rewrite alookup_aset_eq, aset_aset. by rewrite IH.
Qed.

Lemma put_same d t T : get d t = Some T → put d T t = t.
Proof.
  revert t. induction d as [|s d IH]; intros t; simpl.
  - by intros [= ->].
  - destruct t as [|ents]; [done|].
    destruct (alookup s ents) as [c|] eqn:Hc; simpl; [|done].
    intros Hg. rewrite IH by done. by rewrite aset_same.
Qed.

(** Every operation on a path below [d] is the operation on the rest of
    the path, carried out in the subtree at [d]. *)
Lemma mkdir_at_app d q t T :
  get d t = Some T →
  mkdir_at (d ++ q) t
  = let '(T', err) := mkdir_at q T in (put d T' t, err).
Proof.
  intros Hg. unfold mkdir_at. rewrite (probe_app d q t T) by done.
  destruct (probe q T); simpl; rewrite ?(put_same d t T) by done; try done.
  by rewrite (put_app d q _ t T).
Qed.

Lemma writefile_at_app d q data t T :
  get d t = Some T →
  writefile_at (d ++ q) data t
  = let '(T', err) := writefile_at q data T in (put d T' t, err).
Proof.
  intros Hg. unfold writefile_at. rewrite (probe_app d q t T) by done.
  destruct (probe q T) as [[]| | |]; simpl;
    rewrite ?(put_same d t T) by done; try done;
    by rewrite (put_app d q _ t T).
Qed.

Lemma mkdirall_at_error q t t' e : mkdirall_at q t = (t', Some e) → t' = t.
Proof.
  destruct t as [data|ents]; destruct q as [|s q]; simpl; try by intros [= <-].
  destruct (mkdirall_at q _) as [c' [e'|]]; by intros [= <-].
Qed.

Lemma mkdirall_at_app d q t T :
  get d t = Some T →
  mkdirall_at (d ++ q) t
  = let '(T', err) := mkdirall_at q T in (put d T' t, err).
Proof.
  revert t. induction d as [|s d IH]; intros t; simpl.
  - intros [= ->]. by destruct (mkdirall_at q T).
  - destruct t as [|ents]; [done|].
    destruct (alookup s ents) as [c|] eqn:Hc; simpl; [|done].
    intros Hg. rewrite IH by done.
    destruct (mkdirall_at q T) as [T' [e|]] eqn:Hm.
    + apply mkdirall_at_error in Hm as ->.
      by rewrite (put_same d c T), aset_same.
    + done.
Qed.

(** A directory that exists needs no creation. *)
Lemma mkdirall_at_exists q t ents :
  get q t = Some (Dir ents) → mkdirall_at q t = (t, None).
Proof.
  revert t. induction q as [|s q IH]; intros t; simpl.
  - by intros [= ->].
  - destruct t as [|ents']; [done|].
    destruct (alookup s ents') as [c|] eqn:Hc; simpl; [|done].
    intros Hg. rewrite IH by done. by rewrite aset_same.
Qed.

Lemma get_removelast q t n :
  get q t = Some n → q ≠ [] → ∃ ents, get (removelast q) t = Some (Dir ents).
Proof.
  revert t. induction q as [|s q IH]; intros t; [done|]. intros Hg _.
  simpl in Hg. destruct t as [|ents]; [done|].
  destruct (alookup s ents) as [c|] eqn:Hc; simpl in Hg; [|done].
  destruct q as [|s' q]; [by exists ents|].
  change (removelast (s :: s' :: q)) with (s :: removelast (s' :: q)).
  simpl. rewrite Hc. simpl. by apply IH.
Qed.

(** Directories stay directories. *)
Lemma mkdirall_at_dir_at p q t t' err :
  mkdirall_at p t = (t', err) → dir_at q t → dir_at q t'.
Proof.
  revert t t' q err. induction p as [|s p IH]; intros t t' q err; simpl.
  - destruct t; by intros [= <- _].
  - destruct t as [|ents]; [by intros [= <- _]|].
    destruct (mkdirall_at p _) as [c' [e|]] eqn:Hm; intros [= <- _]; [done|].
    intros [ents' Hg]. destruct q as [|s' q]; [by eexists|].
    unfold dir_at. cbn [get] in *. rewrite alookup_aset.
    destruct (decide (s' = s)) as [->|Hne]; [|by eexists].
    destruct (alookup s ents) as [c|]; simpl in *; [|done].
    by apply (IH _ _ q _ Hm); eexists.
Qed.

Lemma put_file_dir_at p q data t :
  match probe p t with Found (File _) | Absent => True | _ => False end →
  dir_at q t → dir_at q (put p (File data) t).
Proof.
  revert t q. induction p as [|s p IH]; intros t q; simpl.
  - destruct t; [|done]. intros _ [ents Hg]. by destruct q.
  - destruct t as [|ents]; [done|].
    destruct (alookup s ents) as [c|] eqn:Hc.
    + intros Hp [ents' Hg]. destruct q as [|s' q]; [by eexists|].
      unfold dir_at. cbn [get] in *. rewrite alookup_aset.
      destruct (decide (s' = s)) as [->|Hne]; [|by eexists].
      rewrite Hc in Hg. simpl in *. apply IH; [done|by eexists].
    + destruct p; [|done]. intros _ [ents' Hg].
      destruct q as [|s' q]; [by eexists|].
      unfold dir_at. cbn [get] in *. rewrite alookup_aset.
      destruct (decide (s' = s)) as [->|Hne]; [|by eexists].
      by rewrite Hc in Hg.
Qed.

Lemma writefile_at_dir_at p q data t t' err :
  writefile_at p data t = (t', err) → dir_at q t → dir_at q t'.
Proof.
  unfold writefile_at. intros Hw Hd.
  pose proof (put_file_dir_at p q data t) as Hput.
  destruct (probe p t) as [[]| | |]; simplify_eq; auto.
Qed.

Lemma mkdirall_at_ok_dir_at p t t' :
  mkdirall_at p t = (t', None) → dir_at p t'.
Proof.
  revert t t'. induction p as [|s p IH]; intros t t'; simpl.
  - destruct t as [|ents]; [done|]. intros [= <-]. by exists ents.
  - destruct t as [|ents]; [done|].
    destruct (mkdirall_at p _) as [c' [e|]] eqn:Hm; [done|]. intros [= <-].
    apply IH in Hm as [ents' Hg]. exists ents'. simpl.
    by rewrite alookup_aset_eq.
Qed.

Lemma probe_under_dir q t :
  q ≠ [] → dir_at (removelast q) t →
  (∃ n, probe q t = Found n) ∨ probe q t = Absent.
Proof.
  revert t. induction q as [|s q IH]; intros t; [done|]. intros _ [ents Hg].
  destruct q as [|s' q].
  - simpl in *. injection Hg as ->. destruct (alookup s ents); eauto.
  - change (removelast (s :: s' :: q)) with (s :: removelast (s' :: q)) in Hg.
    cbn [get probe] in *. destruct t as [|ents0]; [done|].
    destruct (alookup s ents0) as [c|]; [|done]. simpl in Hg.
    apply IH; [done|by exists ents].
Qed.

Lemma get_put_new q v t :
  (∃ n, probe q t = Found n) ∨ probe q t = Absent →
  get q (put q v t) = Some v.
Proof.
  revert t. induction q as [|s q IH]; intros t; simpl; [done|].
  destruct t as [|ents]; [by intros [[? ?]|?]|].
  destruct (alookup s ents) as [c|] eqn:Hc; simpl.
  - intros Hp. rewrite alookup_aset_eq. simpl. by apply IH.
  - destruct q; [|by intros [[? ?]|?]]. intros _. simpl.
    by rewrite alookup_aset_eq.
Qed.

(** Plain files elsewhere keep their bytes. *)
Lemma mkdirall_at_file p q t t' err x :
  mkdirall_at p t = (t', err) →
  get q t = Some (File x) → get q t' = Some (File x).
Proof.
  revert t t' q err. induction p as [|s p IH]; intros t t' q err; simpl.
  - destruct t; by intros [= <- _].
  - destruct t as [|ents]; [by intros [= <- _]|].
    destruct (mkdirall_at p _) as [c' [e|]] eqn:Hm; intros [= <- _]; [done|].
    destruct q as [|s' q]; [done|]. cbn [get]. rewrite alookup_aset.
    destruct (decide (s' = s)) as [->|Hne]; [|done].
    destruct (alookup s ents) as [c|]; simpl; [|done]. by apply (IH _ _ q _ Hm).
Qed.

Lemma put_file_other p q y x t :
  match probe p t with Found (File _) | Absent => True | _ => False end →
  q ≠ p → get q t = Some (File x) → get q (put p (File y) t) = Some (File x).
Proof.
  revert t q. induction p as [|s p IH]; intros t q; simpl.
  - destruct t; [|done]. intros _ Hne. by destruct q.
  - destruct t as [|ents]; [done|].
    destruct (alookup s ents) as [c|] eqn:Hc.
    + intros Hp Hne. destruct q as [|s' q]; [done|].
      cbn [get]. rewrite alookup_aset.
      destruct (decide (s' = s)) as [->|Hne']; [|done].
      rewrite Hc. simpl. apply IH; [done|congruence].
    + destruct p; [|done]. intros _ Hne.
      destruct q as [|s' q]; [done|]. cbn [get]. rewrite alookup_aset.
      destruct (decide (s' = s)) as [->|Hne']; [|done]. by rewrite Hc.
Qed.

Lemma writefile_at_file p q y x t t' :
  writefile_at p y t = (t', None) → q ≠ p →
  get q t = Some (File x) → get q t' = Some (File x).
Proof.
  unfold writefile_at. intros Hw Hne Hg.
  pose proof (put_file_other p q y x t) as Hput.
  destruct (probe p t) as [[]| | |]; simplify_eq; auto.
Qed.

Lemma writefile_at_get p y t t' :
  writefile_at p y t = (t', None) → get p t' = Some (File y).
Proof.
  unfold writefile_at. intros Hw.
  destruct (probe p t) as [[]| | |] eqn:Hp; simplify_eq;
    apply get_put_new; eauto.
Qed.

Lemma writefile_at_same p y t :
  get p t = Some (File y) → writefile_at p y t = (t, None).
Proof.
  intros Hg. unfold writefile_at.
  rewrite (proj2 (probe_Found p t _) Hg). by rewrite put_same.
Qed.
End tree_facts.

(** ** One entry of a write *)

Section write_steps.
Import dirsnap filesnap.

Lemma Write_cons_file n l dir st :
  dirsnap.Write (DMap ((n, DNil) :: l)) dir st
  = let name := path.Join dir n in
    let '(st1, err) := writeEmptyFile name st in
    if negb (isWriteErrOk err name false st1) then (st1, err)
    else dirsnap.Write (DMap l) dir st1.
Proof. done. Qed.

Lemma Write_cons_dir n sub l dir st :
  dirsnap.Write (DMap ((n, DMap sub) :: l)) dir st
  = let name := path.Join dir n in
    let '(st1, err) := Mkdir name st in
    if negb (isWriteErrOk err name true st1) then (st1, err)
    else
      let '(st2, err2) := dirsnap.Write (DMap sub) name st1 in
      match err2 with
      | Some e => (st2, Some e)
      | None => dirsnap.Write (DMap l) dir st2
      end.
Proof. done. Qed.

Lemma writeEmptyFile_file name st data :
  get (resolve name) st = Some (File data) →
  writeEmptyFile name st = (put (resolve name) (File []) st, None).
Proof.
  intros Hg%probe_Found. unfold writeEmptyFile, WriteFile, writefile_at.
  by rewrite Hg.
Qed.

Lemma isWriteErrOk_exist name wantDir st n :
  get (resolve name) st = Some n →
  isWriteErrOk (Some ErrExist) name wantDir st
  = bool_decide (is_dir n = wantDir).
Proof.
  intros Hg%probe_Found. unfold isWriteErrOk, Stat. simpl.
  rewrite Hg. by destruct n.
Qed.

Lemma Mkdir_exists name st n :
  get (resolve name) st = Some n → Mkdir name st = (st, Some ErrExist).
Proof. intros Hg%probe_Found. unfold Mkdir, mkdir_at. by rewrite Hg. Qed.

Lemma WriteFile_dir name data st :
  dir_at (resolve name) st → WriteFile name data st = (st, Some ErrIsDir).
Proof.
  intros [ents Hg%probe_Found]. unfold WriteFile, writefile_at. by rewrite Hg.
Qed.

Lemma MkdirAll_parent dir n st node :
  get (resolve (path.Join dir n)) st = Some node → is_dir st = true →
  MkdirAll (path.Dir (path.Join dir n)) st = (st, None).
Proof.
  intros Hg Hd. unfold MkdirAll. rewrite resolve_Dir_Join.
  destruct (decide (resolve (path.Join dir n) = [])) as [Heq|Hne].
  - rewrite Heq. simpl. by destruct st.
  - destruct (get_removelast _ _ _ Hg Hne) as [ents Hp].
    by eapply mkdirall_at_exists.
Qed.
End write_steps.

(** ** Tree snapshots and the trees they describe *)

Section dirs_facts.
Import dirsnap.

Lemma Dirs_ind' (P : Dirs → Prop) :
  P DNil →
  (∀ l, Forall (λ kv, P kv.2) l → P (DMap l)) →
  ∀ d, P d.
Proof.
  intros Hnil Hmap. fix IH 1. intros [|l]; [exact Hnil|].
  apply Hmap. induction l as [|[k v] l IHl]; constructor; [apply IH|exact IHl].
Qed.

Lemma tree_of_DMap l : tree_of (DMap l) = Dir (map tree_entry l).
Proof.
  simpl. f_equal. induction l as [|[k v] l IH]; [done|]. simpl. by rewrite IH.
Qed.

Lemma holds_DMap l t :
  holds (DMap l) t ↔ ∃ ents, t = Dir ents ∧ Forall (holds_entry ents) l.
Proof.
  simpl. apply exist_proper. intros ents. apply and_iff_compat_l.
  induction l as [|[k v] l IH]; [by split; [constructor|]|].
  rewrite Forall_cons, <-IH. done.
Qed.

Lemma Dirs_depth_DMap l : Dirs_depth (DMap l) = S (deepest l).
Proof.
  simpl. f_equal. induction l as [|[k v] l IH]; [done|]. simpl. by rewrite IH.
Qed.

Lemma wf_dirs_DMap l :
  wf_dirs (DMap l) ↔
  NoDup (l.*1) ∧ Forall (λ kv, path.valid_name kv.1 ∧ wf_dirs kv.2) l.
Proof. split; [by inversion 1|]. intros [??]. by constructor. Qed.

Lemma Dirs_equal_refl d : Dirs_equal d d.
Proof.
  induction d as [|l IH] using Dirs_ind'; constructor.
  intros k. induction l as [|[k' v] l IHl]; simpl; [constructor|].
  apply Forall_cons in IH as [Hv IH].
  destruct (decide (k = k')); [by constructor|by apply IHl].
Qed.

(** The system calls of [Dirs.Write] on the entry [n] of the directory at
    [d]. *)
Lemma probe_child n ents :
  probe [n] (Dir ents)
  = match alookup n ents with Some c => Found c | None => Absent end.
Proof. simpl. by destruct (alookup n ents). Qed.

Lemma put_child n v ents : put [n] v (Dir ents) = Dir (aset n v ents).
Proof. simpl. by destruct (alookup n ents). Qed.

Lemma writeEmptyFile_child name d n st ents :
  resolve name = d ++ [n] → get d st = Some (Dir ents) →
  writeEmptyFile name st
  = match alookup n ents with
    | Some (Dir _) => (st, Some ErrIsDir)
    | _ => (put d (Dir (aset n (File []) ents)) st, None)
    end.
Proof.
  intros Hr Hg. unfold writeEmptyFile, WriteFile. rewrite Hr.
  rewrite (writefile_at_app d [n] _ st (Dir ents)) by done.
  unfold writefile_at. rewrite probe_child, put_child.
  destruct (alookup n ents) as [[|]|]; simpl; try done.
  by rewrite (put_same d st (Dir ents)).
Qed.

Lemma Mkdir_child name d n st ents :
  resolve name = d ++ [n] → get d st = Some (Dir ents) →
  Mkdir name st
  = match alookup n ents with
    | Some _ => (st, Some ErrExist)
    | None => (put d (Dir (aset n (Dir []) ents)) st, None)
    end.
Proof.
  intros Hr Hg. unfold Mkdir. rewrite Hr.
  rewrite (mkdir_at_app d [n] st (Dir ents)) by done.
  unfold mkdir_at. rewrite probe_child, put_child.
  destruct (alookup n ents); simpl; [|done].
  by rewrite (put_same d st (Dir ents)).
Qed.

Lemma Stat_child name d n st ents :
  resolve name = d ++ [n] → get d st = Some (Dir ents) →
  Stat name st
  = match alookup n ents with
    | Some c => (Some (is_dir c), None)
    | None => (None, Some ErrNotExist)
    end.
Proof.
  intros Hr Hg. unfold Stat. rewrite Hr.
  rewrite (probe_app d [n] st (Dir ents)), probe_child by done.
  by destruct (alookup n ents) as [[|]|].
Qed.

Lemma get_child d n st ents :
  get d st = Some (Dir ents) → get (d ++ [n]) st = alookup n ents.
Proof.
  intros Hg. rewrite get_app, Hg. simpl. by destruct (alookup n ents).
Qed.

Lemma put_child_app d n v st ents :
  get d st = Some (Dir ents) →
  put (d ++ [n]) v st = put d (Dir (aset n v ents)) st.
Proof. intros Hg. by rewrite (put_app d [n] v st (Dir ents)), put_child. Qed.

(** A successful [Dirs.Write] changes the directory it writes to, and
    nothing else, into one that holds the snapshot. *)
Lemma Write_holds d :
  ∀ l, d = DMap l → wf_dirs d →
  ∀ dir st ents st1,
    get (resolve dir) st = Some (Dir ents) →
    dirsnap.Write d dir st = (st1, None) →
    ∃ ents1, st1 = put (resolve dir) (Dir ents1) st ∧
             Forall (holds_entry ents1) l ∧
             (∀ k, k ∉ l.*1 → alookup k ents1 = alookup k ents).
Proof.
  induction d as [|l0 IH] using Dirs_ind'; [done|].
  intros l [= <-] [Hnd Hwf]%wf_dirs_DMap dir.
  induction l0 as [|[n v] l IHl]; intros st ents st1 Hg HW.
  - injection HW as <-. exists ents. by rewrite (put_same _ st (Dir ents)).
  - apply Forall_cons in IH as [IHv IH].
    apply Forall_cons in Hwf as [[Hn Hv] Hwf].
    apply NoDup_cons in Hnd as [Hfresh Hnd]. simpl in Hn, Hv, Hfresh.
    specialize (IHl IH Hnd Hwf).
    assert (resolve (path.Join dir n) = resolve dir ++ [n]) as Hr
      by (by apply resolve_Join_valid).
    (* the state after the entry, and what it holds *)
    assert (∃ st' ents' c,
              dirsnap.Write (DMap l) dir st' = (st1, None) ∧
              st' = put (resolve dir) (Dir ents') st ∧
              alookup n ents' = Some c ∧ holds v c ∧
              (∀ k, k ≠ n → alookup k ents' = alookup k ents))
      as (st' & ents' & c & HW' & -> & Hc & Hh & Hframe).
    { destruct v as [|sub].
      - rewrite Write_cons_file in HW. cbv zeta in HW.
        rewrite (writeEmptyFile_child _ _ n st ents Hr Hg) in HW.
        destruct (alookup n ents) as [[|]|]; [|done|].
        + eexists _, _, (File []). split; [exact HW|]. split; [done|].
          rewrite alookup_aset_eq. repeat split.
          intros k Hk. by rewrite alookup_aset_ne.
        + eexists _, _, (File []). split; [exact HW|]. split; [done|].
          rewrite alookup_aset_eq. repeat split.
          intros k Hk. by rewrite alookup_aset_ne.
      - rewrite Write_cons_dir in HW. cbv zeta in HW.
        rewrite (Mkdir_child _ _ n st ents Hr Hg) in HW.
        (* the directory is there after [Mkdir], created or found *)
        assert (∃ ents0 cents,
                  (let '(st2, err2) :=
                     dirsnap.Write (DMap sub) (path.Join dir n)
                       (put (resolve dir) (Dir ents0) st) in
                   match err2 with
                   | Some e => (st2, Some e)
                   | None => dirsnap.Write (DMap l) dir st2
                   end) = (st1, None) ∧
                  alookup n ents0 = Some (Dir cents) ∧
                  (∀ k, k ≠ n → alookup k ents0 = alookup k ents))
          as (ents0 & cents & HW0 & Hc0 & Hframe0).
        { destruct (alookup n ents) as [c0|] eqn:Hc0.
          - unfold isWriteErrOk in HW. simpl in HW.
            rewrite (Stat_child _ _ n st ents Hr Hg), Hc0 in HW. simpl in HW.
            destruct c0 as [|cents]; [done|]. simpl in HW.
            exists ents, cents. by rewrite (put_same _ st (Dir ents)).
          - simpl in HW. exists (aset n (Dir []) ents), [].
            split; [done|]. rewrite alookup_aset_eq. split; [done|].
            intros k Hk. by rewrite alookup_aset_ne. }
        set (st0 := put (resolve dir) (Dir ents0) st) in *.
        assert (get (resolve dir) st0 = Some (Dir ents0)) as Hg0
          by (by eapply get_put).
        destruct (dirsnap.Write (DMap sub) (path.Join dir n) st0)
          as [st2 [e|]] eqn:Hsub; [done|].
        destruct (IHv sub eq_refl Hv (path.Join dir n) st0 cents st2)
          as (cents1 & -> & Hh & _); [|done|].
        { by rewrite Hr, (get_child _ n st0 ents0). }
        rewrite Hr, (put_child_app _ n _ st0 ents0) in HW0 by done.
        unfold st0 in HW0. rewrite (put_put _ _ _ st (Dir ents)) in HW0 by done.
        eexists _, _, (Dir cents1). split; [exact HW0|]. split; [done|].
        rewrite alookup_aset_eq. split; [done|]. split.
        + apply holds_DMap. by exists cents1.
        + intros k Hk. rewrite alookup_aset_ne by done. by apply Hframe0. }
    destruct (IHl _ ents' st1 (get_put _ _ _ _ Hg) HW')
      as (ents1 & -> & Hall & Hframe1).
    exists ents1. rewrite (put_put _ _ _ st (Dir ents)) by done.
    split; [done|]. split.
    + constructor; [|done]. exists c. split; [|done].
      rewrite Hframe1 by done. done.
    + intros k [Hk Hkl]%not_elem_of_cons. simpl in Hk.
      rewrite Hframe1 by done. by apply Hframe.
Qed.

(** Writing a snapshot into a directory that holds it changes nothing. *)
Lemma holds_Write d :
  ∀ l, d = DMap l → wf_dirs d →
  ∀ dir st ents,
    get (resolve dir) st = Some (Dir ents) →
    Forall (holds_entry ents) l →
    dirsnap.Write d dir st = (st, None).
Proof.
  induction d as [|l0 IH] using Dirs_ind'; [done|].
  intros l [= <-] [_ Hwf]%wf_dirs_DMap dir st ents Hg.
  induction l0 as [|[n v] l IHl]; intros Hall; [done|].
  apply Forall_cons in IH as [IHv IH].
  apply Forall_cons in Hwf as [[Hn Hv] Hwf].
  apply Forall_cons in Hall as [(c & Hc & Hh) Hall].
  simpl in Hn, Hv, Hc, Hh, IHv.
  specialize (IHl IH Hwf Hall).
  assert (resolve (path.Join dir n) = resolve dir ++ [n]) as Hr
    by (by apply resolve_Join_valid).
  destruct v as [|sub].
  - simpl in Hh. subst c. rewrite Write_cons_file. cbv zeta.
    rewrite (writeEmptyFile_child _ _ n st ents Hr Hg), Hc.
    rewrite aset_same, (put_same _ st (Dir ents)) by done. simpl. apply IHl.
  - apply holds_DMap in Hh as (cents & -> & Hsub).
    rewrite Write_cons_dir. cbv zeta.
    rewrite (Mkdir_child _ _ n st ents Hr Hg), Hc.
    assert (get (resolve (path.Join dir n)) st = Some (Dir cents)) as Hgc
      by (by rewrite Hr, (get_child _ n st ents)).
    rewrite (isWriteErrOk_exist _ _ _ (Dir cents)) by done.
    rewrite bool_decide_true by done. cbn [negb].
    rewrite (IHv sub eq_refl Hv (path.Join dir n) st cents) by done.
    apply IHl.
Qed.

(** Holding a snapshot does not depend on the order of its entries. *)
Lemma holds_equal d' :
  ∀ d t, Dirs_equal d d' → wf_dirs d → wf_dirs d' → holds d t → holds d' t.
Proof.
  induction d' as [|l' IH] using Dirs_ind'; intros d t Heq Hwf Hwf' Hh.
  - by inversion Heq; subst.
  - inversion Heq as [|l ? Hlook]; subst.
    apply holds_DMap in Hh as (ents & -> & Hall).
    apply holds_DMap. exists ents. split; [done|].
    apply wf_dirs_DMap in Hwf as [Hnd Hwf].
    apply wf_dirs_DMap in Hwf' as [Hnd' Hwf'].
    apply Forall_forall. intros [k v'] Hin.
    pose proof (alookup_elem_NoDup k v' l' Hnd' Hin) as Hk'.
    specialize (Hlook k). rewrite Hk' in Hlook.
    inversion Hlook as [v ? Hvv' Hk|]; subst. symmetry in Hk.
    apply alookup_Some_elem in Hk as Hinl.
    pose proof (proj1 (Forall_forall _ _) Hall _ Hinl) as (c & Hc & Hhc).
    exists c. split; [done|]. simpl in *.
    pose proof (proj1 (Forall_forall _ _) IH _ Hin) as IHv.
    pose proof (proj1 (Forall_forall _ _) Hwf _ Hinl) as [_ Hwv].
    pose proof (proj1 (Forall_forall _ _) Hwf' _ Hin) as [_ Hwv'].
    by apply (IHv v).
Qed.

Lemma probe_snoc_dir d n t :
  match probe (d ++ [n]) t with Found _ | Absent => True | _ => False end →
  dir_at d t.
Proof.
  revert t. induction d as [|s d IH]; intros t; simpl.
  - destruct t as [|ents]; [done|]. intros _. by exists ents.
  - destruct t as [|ents]; [done|].
    destruct (alookup s ents) as [c|] eqn:Hc.
    + intros Hp. destruct (IH _ Hp) as [ents' Hg]. exists ents'.
      simpl. by rewrite Hc.
    + by destruct d.
Qed.

(** [Dirs.Write] succeeds on a snapshot with entries only in a
    directory. *)
Lemma Write_needs_dir n v l dir st st1 :
  path.valid_name n →
  dirsnap.Write (DMap ((n, v) :: l)) dir st = (st1, None) →
  dir_at (resolve dir) st.
Proof.
  intros Hn HW. apply (probe_snoc_dir _ n).
  rewrite <-resolve_Join_valid by done. destruct v as [|sub].
  - rewrite Write_cons_file in HW. cbv zeta in HW.
    unfold writeEmptyFile, WriteFile, writefile_at in HW.
    destruct (probe _ st) as [[]| | |]; try done.
  - rewrite Write_cons_dir in HW. cbv zeta in HW.
    unfold Mkdir, mkdir_at in HW.
    destruct (probe _ st) as [[]| | |]; try done.
Qed.

Lemma aset_app_fresh {A} k (v v' : A) l :
  alookup k l = None → aset k v (l ++ [(k, v')]) = l ++ [(k, v)].
Proof.
  induction l as [|[k0 v0] l IH]; simpl.
  - by rewrite decide_True.
  - destruct (decide (k = k0)); [done|]. intros Hl. by rewrite IH.
Qed.

(** Written into a directory without entries of the same names, a
    snapshot adds the tree it describes, entry by entry. *)
Lemma Write_fresh d :
  ∀ l, d = DMap l → wf_dirs d →
  ∀ dir st ents,
    get (resolve dir) st = Some (Dir ents) →
    (∀ k, k ∈ l.*1 → alookup k ents = None) →
    dirsnap.Write d dir st
    = (put (resolve dir) (Dir (ents ++ map tree_entry l)) st, None).
Proof.
  induction d as [|l0 IH] using Dirs_ind'; [done|].
  intros l [= <-] [Hnd Hwf]%wf_dirs_DMap dir.
  induction l0 as [|[n v] l IHl]; intros st ents Hg Hfresh.
  - simpl. by rewrite app_nil_r, (put_same _ st (Dir ents)).
  - apply Forall_cons in IH as [IHv IH].
    apply Forall_cons in Hwf as [[Hn Hv] Hwf].
    apply NoDup_cons in Hnd as [Hnl Hnd]. simpl in Hn, Hv, Hnl, IHv.
    specialize (IHl IH Hnd Hwf).
    assert (resolve (path.Join dir n) = resolve dir ++ [n]) as Hr
      by (by apply resolve_Join_valid).
    assert (alookup n ents = None) as Hn0 by (apply Hfresh; left).
    assert (∀ c k, k ∈ l.*1 → alookup k (ents ++ [(n, c)]) = None) as Hfresh'.
    { intros c k Hk. rewrite alookup_app_fresh by done.
      rewrite decide_False by (by intros ->). apply Hfresh. by right. }
    change (map tree_entry ((n, v) :: l))
      with ((n, tree_of v) :: map tree_entry l).
    rewrite (cons_middle _ ents), app_assoc.
    destruct v as [|sub].
    + rewrite Write_cons_file. cbv zeta.
      rewrite (writeEmptyFile_child _ _ n st ents Hr Hg), Hn0. simpl.
      rewrite aset_fresh by done.
      rewrite (IHl _ (ents ++ [(n, File [])]));
        [|by eapply get_put|by apply Hfresh'].
      by rewrite (put_put _ _ _ st (Dir ents)).
    + rewrite Write_cons_dir. cbv zeta.
      rewrite (Mkdir_child _ _ n st ents Hr Hg), Hn0.
      cbn [isWriteErrOk IsExist negb bool_decide decide_rel]. simpl negb.
      cbv iota. rewrite aset_fresh by done.
      set (st0 := put (resolve dir) (Dir (ents ++ [(n, Dir [])])) st).
      assert (get (resolve dir) st0 = Some (Dir (ents ++ [(n, Dir [])])))
        as Hg0 by (by eapply get_put).
      rewrite (IHv sub eq_refl Hv (path.Join dir n) st0 []); [| |done].
      2:{ rewrite Hr, (get_child _ n st0 _ Hg0).
          by rewrite alookup_app_fresh, decide_True. }
      rewrite Hr, (put_child_app _ n _ st0 _ Hg0).
      rewrite aset_app_fresh by done. unfold st0.
      rewrite (put_put _ _ _ st (Dir ents)) by done.
      rewrite (IHl _ (ents ++ [(n, Dir (map tree_entry sub))]));
        [|by eapply get_put|by apply Hfresh'].
      rewrite (put_put _ _ _ st (Dir ents)) by done.
      by rewrite tree_of_DMap.
Qed.

Lemma alookup_tree_entry k l :
  alookup k (map tree_entry l) = tree_of <$> alookup k l.
Proof.
  induction l as [|[k' v] l IH]; simpl; [done|].
  by destruct (decide (k = k')).
Qed.

Lemma Dirs_depth_elem k v l : (k, v) ∈ l → Dirs_depth v ≤ deepest l.
Proof.
  induction l as [|[k' v'] l IH]; [by intros ?%elem_of_nil|].
  intros [[= <- <-]|Hin]%elem_of_cons; simpl; [lia|].
  specialize (IH Hin). lia.
Qed.

Lemma int_dec_neg n h :
  (n < 0)%Z → (int_min ≤ n - Z.of_nat (S h))%Z →
  (int_dec n < 0)%Z ∧ (int_min ≤ int_dec n - Z.of_nat h)%Z ∧ (n =? 0)%Z = false.
Proof.
  intros Hn Hh. unfold int_dec.
  destruct (Z.eqb_spec n int_min); [lia|].
  destruct (Z.eqb_spec n 0); lia.
Qed.

(** An unlimited scan of the tree a snapshot describes gives the snapshot
    back, given fuel for its depth. *)
Lemma ReadFS_tree_of d :
  ∀ l, d = DMap l → wf_dirs d →
  ∀ fuel st dir n,
    get (resolve dir) st = Some (tree_of d) →
    Dirs_depth d ≤ fuel →
    (n < 0)%Z → (int_min ≤ n - Z.of_nat (Dirs_depth d))%Z →
    dirsnap.ReadFS fuel (osfs st) dir n = Some (d, None).
Proof.
  induction d as [|l0 IH] using Dirs_ind'; [done|].
  intros l [= <-] [Hnd Hwf]%wf_dirs_DMap fuel st dir n Hg Hfuel Hn Hmin.
  rewrite Dirs_depth_DMap in Hfuel, Hmin.
  destruct fuel as [|fuel]; [lia|]. rewrite tree_of_DMap in Hg.
  simpl. rewrite (proj2 (probe_Found _ _ _) Hg). simpl.
  fold (listing l0).
  (* the loop, after the entries [done] *)
  assert (∀ l done, l0 = done ++ l →
            ReadFS_loop (dirsnap.ReadFS fuel (osfs st)) dir n (listing l) done
            = Some (DMap (done ++ l), None)) as Hloop.
  2:{ by apply (Hloop l0 []). }
  intros l. induction l as [|[k v] l IHl]; intros done Heq.
  { simpl. by rewrite app_nil_r. }
  assert ((k, v) ∈ l0) as Hin.
  { rewrite Heq. apply elem_of_app. right. left. }
  assert (alookup k done = None) as Hfresh.
  { apply alookup_None_keys. rewrite Heq, fmap_app in Hnd.
    apply NoDup_app in Hnd as (_ & Hdis & _). intros Hk.
    apply (Hdis _ Hk). left. }
  pose proof (proj1 (Forall_forall _ _) Hwf _ Hin) as [Hk Hv].
  pose proof (proj1 (Forall_forall _ _) IH _ Hin) as IHv.
  simpl in Hk, Hv, IHv.
  specialize (IHl (done ++ [(k, v)])).
  rewrite <-app_assoc in IHl. specialize (IHl Heq).
  change (listing ((k, v) :: l))
    with ({| Name := k; IsDir := is_dir (tree_of v) |} :: listing l).
  cbn [ReadFS_loop Name IsDir]. destruct v as [|sub].
  - simpl. by rewrite aset_fresh.
  - cbn [tree_of is_dir negb].
    destruct (int_dec_neg n (deepest l0) Hn Hmin) as (Hn' & Hmin' & ->).
    pose proof (Dirs_depth_elem _ _ _ Hin) as Hdepth.
    rewrite (IHv sub eq_refl Hv fuel st (path.Join dir k) (int_dec n));
      [|..|lia|done|lia].
    + by rewrite aset_fresh.
    + rewrite resolve_Join_valid, (get_child _ k st _ Hg) by done.
      rewrite alookup_tree_entry.
      by rewrite (alookup_elem_NoDup k (DMap sub) l0).
Qed.
End dirs_facts.

(** ** Flat snapshots on resolved paths *)

Section files_facts.
Import filesnap.
Implicit Types (L : list (list string * list Byte.byte)).

Lemma join_split s : path.join_slash (path.split s) = s.
Proof.
  induction s as [|c s IH]; [done|]. simpl.
  pose proof (split_not_nil s) as Hne.
  destruct (path.is_slash c) eqn:Hc.
  - unfold path.is_slash in Hc. apply bool_decide_eq_true in Hc as ->.
    destruct (path.split s) as [|h t]; [done|].
    change (path.join_slash ("" :: h :: t))
      with ("" +:+ "/" +:+ path.join_slash (h :: t)).
    by rewrite IH.
  - destruct (path.split s) as [|h t]; [done|].
    destruct t as [|h' t]; simpl in *; by rewrite <-IH.
Qed.

Lemma split_inj : Inj (=) (=) path.split.
Proof. intros a b Heq. by rewrite <-(join_split a), <-(join_split b), Heq. Qed.

Lemma clean_key_normal k : clean_key k → Forall normal (path.split k).
Proof. intros Hk. eapply Forall_impl; [done|]. apply valid_name_normal. Qed.

Lemma resolve_Join_clean dir k :
  clean_key k → resolve (path.Join dir k) = resolve dir ++ path.split k.
Proof.
  intros Hk. rewrite resolve_Join. by apply walk_normal, clean_key_normal.
Qed.

Lemma Files_Write_at f dir st :
  Forall (λ kv, clean_key kv.1) f →
  filesnap.Write_loop f dir st = write_files_at (map (file_at dir) f) st.
Proof.
  intros Hf. revert st. induction Hf as [|[k data] f Hk Hf IH]; intros st; [done|].
  simpl in Hk. simpl. unfold write_file_at, MkdirAll, WriteFile. simpl.
  rewrite resolve_Dir_Join, resolve_Join_clean by done.
  destruct (mkdirall_at _ st) as [st1 [e|]]; [done|].
  destruct (writefile_at _ _ st1) as [st2 [e|]]; [done|]. apply IH.
Qed.

Lemma write_file_at_file e q x t t' :
  write_file_at e t = (t', None) → q ≠ e.1 →
  get q t = Some (File x) → get q t' = Some (File x).
Proof.
  unfold write_file_at. destruct (mkdirall_at _ t) as [t1 [e'|]] eqn:Hm; [done|].
  intros Hw Hne Hg. eapply writefile_at_file; [done..|].
  by eapply mkdirall_at_file.
Qed.

Lemma write_files_at_file L q x t t' :
  write_files_at L t = (t', None) → q ∉ L.*1 →
  get q t = Some (File x) → get q t' = Some (File x).
Proof.
  revert t. induction L as [|e L IH]; intros t; simpl.
  - by intros [= <-].
  - destruct (write_file_at e t) as [t1 [e'|]] eqn:Hw; [done|].
    intros HW [Hne Hq]%not_elem_of_cons Hg.
    apply (IH _ HW Hq). by eapply write_file_at_file.
Qed.

(** After a successful write every entry is on the disk with its bytes. *)
Lemma write_files_at_get L t t' :
  write_files_at L t = (t', None) → NoDup (L.*1) →
  Forall (λ e, get e.1 t' = Some (File e.2)) L.
Proof.
  revert t. induction L as [|e L IH]; intros t; simpl; [by constructor|].
  destruct (write_file_at e t) as [t1 [e'|]] eqn:Hw; [done|].
  intros HW [Hfresh Hnd]%NoDup_cons. constructor; [|by eapply IH].
  eapply write_files_at_file; [done..|].
  unfold write_file_at in Hw.
  destruct (mkdirall_at _ t) as [t0 [e'|]]; [done|].
  by eapply writefile_at_get.
Qed.

(** Writing entries that are on the disk with their bytes changes
    nothing. *)
Lemma write_files_at_same L t :
  Forall (λ e, e.1 ≠ [] ∧ get e.1 t = Some (File e.2)) L →
  write_files_at L t = (t, None).
Proof.
  induction 1 as [|e L [Hne Hg] _ IH]; simpl; [done|].
  unfold write_file_at.
  destruct (get_removelast _ _ _ Hg Hne) as [ents Hp].
  rewrite (mkdirall_at_exists _ _ _ Hp).
  by rewrite writefile_at_same.
Qed.

Lemma file_at_keys_NoDup f dir :
  NoDup (f.*1) → NoDup ((map (file_at dir) f).*1).
Proof.
  intros Hnd.
  replace ((map (file_at dir) f).*1)
    with ((λ k, resolve dir ++ path.split k) <$> f.*1).
  - apply NoDup_fmap_2; [|done]. intros a b Heq.
    by apply app_inv_head, split_inj in Heq.
  - rewrite <-!list_fmap_compose. done.
Qed.
End files_facts.

(** ** The tree a flat snapshot leaves behind *)

Section files_tree_facts.
Import filesnap.
Implicit Types (L : list (list string * list Byte.byte)).

Lemma node_ind' (P : node → Prop) :
  (∀ x, P (File x)) →
  (∀ ents, Forall (λ kv, P kv.2) ents → P (Dir ents)) →
  ∀ t, P t.
Proof.
  intros Hfile Hdir. fix IH 1. intros [x|ents]; [apply Hfile|].
  apply Hdir. induction ents as [|[k c] ents IHl]; constructor;
    [apply IH|exact IHl].
Qed.

Lemma height_Dir ents : height (Dir ents) = S (highest ents).
Proof.
  simpl. f_equal. induction ents as [|[k c] l IH]; [done|]. simpl. by rewrite IH.
Qed.

Lemma files_of_Dir pre ents :
  files_of pre (Dir ents)
  = foldr (λ kv r, files_of (pre ++ [kv.1]) kv.2 ++ r) [] ents.
Proof.
  simpl. induction ents as [|[k c] l IH]; [done|]. simpl. by rewrite IH.
Qed.

Lemma wf_node_Dir ents :
  wf_node (Dir ents) ↔
  NoDup (ents.*1) ∧ Forall (λ kv, path.valid_name kv.1 ∧ wf_node kv.2) ents.
Proof. split; [by inversion 1|]. intros [??]. by constructor. Qed.

Lemma Forall_aset {A} (P : string * A → Prop) k v l :
  Forall P l → P (k, v) → Forall P (aset k v l).
Proof.
  intros Hl Hv. induction Hl as [|[k' v'] l Hx Hl IH]; simpl.
  - by constructor.
  - destruct (decide (k = k')); by constructor.
Qed.

Lemma wf_node_aset k c ents :
  wf_node (Dir ents) → path.valid_name k → wf_node c →
  wf_node (Dir (aset k c ents)).
Proof.
  intros [Hnd Hall]%wf_node_Dir Hk Hc. apply wf_node_Dir. split.
  - by apply aset_keys_NoDup.
  - by apply Forall_aset.
Qed.

Lemma wf_node_child k c ents :
  wf_node (Dir ents) → alookup k ents = Some c → wf_node c.
Proof.
  intros [_ Hall]%wf_node_Dir Hc%alookup_Some_elem.
  by apply (proj1 (Forall_forall _ _) Hall) in Hc as [_ ?].
Qed.

Lemma mkdirall_at_wf p t t' err :
  Forall path.valid_name p → wf_node t →
  mkdirall_at p t = (t', err) → wf_node t'.
Proof.
  intros Hp. revert t t' err.
  induction Hp as [|s p Hs Hp IH]; intros t t' err Hwf; simpl.
  - destruct t; by intros [= <- _].
  - destruct t as [|ents]; [by intros [= <- _]|].
    destruct (mkdirall_at p _) as [c' [e|]] eqn:Hm; intros [= <- _]; [done|].
    apply wf_node_aset; [done..|]. refine (IH _ _ _ _ Hm).
    destruct (alookup s ents) as [c|] eqn:Hc; simpl.
    + by eapply wf_node_child.
    + apply wf_node_Dir. split; constructor.
Qed.

Lemma put_file_wf p x t :
  Forall path.valid_name p → wf_node t → wf_node (put p (File x) t).
Proof.
  intros Hp. revert t. induction Hp as [|s p Hs Hp IH]; intros t Hwf; simpl.
  - constructor.
  - destruct t as [|ents]; [done|].
    destruct (alookup s ents) as [c|] eqn:Hc.
    + apply wf_node_aset; [done..|]. apply IH. by eapply wf_node_child.
    + destruct p; [|done]. apply wf_node_aset; [done..|]. constructor.
Qed.

Lemma writefile_at_wf p x t t' err :
  Forall path.valid_name p → wf_node t →
  writefile_at p x t = (t', err) → wf_node t'.
Proof.
  intros Hp Hwf. unfold writefile_at.
  destruct (probe p t) as [[]| | |]; intros [= <- _]; try done;
    by apply put_file_wf.
Qed.

Lemma write_files_at_wf L t t' err :
  Forall (λ e, Forall path.valid_name e.1) L → wf_node t →
  write_files_at L t = (t', err) → wf_node t'.
Proof.
  intros HL. revert t. induction HL as [|e L He HL IH]; intros t Hwf; simpl.
  - by intros [= <- _].
  - unfold write_file_at.
    destruct (mkdirall_at _ t) as [t0 [e0|]] eqn:Hm.
    { intros [= <- _]. eapply mkdirall_at_wf; [|done..].
      by apply Forall_removelast. }
    assert (wf_node t0) as Hwf0.
    { eapply mkdirall_at_wf; [|done..]. by apply Forall_removelast. }
    destruct (writefile_at _ _ t0) as [t1 [e1|]] eqn:Hw.
    { intros [= <- _]. by eapply writefile_at_wf. }
    apply IH. by eapply writefile_at_wf.
Qed.

(** Writing below [d] is writing into the subtree at [d]. *)
Lemma write_files_at_app d L st T :
  get d st = Some T → Forall (λ e, e.1 ≠ []) L →
  write_files_at (map (λ e, (d ++ e.1, e.2)) L) st
  = let '(T', err) := write_files_at L T in (put d T' st, err).
Proof.
  intros Hg HL. revert st T Hg.
  induction HL as [|[ks x] L Hne HL IH]; intros st T Hg; simpl.
  - by rewrite put_same.
  - simpl in Hne. unfold write_file_at. simpl.
    rewrite removelast_app by done.
    rewrite (mkdirall_at_app d _ st T) by done.
    destruct (mkdirall_at (removelast ks) T) as [T0 [e0|]] eqn:Hm; [done|].
    rewrite (writefile_at_app d ks x _ T0) by (by eapply get_put).
    destruct (writefile_at ks x T0) as [T1 [e1|]] eqn:Hw;
      rewrite (put_put _ _ _ st T) by done; [done|].
    rewrite (IH _ T1) by (by eapply get_put).
    destruct (write_files_at L T1) as [T' err].
    by rewrite (put_put _ _ _ st T).
Qed.

(** No plain file appears but the ones written. *)
Lemma mkdirall_at_file_inv p q t t' err x :
  mkdirall_at p t = (t', err) →
  get q t' = Some (File x) → get q t = Some (File x).
Proof.
  revert t t' q err. induction p as [|s p IH]; intros t t' q err; simpl.
  - destruct t; by intros [= <- _].
  - destruct t as [|ents]; [by intros [= <- _]|].
    destruct (mkdirall_at p _) as [c' [e|]] eqn:Hm; intros [= <- _]; [done|].
    destruct q as [|s' q]; [done|]. cbn [get]. rewrite alookup_aset.
    destruct (decide (s' = s)) as [->|Hne]; [|done]. simpl.
    intros Hg. apply (IH _ _ q _ Hm) in Hg.
    destruct (alookup s ents) as [c|]; simpl in *; [done|].
    by destruct q.
Qed.

Lemma put_file_inv p q y x t :
  get q (put p (File y) t) = Some (File x) →
  (q = p ∧ x = y) ∨ get q t = Some (File x).
Proof.
  revert t q. induction p as [|s p IH]; intros t q; simpl.
  - destruct q; [|done]. intros [= ->]. by left.
  - destruct t as [|ents]; [by right|].
    destruct (alookup s ents) as [c|] eqn:Hc.
    + destruct q as [|s' q]; [done|]. cbn [get]. rewrite alookup_aset.
      destruct (decide (s' = s)) as [->|Hne]; [|by right].
      rewrite Hc. simpl. intros [[-> ->]|Hg]%IH; [by left|by right].
    + destruct p; [|by right].
      destruct q as [|s' q]; [done|]. cbn [get]. rewrite alookup_aset.
      destruct (decide (s' = s)) as [->|Hne]; [|by right].
      simpl. destruct q; [|done]. intros [= ->]. by left.
Qed.

Lemma write_files_at_file_inv L q x t t' err :
  write_files_at L t = (t', err) →
  get q t' = Some (File x) → (q, x) ∈ L ∨ get q t = Some (File x).
Proof.
  revert t. induction L as [|[ks y] L IH]; intros t; simpl.
  - intros [= <- _]. by right.
  - unfold write_file_at. simpl.
    destruct (mkdirall_at _ t) as [t0 [e0|]] eqn:Hm.
    { intros [= <- _] Hg. right. by eapply mkdirall_at_file_inv. }
    assert (∀ t1 e1, writefile_at ks y t0 = (t1, e1) →
              get q t1 = Some (File x) →
              (q, x) = (ks, y) ∨ get q t = Some (File x)) as Hstep.
    { intros t1 e1 Hw Hg. unfold writefile_at in Hw.
      assert (get q t0 = Some (File x) → get q t = Some (File x)) as Hback
        by (by eapply mkdirall_at_file_inv).
      destruct (probe ks t0) as [[]| | |]; simplify_eq; auto;
        apply put_file_inv in Hg as [[-> ->]|Hg]; auto. }
    destruct (writefile_at ks y t0) as [t1 [e1|]] eqn:Hw.
    { intros [= <- _] Hg. destruct (Hstep _ _ eq_refl Hg) as [->|?]; [left; left|by right]. }
    intros HW Hg. destruct (IH _ HW Hg) as [Hin|Hg1]; [left; by right|].
    destruct (Hstep _ _ eq_refl Hg1) as [->|?]; [left; left|by right].
Qed.

(** The height of the tree is bounded by the length of the paths
    written. *)
Lemma height_child k c ents :
  alookup k ents = Some c → height c ≤ highest ents.
Proof.
  induction ents as [|[k' c'] l IH]; simpl; [done|].
  destruct (decide (k = k')); [intros [= ->]; lia|].
  intros Hl. specialize (IH Hl). lia.
Qed.

Lemma highest_aset k c ents :
  highest (aset k c ents) ≤ Nat.max (height c) (highest ents).
Proof.
  induction ents as [|[k' c'] l IH]; simpl; [lia|].
  destruct (decide (k = k')); simpl; lia.
Qed.

Lemma mkdirall_at_height p t t' err :
  mkdirall_at p t = (t', err) → height t' ≤ Nat.max (height t) (S (length p)).
Proof.
  revert t t' err. induction p as [|s p IH]; intros t t' err.
  - simpl. destruct t; intros [= <- _]; lia.
  - cbn [mkdirall_at]. destruct t as [|ents]; [intros [= <- _]; lia|].
    destruct (mkdirall_at p _) as [c' [e|]] eqn:Hm; intros [= <- _]; [lia|].
    apply IH in Hm. rewrite !height_Dir.
    pose proof (highest_aset s c' ents) as Ha.
    assert (height (default (Dir []) (alookup s ents))
            ≤ Nat.max (highest ents) 1) as Hc.
    { destruct (alookup s ents) as [c|] eqn:Hc; simpl; [|lia].
      apply height_child in Hc. lia. }
    simpl length. lia.
Qed.

Lemma put_file_height p x t : height (put p (File x) t) ≤ height t.
Proof.
  revert t. induction p as [|s p IH]; intros t; [simpl; lia|].
  cbn [put]. destruct t as [|ents]; [lia|].
  destruct (alookup s ents) as [c|] eqn:Hc.
  - rewrite !height_Dir. pose proof (highest_aset s (put p (File x) c) ents).
    specialize (IH c). apply height_child in Hc. lia.
  - destruct p; [|lia]. rewrite !height_Dir.
    pose proof (highest_aset s (File x) ents). simpl in *. lia.
Qed.

Lemma write_files_at_height L h t t' err :
  Forall (λ e, e.1 ≠ [] ∧ length e.1 ≤ h) L →
  write_files_at L t = (t', err) → height t' ≤ Nat.max (height t) h.
Proof.
  intros HL. revert t. induction HL as [|[ks x] L [Hne Hlen] HL IH]; intros t.
  - simpl. intros [= <- _]. lia.
  - simpl in Hne, Hlen. simpl. unfold write_file_at. simpl.
    assert (S (length (removelast ks)) = length ks) as Hrl.
    { destruct (exists_last Hne) as (ks' & s & ->).
      rewrite removelast_last, length_app. simpl. lia. }
    destruct (mkdirall_at _ t) as [t0 [e0|]] eqn:Hm.
    all: apply mkdirall_at_height in Hm.
    { intros [= <- _]. lia. }
    assert (∀ t1 e1, writefile_at ks x t0 = (t1, e1) →
              height t1 ≤ height t0) as Hstep.
    { intros t1 e1 Hw. unfold writefile_at in Hw.
      pose proof (put_file_height ks x t0).
      destruct (probe ks t0) as [[]| | |]; by simplify_eq. }
    destruct (writefile_at ks x t0) as [t1 [e1|]] eqn:Hw.
    { intros [= <- _]. specialize (Hstep _ _ eq_refl). lia. }
    intros HW. apply IH in HW. specialize (Hstep _ _ eq_refl). lia.
Qed.

(** *** Scanning the tree *)

Lemma resolve_Join_names rootDir pre :
  Forall path.valid_name pre →
  resolve (path.Join rootDir (path.join_slash pre)) = resolve rootDir ++ pre.
Proof.
  intros Hpre. rewrite resolve_Join. destruct (decide (pre = [])) as [->|Hne].
  - simpl. by rewrite walk_cons_skip, walk_nil, app_nil_r by (by left).
  - rewrite split_join; [|done|].
    + apply walk_normal. eapply Forall_impl; [done|]. apply valid_name_normal.
    + eapply Forall_impl; [done|]. apply valid_name_nosl.
Qed.

(** An unlimited flat scan records the plain files of the tree in the
    order of [files_of], given fuel for the height of the tree. *)
Lemma readFS_files_of T :
  wf_node T → ∀ ents, T = Dir ents →
  ∀ fuel st rootDir pre n f,
    Forall path.valid_name pre →
    get (resolve rootDir ++ pre) st = Some T →
    height T ≤ fuel → (n < 0)%Z → (int_min ≤ n - Z.of_nat (height T))%Z →
    readFS fuel (osfs st) rootDir (path.join_slash pre) n f
    = Some (fold_left record (files_of pre T) f, None).
Proof.
  induction T as [x|ents0 IH] using node_ind'; [done|].
  intros [Hnd Hwf]%wf_node_Dir ents [= <-] fuel st rootDir pre n f
    Hpre Hg Hfuel Hn Hmin.
  rewrite height_Dir in Hfuel, Hmin. destruct fuel as [|fuel]; [lia|].
  cbn [readFS]. cbn [osfs ReadDir].
  rewrite resolve_Join_names by done.
  rewrite (proj2 (probe_Found _ _ _) Hg). cbn [failed].
  rewrite files_of_Dir. fold entry_of.
  assert (∀ l seen f, ents0 = seen ++ l →
            readFS_loop (readFS fuel (osfs st) rootDir) (osfs st)
              (path.Join rootDir (path.join_slash pre))
              (path.join_slash pre) n (map entry_of l) f
            = Some (fold_left record
                      (foldr (λ kv r, files_of (pre ++ [kv.1]) kv.2 ++ r) [] l)
                      f, None)) as Hloop.
  2:{ by apply (Hloop ents0 []). }
  clear f. intros l. induction l as [|[k c] l IHl]; intros seen f Heq; [done|].
  assert ((k, c) ∈ ents0) as Hin.
  { rewrite Heq. apply elem_of_app. right. left. }
  pose proof (proj1 (Forall_forall _ _) Hwf _ Hin) as [Hk Hc].
  pose proof (proj1 (Forall_forall _ _) IH _ Hin) as IHc.
  simpl in Hk, Hc, IHc.
  specialize (IHl (seen ++ [(k, c)])).
  rewrite <-app_assoc in IHl.
  assert (get (resolve rootDir ++ pre ++ [k]) st = Some c) as Hgc.
  { rewrite app_assoc, (get_child _ k st _ Hg).
    by apply alookup_elem_NoDup. }
  assert (Forall path.valid_name (pre ++ [k])) as Hpre'
    by (apply Forall_app; split; [done|by apply Forall_singleton]).
  cbn [map foldr readFS_loop entry_of Name IsDir fst snd].
  rewrite Join_names by done. rewrite fold_left_app.
  destruct c as [x|cents].
  - cbn [is_dir negb osfs ReadFile].
    rewrite resolve_Join_valid, resolve_Join_names by done.
    rewrite <-app_assoc, (proj2 (probe_Found _ _ _) Hgc). cbn [failed].
    simpl files_of. cbn [fold_left]. by apply IHl.
  - cbn [is_dir negb].
    pose proof (height_child k _ ents0 (alookup_elem_NoDup _ _ _ Hnd Hin)) as Hh.
    destruct (int_dec_neg n (highest ents0) Hn Hmin) as (Hn' & Hmin' & ->).
    cbn [negb].
    rewrite (IHc Hc cents eq_refl fuel st rootDir (pre ++ [k]) (int_dec n) f);
      [by apply IHl|done|done|lia|done|lia].
Qed.

(** What [files_of] lists. *)
Lemma files_of_elem T :
  wf_node T → ∀ pre k v,
  (k, v) ∈ files_of pre T →
  ∃ q x, get q T = Some (File x) ∧ Forall path.valid_name q ∧
         k = path.join_slash (pre ++ q) ∧ v = Some x.
Proof.
  induction T as [x|ents IH] using node_ind'; intros Hwf pre k v.
  - simpl. intros [= -> ->]%list_elem_of_singleton.
    exists [], x. by rewrite app_nil_r.
  - apply wf_node_Dir in Hwf as [Hnd Hwf]. rewrite files_of_Dir.
    assert (∀ l, l ⊆ ents →
              (k, v) ∈ foldr (λ kv r, files_of (pre ++ [kv.1]) kv.2 ++ r) [] l →
              ∃ q x, get q (Dir ents) = Some (File x) ∧
                     Forall path.valid_name q ∧
                     k = path.join_slash (pre ++ q) ∧ v = Some x) as Hl.
    2:{ by apply Hl. }
    intros l. induction l as [|[s c] l IHl]; intros Hsub; simpl.
    { by intros ?%elem_of_nil. }
    assert ((s, c) ∈ ents) as Hin by (apply Hsub; left).
    intros [Hhere|Hrest]%elem_of_app.
    + pose proof (proj1 (Forall_forall _ _) Hwf _ Hin) as [Hs Hc].
      pose proof (proj1 (Forall_forall _ _) IH _ Hin) as IHc. simpl in *.
      destruct (IHc Hc _ _ _ Hhere) as (q & x & Hg & Hq & -> & ->).
      exists (s :: q), x. simpl.
      rewrite (alookup_elem_NoDup s c ents) by done. simpl.
      split; [done|]. split; [by constructor|].
      by rewrite <-app_assoc.
    + apply IHl; [|done]. intros y Hy. apply Hsub. by right.
Qed.

Lemma elem_files_of T :
  ∀ pre q x, get q T = Some (File x) →
  (path.join_slash (pre ++ q), Some x) ∈ files_of pre T.
Proof.
  induction T as [y|ents IH] using node_ind'; intros pre q x.
  - destruct q; [|done]. intros [= ->]. rewrite app_nil_r. simpl. left.
  - destruct q as [|s q]; [done|]. rewrite files_of_Dir. cbn [get].
    destruct (alookup s ents) as [c|] eqn:Hc; [|done]. simpl. intros Hg.
    clear -IH Hc Hg.
    induction ents as [|[s' c'] l IHl]; [done|].
    apply Forall_cons in IH as [IHc IH]. simpl in *.
    apply elem_of_app. destruct (decide (s = s')) as [->|Hne].
    + injection Hc as ->. left.
      rewrite (cons_middle s' pre q), app_assoc. by apply IHc.
    + right. by apply IHl.
Qed.

Lemma alookup_unique {A} k (v : A) l :
  (k, v) ∈ l → (∀ v', (k, v') ∈ l → v' = v) → alookup k l = Some v.
Proof.
  intros Hin Huniq. destruct (alookup k l) as [v'|] eqn:Hl.
  - f_equal. by apply Huniq, alookup_Some_elem.
  - apply alookup_None_keys in Hl. destruct Hl.
    apply list_elem_of_fmap. by exists (k, v).
Qed.

Lemma alookup_written k f :
  alookup k (written f) = (λ b, Some (content b)) <$> alookup k f.
Proof.
  induction f as [|[k' b] f IH]; simpl; [done|].
  by destruct (decide (k = k')).
Qed.

Lemma file_below_keys_NoDup f :
  NoDup (f.*1) → NoDup ((map file_below f).*1).
Proof.
  intros Hnd.
  replace ((map file_below f).*1) with (path.split <$> f.*1).
  - apply NoDup_fmap_2; [apply split_inj|done].
  - rewrite <-!list_fmap_compose. done.
Qed.

(** The files on the disk after writing a flat snapshot into an empty
    directory are the entries of the snapshot. *)
Lemma written_files f T1 :
  wf_files f →
  write_files_at (map file_below f) (Dir []) = (T1, None) →
  ∀ k, alookup k (rev (files_of [] T1)) = alookup k (written f).
Proof.
  intros [Hnd Hclean] HW k.
  assert (wf_node T1) as Hwf.
  { eapply write_files_at_wf; [|apply (wf_Dir []); constructor|done].
    apply Forall_map. eapply Forall_impl; [done|]. by intros [??]. }
  pose proof (write_files_at_get _ _ _ HW (file_below_keys_NoDup f Hnd)) as Hget.
  assert (∀ q x, get q T1 = Some (File x) → (q, x) ∈ map file_below f) as Hinv.
  { intros q x Hg.
    destruct (write_files_at_file_inv _ _ _ _ _ _ HW Hg) as [?|Hg0]; [done|].
    by destruct q. }
  assert (∀ v, (k, v) ∈ files_of [] T1 →
            ∃ b, (k, b) ∈ f ∧ v = Some (content b)) as Hfrom.
  { intros v (q & x & Hg & Hq & -> & ->)%files_of_elem; [|done].
    apply Hinv, list_elem_of_fmap in Hg as ([k' b] & [= -> ->] & Hin).
    exists b. simpl. by rewrite join_split. }
  rewrite alookup_written. destruct (alookup k f) as [b|] eqn:Hk; simpl.
  - apply alookup_Some_elem in Hk as Hin. apply alookup_unique.
    + apply list_elem_of_In, in_rev. rewrite rev_involutive.
      apply list_elem_of_In.
      rewrite <-(join_split k) at 1. apply (elem_files_of T1 []).
      apply (proj1 (Forall_forall _ _) Hget (file_below (k, b))).
      apply list_elem_of_fmap. by exists (k, b).
    + intros v' Hv'. apply list_elem_of_In, in_rev, list_elem_of_In in Hv'.
      destruct (Hfrom _ Hv') as (b' & Hin' & ->).
      by rewrite (alookup_elem_NoDup _ _ _ Hnd Hin') in Hk; simplify_eq.
  - destruct (alookup k (rev (files_of [] T1))) as [v|] eqn:Hr; [|done].
    apply alookup_Some_elem, list_elem_of_In, in_rev, list_elem_of_In in Hr.
    destruct (Hfrom _ Hr) as (b' & Hin' & ->).
    by rewrite (alookup_elem_NoDup _ _ _ Hnd Hin') in Hk.
Qed.

Lemma alookup_fold_record k l f :
  alookup k (fold_left record l f)
  = from_option Some (alookup k f) (alookup k (rev l)).
Proof. apply (alookup_fold_aset k l f). Qed.

Lemma write_files_at_is_dir L t t' err :
  is_dir t = true → write_files_at L t = (t', err) → is_dir t' = true.
Proof.
  revert t. induction L as [|[ks y] L IH]; intros t Hd; simpl.
  - by intros [= <- _].
  - unfold write_file_at. simpl.
    destruct (mkdirall_at _ t) as [t0 e0] eqn:Hm.
    assert (is_dir t0 = true) as Hd0.
    { destruct t as [|ents]; [done|].
      destruct (mkdirall_at_dir_at _ [] _ _ _ Hm) as [? [= ->]]; [|done].
      by exists ents. }
    destruct e0; [by intros [= <- _]|].
    destruct (writefile_at ks y t0) as [t1 e1] eqn:Hw.
    assert (is_dir t1 = true) as Hd1.
    { destruct t0 as [|ents]; [done|].
      destruct (writefile_at_dir_at _ [] _ _ _ _ Hw) as [? [= ->]]; [|done].
      by exists ents. }
    destruct e1; [by intros [= <- _]|]. by apply IH.
Qed.

(** *** When a flat write succeeds *)

Lemma mkdirall_at_ok p t :
  is_dir t = true →
  (∀ q x, q `prefix_of` p → get q t ≠ Some (File x)) →
  ∃ t', mkdirall_at p t = (t', None).
Proof.
  revert t. induction p as [|s p IH]; intros t Hd Hfree.
  - destruct t; [done|]. by eexists.
  - destruct t as [|ents]; [done|]. cbn [mkdirall_at].
    destruct (IH (default (Dir []) (alookup s ents))) as [c' ->]; [| |by eexists].
    + destruct (alookup s ents) as [[x|]|] eqn:Hc; simpl; try done.
      destruct (Hfree [s] x); [by apply prefix_cons, prefix_nil|].
      simpl. by rewrite Hc.
    + intros q x Hq Hg. apply (Hfree (s :: q) x); [by apply prefix_cons|].
      simpl. destruct (alookup s ents) as [c|]; simpl in *; [done|].
      by destruct q.
Qed.

Lemma mkdirall_at_dir_inv p q t t' err :
  mkdirall_at p t = (t', err) → dir_at q t' → dir_at q t ∨ q `prefix_of` p.
Proof.
  revert t t' q err. induction p as [|s p IH]; intros t t' q err.
  - simpl. destruct t; intros [= <- _]; by left.
  - cbn [mkdirall_at]. destruct t as [|ents]; [intros [= <- _]; by left|].
    destruct (mkdirall_at p _) as [c' [e|]] eqn:Hm; intros [= <- _]; [by left|].
    destruct q as [|s' q]; [intros _; left; by eexists|].
    unfold dir_at. cbn [get]. rewrite alookup_aset.
    destruct (decide (s' = s)) as [->|Hne]; [|by left]. simpl.
    intros Hd. destruct (IH _ _ q _ Hm Hd) as [[ents' Hg]|Hpre].
    + destruct (alookup s ents) as [c|]; simpl in *; [left; by eexists|].
      destruct q; [|done]. right. apply prefix_cons, prefix_nil.
    + right. by apply prefix_cons.
Qed.

Lemma put_file_dir_inv p q y t :
  dir_at q (put p (File y) t) → dir_at q t.
Proof.
  revert t q. induction p as [|s p IH]; intros t q.
  - simpl. intros [ents Hg]. by destruct q.
  - cbn [put]. destruct t as [|ents]; [done|].
    destruct (alookup s ents) as [c|] eqn:Hc.
    + destruct q as [|s' q]; [intros _; by eexists|].
      unfold dir_at. cbn [get]. rewrite alookup_aset.
      destruct (decide (s' = s)) as [->|Hne]; [|done].
      rewrite Hc. simpl. apply IH.
    + destruct p; [|done]. destruct q as [|s' q]; [intros _; by eexists|].
      unfold dir_at. cbn [get]. rewrite alookup_aset.
      destruct (decide (s' = s)) as [->|Hne]; [|done].
      simpl. intros [ents' Hg]. by destruct q.
Qed.

Lemma prefix_removelast {A} (q ks : list A) :
  ks ≠ [] → q `prefix_of` removelast ks → q `prefix_of` ks ∧ q ≠ ks.
Proof.
  intros Hne Hq. destruct (exists_last Hne) as (ks' & s & ->).
  rewrite removelast_last in Hq. split; [by apply prefix_app_r|].
  intros ->. by apply prefix_snoc_not in Hq.
Qed.

(** One entry more: the write succeeds and the tree is built from one
    path more, when the paths are consistent. *)
Lemma write_file_at_built ks x t D :
  ks ≠ [] → built t D →
  (∀ a, a ∈ D → a = ks ∨ (¬ a `prefix_of` ks ∧ ¬ ks `prefix_of` a)) →
  ∃ t', write_file_at (ks, x) t = (t', None) ∧ built t' (ks :: D).
Proof.
  intros Hne (Hd & Hfiles & Hdirs) Hcons. unfold write_file_at. simpl.
  destruct (mkdirall_at_ok (removelast ks) t Hd) as [t0 Hm].
  { intros q y [Hq Hneq]%prefix_removelast Hg; [|done].
    destruct (Hcons q (Hfiles _ _ Hg)) as [?|[??]]; done. }
  rewrite Hm.
  assert (match probe ks t0 with
          | Found (File _) | Absent => True | _ => False end) as Hp.
  { destruct (probe_under_dir ks t0 Hne) as [[n Hp]|Hp].
    - by eapply mkdirall_at_ok_dir_at.
    - rewrite Hp. destruct n as [|ents]; [done|].
      assert (dir_at ks t0) as Hdk by (exists ents; by apply probe_Found).
      destruct (mkdirall_at_dir_inv _ _ _ _ _ Hm Hdk) as [Hdt|Hpre].
      + destruct (Hdirs _ Hdt) as [?|(a & Ha & Hpa & Hna)]; [done|].
        destruct (Hcons a Ha) as [?|[??]]; done.
      + by apply prefix_removelast in Hpre as [_ ?].
    - by rewrite Hp. }
  exists (put ks (File x) t0). split.
  { unfold writefile_at. by destruct (probe ks t0) as [[]| | |]. }
  split; [|split].
  - destruct (put_file_dir_at ks [] x t0 Hp) as [ents Hg].
    + destruct (mkdirall_at_dir_at _ [] _ _ _ Hm) as [ents Hg]; [|by eexists].
      destruct t; [done|by eexists].
    + by injection Hg as ->.
  - intros q y [[-> ->]|Hg]%put_file_inv; [left|right].
    eapply Hfiles, mkdirall_at_file_inv; done.
  - intros q Hq%put_file_dir_inv.
    destruct (mkdirall_at_dir_inv _ _ _ _ _ Hm Hq) as [Hdt|Hpre].
    + destruct (Hdirs _ Hdt) as [?|(a & Ha & Hpa & Hna)]; [by left|].
      right. exists a. split; [by right|done].
    + right. exists ks. split; [left|]. by apply prefix_removelast.
Qed.

Lemma write_files_at_ok L t D :
  Forall (λ e, e.1 ≠ []) L → built t D →
  (∀ a b, a ∈ D ++ L.*1 → b ∈ D ++ L.*1 → a = b ∨ ¬ a `prefix_of` b) →
  ∃ t', write_files_at L t = (t', None).
Proof.
  intros HL. revert t D.
  induction HL as [|[ks x] L Hne HL IH]; intros t D Hb Hcons; [by eexists|].
  simpl in Hne. cbn [write_files_at].
  destruct (write_file_at_built ks x t D Hne Hb) as (t1 & -> & Hb1).
  { intros a Ha.
    assert (a ∈ D ++ ((ks, x) :: L).*1) as Ha' by (apply elem_of_app; by left).
    assert (ks ∈ D ++ ((ks, x) :: L).*1) as Hk
      by (apply elem_of_app; right; left).
    destruct (Hcons a ks Ha' Hk) as [?|?]; [by left|].
    destruct (Hcons ks a Hk Ha') as [?|?]; [by left|by right]. }
  apply (IH t1 (ks :: D) Hb1). intros a b Ha Hb'. apply Hcons.
  - apply elem_of_app. cbn [fmap list_fmap fst].
    apply elem_of_cons in Ha as [->|[?|?]%elem_of_app];
      [right; left|by left|right; by right].
  - apply elem_of_app. cbn [fmap list_fmap fst].
    apply elem_of_cons in Hb' as [->|[?|?]%elem_of_app];
      [right; left|by left|right; by right].
Qed.

Lemma Files_Write_below f dir st T :
  Forall (λ kv, clean_key kv.1) f →
  get (resolve dir) st = Some T →
  filesnap.Write_loop f dir st
  = let '(T', err) := write_files_at (map file_below f) T in
    (put (resolve dir) T' st, err).
Proof.
  intros Hf Hg. rewrite Files_Write_at by done.
  rewrite <-(write_files_at_app _ _ st T Hg).
  - f_equal. rewrite <-list_fmap_compose. done.
  - apply Forall_map. apply Forall_forall. intros [k b] _. simpl.
    apply split_not_nil.
Qed.

(** A flat snapshot with clean keys and consistent types is written into
    an empty directory without error. *)
Lemma Files_Write_ok f dir st :
  wf_files f → consistent_files f →
  get (resolve dir) st = Some (Dir []) →
  ∃ st1, filesnap.Write_loop f dir st = (st1, None).
Proof.
  intros [Hnd Hclean] Hcons Hg.
  rewrite (Files_Write_below f dir st (Dir [])) by done.
  destruct (write_files_at_ok (map file_below f) (Dir []) []) as [T1 ->];
    [| |  |by eexists].
  - apply Forall_map, Forall_forall. intros [k b] _. apply split_not_nil.
  - split; [done|]. split.
    + intros q x Hq. by destruct q.
    + intros q [ents Hq]. destruct q; [by left|done].
  - simpl. intros a b [[ka xa] [-> Ha]]%list_elem_of_fmap
      [[kb xb] [-> Hb]]%list_elem_of_fmap.
    apply list_elem_of_fmap in Ha as ([k1 b1] & [= -> ->] & Hin1).
    apply list_elem_of_fmap in Hb as ([k2 b2] & [= -> ->] & Hin2).
    pose proof (proj1 (Forall_forall _ _)
                  (proj1 (Forall_forall _ _) Hcons _ Hin1) _ Hin2) as [Heq|?].
    + left. simpl in *. by rewrite Heq.
    + by right.
Qed.
End files_tree_facts.

(** ** The repository's tests, replayed on the model *)

Section repo_tests.
Import dirsnap filesnap Fixtures.

(** [testScanTree]: Full, Nested, Empty, EmptyDepth, MaxDepth and the
    missing directory. *)
Example ScanTree_Full :
  dirsnap.Read 4 scan_tree "/tmp" (-1)
  = Some (DMap [("emptyDir", DMap []);
                ("some", DMap [("sub", DMap [("dir", DMap [])]);
                               ("nested.txt", DNil)]);
                ("anotherFile", DNil)], None).
Proof. reflexivity. Qed.

Example ScanTree_Nested :
  dirsnap.Read 2 scan_tree "/tmp/some/sub" (-1)
  = Some (DMap [("dir", DMap [])], None).
Proof. reflexivity. Qed.

Example ScanTree_Empty :
  dirsnap.Read 1 scan_tree "/tmp/emptyDir" (-1) = Some (DMap [], None).
Proof. reflexivity. Qed.

Example ScanTree_EmptyDepth :
  dirsnap.Read 1 scan_tree "/tmp" 0
  = Some (DMap [("emptyDir", DMap []); ("some", DMap []);
                ("anotherFile", DNil)], None).
Proof. reflexivity. Qed.

Example ScanTree_MaxDepth :
  dirsnap.Read 2 scan_tree "/tmp" 1
  = Some (DMap [("emptyDir", DMap []);
                ("some", DMap [("sub", DMap []); ("nested.txt", DNil)]);
                ("anotherFile", DNil)], None).
Proof. reflexivity. Qed.

Example ScanTree_ErrNotExists :
  dirsnap.Read 1 scan_tree "/tmp/missing" (-1) = Some (DNil, Some ErrNotExist).
Proof. reflexivity. Qed.

(** [testScanFiles] *)
Example ScanFiles_Full :
  filesnap.Read 4 scan_files "/tmp" (-1)
  = Some (FMap [("some/sub/file", Some (text "foobar"));
                ("some/nested.txt", Some (text "File Contents"));
                ("emptyFile", Some [])], None).
Proof. reflexivity. Qed.

Example ScanFiles_Nested :
  filesnap.Read 3 scan_files "/tmp/some" (-1)
  = Some (FMap [("sub/file", Some (text "foobar"));
                ("nested.txt", Some (text "File Contents"))], None).
Proof. reflexivity. Qed.

Example ScanFiles_EmptyDepth :
  filesnap.Read 1 scan_files "/tmp" 0
  = Some (FMap [("emptyFile", Some [])], None).
Proof. reflexivity. Qed.

Example ScanFiles_MaxDepth :
  filesnap.Read 2 scan_files "/tmp" 1
  = Some (FMap [("some/nested.txt", Some (text "File Contents"));
                ("emptyFile", Some [])], None).
Proof. reflexivity. Qed.

Example ScanFiles_ErrNotExists :
  filesnap.Read 1 scan_files "/tmp/missing" (-1)
  = Some (FMap [], Some ErrNotExist).
Proof. reflexivity. Qed.

(** [TestWriteTree]: Main, Again and the two collisions. *)
Example WriteTree_Main :
  dirsnap.Write tr "/tmp" tmp
  = (Dir [("tmp", Dir [
       ("emptyDir", Dir []);
       ("some", Dir [("subDir", Dir []); ("nested.txt", File [])]);
       ("anotherFile", File [])])], None).
Proof. reflexivity. Qed.

Example WriteTree_Again :
  dirsnap.Write tr "/tmp" (dirsnap.Write tr "/tmp" tmp).1
  = dirsnap.Write tr "/tmp" tmp.
Proof. reflexivity. Qed.

Example WriteTree_ErrFileCollision :
  (dirsnap.Write (DMap [("collFile", DMap [])]) "/tmp"
     (Dir [("tmp", Dir [("collFile", File [])])])).2 = Some ErrExist.
Proof. reflexivity. Qed.

Example WriteTree_ErrDirCollision :
  (dirsnap.Write (DMap [("collDir", DNil)]) "/tmp"
     (Dir [("tmp", Dir [("collDir", Dir [])])])).2 = Some ErrIsDir.
Proof. reflexivity. Qed.

(** [TestWriteFiles]: Main, Again, NilWrite, Overwrite, DirExists and the
    two collisions. *)
Example WriteFiles_Main :
  filesnap.Write fl "/tmp" tmp
  = (Dir [("tmp", Dir [
       ("myFile", File (text "some contents"));
       ("emptyFile", File []);
       ("nested", Dir [("file", File (text "foobar"))])])], None).
Proof. reflexivity. Qed.

Example WriteFiles_Again :
  filesnap.Write fl "/tmp" (filesnap.Write fl "/tmp" tmp).1
  = filesnap.Write fl "/tmp" tmp.
Proof. reflexivity. Qed.

Example WriteFiles_NilWrite :
  filesnap.Write (FMap [("myFile", None)]) "/tmp" tmp
  = (Dir [("tmp", Dir [("myFile", File [])])], None).
Proof. reflexivity. Qed.

Example WriteFiles_Overwrite :
  filesnap.Write (FMap [("myFile", Some (text "new contents"))]) "/tmp"
    (Dir [("tmp", Dir [("myFile", File (text "old contents"))])])
  = (Dir [("tmp", Dir [("myFile", File (text "new contents"))])], None).
Proof. reflexivity. Qed.

Example WriteFiles_DirExists :
  filesnap.Write (FMap [("nested/file", Some (text "some data"))]) "/tmp"
    (Dir [("tmp", Dir [("nested", Dir [])])])
  = (Dir [("tmp", Dir [("nested", Dir [("file", File (text "some data"))])])],
     None).
Proof. reflexivity. Qed.

Example WriteFiles_ErrDirCollision :
  filesnap.Write (FMap [("myFile", Some (text "some data"))]) "/tmp"
    (Dir [("tmp", Dir [("myFile", Dir [])])])
  = (Dir [("tmp", Dir [("myFile", Dir [])])], Some ErrIsDir).
Proof. reflexivity. Qed.

Example WriteFiles_ErrNestedDirCollision :
  filesnap.Write (FMap [("nested/file", Some (text "some data"))]) "/tmp"
    (Dir [("tmp", Dir [("nested", File [])])])
  = (Dir [("tmp", Dir [("nested", File [])])], Some ErrNotDir).
Proof. reflexivity. Qed.
End repo_tests.

(** * Main results *)

Section scan_results.
Import dirsnap filesnap Fixtures.

(** C5. A tree scan with depth 0 of a directory that can be listed returns
    exactly the listed entries: a file marker for each plain file, an
    empty nested snapshot for each subdirectory. Nothing but the listing
    of the directory itself is consulted, so a file system [fsys'] with
    the same listing and other contents below it gives the same
    snapshot. *)
Theorem dirsnap_depth_zero (fuel : nat) (fsys fsys' : FS) (dir : string)
    (entries : list DirEntry) (err err' : option error) :
  ReadDir fsys dir = (entries, err) → failed err = false →
  ReadDir fsys' dir = (entries, err') → failed err' = false →
  ∃ t, dirsnap.ReadFS (S fuel) fsys dir 0 = Some (DMap t, None) ∧
       (∀ k, alookup k t = alookup k (rev (map shallow_entry entries))) ∧
       dirsnap.ReadFS (S fuel) fsys' dir 0 = Some (DMap t, None).
Proof.
  intros Hl Hf Hl' Hf'. simpl. rewrite Hl, Hf, Hl', Hf'.
  rewrite !ReadFS_loop_zero. eexists. split; [done|]. split; [|done].
  intros k. rewrite alookup_fold_aset. simpl.
  by destruct (alookup k (rev (map shallow_entry entries))).
Qed.

Lemma dirsnap_depth_zero_witness :
  ∃ t, dirsnap.ReadFS 1 (osfs scan_tree) "/tmp" 0 = Some (DMap t, None) ∧
       (∀ k, alookup k t
             = alookup k [("anotherFile", DNil); ("some", DMap []);
                          ("emptyDir", DMap [])]) ∧
       dirsnap.ReadFS 1 (osfs scan_tree') "/tmp" 0 = Some (DMap t, None).
Proof.
  exact (dirsnap_depth_zero 0 (osfs scan_tree) (osfs scan_tree') "/tmp"
           _ None None eq_refl eq_refl eq_refl eq_refl).
Defined.

(** C6. A flat scan with depth 0 of a directory that can be listed, and
    whose plain files can be read, returns exactly the plain files of
    that directory under their names, with their contents. A
    subdirectory contributes nothing: neither an entry of its own nor
    any of the files below it. *)
Theorem filesnap_depth_zero (fuel : nat) (fsys : FS) (dir : string)
    (entries : list DirEntry) (err : option error) :
  ReadDir fsys (path.Join dir "") = (entries, err) → failed err = false →
  Forall (λ e, path.valid_name (Name e)) entries →
  Forall (λ e, IsDir e = false →
               failed (ReadFile fsys
                         (path.Join (path.Join dir "") (Name e))).2 = false)
         entries →
  ∃ f, filesnap.ReadFS (S fuel) fsys dir 0 = Some (FMap f, None) ∧
       ∀ k, alookup k f
            = alookup k (rev (map (flat_entry fsys (path.Join dir ""))
                                (filter (λ e, IsDir e = false) entries))).
Proof.
  intros Hl Hf Hv Hr. unfold filesnap.ReadFS. simpl. rewrite Hl, Hf.
  rewrite readFS_loop_zero by done. eexists. split; [done|].
  intros k. rewrite alookup_fold_aset. simpl.
  by destruct (alookup k _).
Qed.

Lemma filesnap_depth_zero_witness :
  ∃ f, filesnap.ReadFS 1 (osfs scan_files) "/tmp" 0 = Some (FMap f, None) ∧
       ∀ k, alookup k f = alookup k [("emptyFile", Some [])].
Proof.
  refine (filesnap_depth_zero 0 (osfs scan_files) "/tmp"
            [ {| Name := "emptyDir"; IsDir := true |};
              {| Name := "some"; IsDir := true |};
              {| Name := "emptyFile"; IsDir := false |} ] None
            eq_refl eq_refl _ _).
  - apply (bool_decide_unpack _). by vm_compute.
  - apply (bool_decide_unpack _). by vm_compute.
Defined.

End scan_results.

Section write_results.
Import dirsnap filesnap Fixtures.

Lemma filesnap_Write_dir_at f dir st st' err q :
  filesnap.Write_loop f dir st = (st', err) → dir_at q st → dir_at q st'.
Proof.
  revert st. induction f as [|[n data] f IH]; intros st; simpl.
  - by intros [= <- _].
  - destruct (MkdirAll _ st) as [st1 [e|]] eqn:Hm; [|].
    + intros [= <- _]. by eapply mkdirall_at_dir_at.
    + destruct (WriteFile _ data st1) as [st2 [e|]] eqn:Hw.
      * intros [= <- _] Hd. eapply writefile_at_dir_at; [done|].
        by eapply mkdirall_at_dir_at.
      * intros HW Hd. apply (IH _ HW). eapply writefile_at_dir_at; [done|].
        by eapply mkdirall_at_dir_at.
Qed.

Lemma filesnap_Write_over_dir f dir st n data :
  (n, data) ∈ f → dir_at (resolve (path.Join dir n)) st →
  ∃ st' e, filesnap.Write_loop f dir st = (st', Some e).
Proof.
  revert st. induction f as [|[n' data'] f IH]; intros st Hin Hd.
  - by apply elem_of_nil in Hin.
  - simpl. destruct (MkdirAll _ st) as [st1 [e|]] eqn:Hm; [by eauto|].
    assert (dir_at (resolve (path.Join dir n)) st1) as Hd1
      by (by eapply mkdirall_at_dir_at).
    destruct (WriteFile _ data' st1) as [st2 [e|]] eqn:Hw; [by eauto|].
    apply elem_of_cons in Hin as [[= <- <-]|Hin].
    + by rewrite WriteFile_dir in Hw.
    + apply IH; [done|]. by eapply writefile_at_dir_at.
Qed.

(** C2. Collision policy of [Dirs.Write], for the entry [n] that the loop
    reaches in state [st] and whose target is [path.Join dir n]. If the
    target is an existing plain file, a file-marker entry is written
    without error and the loop goes on, while a nested-snapshot entry
    makes [Write] return the error of [os.Mkdir]. If the target is an
    existing directory, a nested-snapshot entry raises no error (the
    nested snapshot is written into the directory and the loop goes on
    unless that fails), while a file-marker entry makes [Write] return the
    error of [os.WriteFile]. *)
Theorem dirsnap_write_collision (dir n : string)
    (rest : list (string * Dirs)) (st : node) :
  let name := path.Join dir n in
  (∀ data, get (resolve name) st = Some (File data) →
     (∃ st1, writeEmptyFile name st = (st1, None) ∧
             dirsnap.Write (DMap ((n, DNil) :: rest)) dir st
             = dirsnap.Write (DMap rest) dir st1) ∧
     (∀ l, Mkdir name st = (st, Some ErrExist) ∧
           dirsnap.Write (DMap ((n, DMap l) :: rest)) dir st
           = (st, Some ErrExist))) ∧
  (∀ ents, get (resolve name) st = Some (Dir ents) →
     (∀ l, dirsnap.Write (DMap ((n, DMap l) :: rest)) dir st
           = let '(st2, err) := dirsnap.Write (DMap l) name st in
             match err with
             | Some e => (st2, Some e)
             | None => dirsnap.Write (DMap rest) dir st2
             end) ∧
     writeEmptyFile name st = (st, Some ErrIsDir) ∧
     dirsnap.Write (DMap ((n, DNil) :: rest)) dir st = (st, Some ErrIsDir)).
Proof.
  intros name. split.
  - intros data Hg. split.
    + eexists. split; [by eapply writeEmptyFile_file|].
      rewrite Write_cons_file. fold name. cbv zeta.
      by erewrite writeEmptyFile_file.
    + intros l. split; [by eapply Mkdir_exists|].
      rewrite Write_cons_dir. fold name. cbv zeta.
      erewrite Mkdir_exists by done.
      by erewrite isWriteErrOk_exist by done.
  - intros ents Hg. split; [|split].
    + intros l. rewrite Write_cons_dir. fold name. cbv zeta.
      erewrite Mkdir_exists by done.
      by erewrite isWriteErrOk_exist by done.
    + apply WriteFile_dir. by exists ents.
    + rewrite Write_cons_file. fold name. cbv zeta.
      unfold writeEmptyFile. by rewrite WriteFile_dir by (by exists ents).
Qed.

Lemma dirsnap_write_collision_witness :
  (* a file marker over the file [anotherFile], a nested snapshot over it *)
  (∃ st1, writeEmptyFile "/tmp/anotherFile" scan_tree = (st1, None) ∧
          dirsnap.Write (DMap [("anotherFile", DNil)]) "/tmp" scan_tree
          = dirsnap.Write (DMap []) "/tmp" st1) ∧
  dirsnap.Write (DMap [("anotherFile", DMap [])]) "/tmp" scan_tree
    = (scan_tree, Some ErrExist) ∧
  (* a file marker over the directory [some] *)
  dirsnap.Write (DMap [("some", DNil)]) "/tmp" scan_tree
    = (scan_tree, Some ErrIsDir).
Proof.
  pose proof (dirsnap_write_collision "/tmp" "anotherFile" [] scan_tree)
    as [Hfile _].
  pose proof (dirsnap_write_collision "/tmp" "some" [] scan_tree)
    as [_ Hdir].
  destruct (Hfile [] eq_refl) as [Hok Herr].
  destruct (Hdir _ eq_refl) as (_ & _ & Hmark).
  split; [exact Hok|]. split; [exact (proj2 (Herr []))|exact Hmark].
Defined.

(** C9. When the loop of [Dirs.Write] reaches a file-marker entry whose
    target is an existing plain file with contents, the entry raises no
    error and the file is left with zero length: its bytes are replaced by
    the empty sequence that [writeEmptyFile] writes. *)
Theorem dirsnap_write_truncates (dir n : string)
    (rest : list (string * Dirs)) (st : node) (data : list Byte.byte) :
  data ≠ [] →
  get (resolve (path.Join dir n)) st = Some (File data) →
  ∃ st1, dirsnap.Write (DMap ((n, DNil) :: rest)) dir st
         = dirsnap.Write (DMap rest) dir st1 ∧
         dirsnap.Write (DMap [(n, DNil)]) dir st = (st1, None) ∧
         get (resolve (path.Join dir n)) st1 = Some (File []).
Proof.
  intros _ Hg. exists (put (resolve (path.Join dir n)) (File []) st).
  rewrite !Write_cons_file. cbv zeta.
  erewrite writeEmptyFile_file by done. simpl.
  repeat split. by eapply get_put.
Qed.

Lemma dirsnap_write_truncates_witness :
  ∃ st1, dirsnap.Write (DMap [("nested.txt", DNil); ("sub", DMap [])])
           "/tmp/some" scan_files
         = dirsnap.Write (DMap [("sub", DMap [])]) "/tmp/some" st1 ∧
         dirsnap.Write (DMap [("nested.txt", DNil)]) "/tmp/some" scan_files
         = (st1, None) ∧
         get ["tmp"; "some"; "nested.txt"] st1 = Some (File []).
Proof.
  refine (dirsnap_write_truncates "/tmp/some" "nested.txt" _ scan_files
            (text "File Contents") _ eq_refl).
  done.
Defined.

(** C7. Collision policy of [Files.Write], for an entry [n] with target
    [path.Join dir n]. If the loop reaches the entry when the target is an
    existing plain file, the entry's content replaces the file's bytes and
    the loop goes on. If the target is an existing directory, the step of
    the entry changes nothing and returns the error of [os.WriteFile];
    whatever the order of the entries, [Write] on a snapshot with such an
    entry returns an error and the target is still a directory
    afterwards. *)
Theorem filesnap_write_collision (dir n : string) (data : bytes) (st : node) :
  let p := path.Join dir n in
  (∀ old rest,
     is_dir st = true → get (resolve p) st = Some (File old) →
     ∃ st1, filesnap.Write (FMap ((n, data) :: rest)) dir st
            = filesnap.Write (FMap rest) dir st1 ∧
            get (resolve p) st1 = Some (File (content data))) ∧
  (dir_at (resolve p) st →
   (∀ rest, filesnap.Write (FMap ((n, data) :: rest)) dir st
            = (st, Some ErrIsDir)) ∧
   (∀ f, (n, data) ∈ range f →
         ∃ st' e, filesnap.Write f dir st = (st', Some e) ∧
                  dir_at (resolve p) st')).
Proof.
  intros p. unfold filesnap.Write. cbn [range]. split.
  - intros old rest Hd Hg. exists (put (resolve p) (File (content data)) st).
    split; [|by eapply get_put].
    simpl. fold p. unfold p at 1. erewrite MkdirAll_parent by done.
    unfold WriteFile, writefile_at. apply probe_Found in Hg. by rewrite Hg.
  - intros Hd. split.
    + intros rest. simpl. fold p. destruct Hd as [ents Hg].
      unfold p at 1. destruct st as [x|ents0].
      { unfold p in Hg. by destruct (resolve (path.Join dir n)). }
      erewrite MkdirAll_parent by done.
      by rewrite WriteFile_dir by (by exists ents).
    + intros f Hin.
      destruct (filesnap_Write_over_dir (range f) dir st n data Hin Hd)
        as (st'&e&HW).
      exists st', e. split; [done|]. by eapply filesnap_Write_dir_at.
Qed.

Lemma filesnap_write_collision_witness :
  (∃ st1, filesnap.Write (FMap [("emptyFile", Some (text "new"))]) "/tmp"
            scan_files
          = filesnap.Write (FMap []) "/tmp" st1 ∧
          get ["tmp"; "emptyFile"] st1 = Some (File (text "new"))) ∧
  filesnap.Write (FMap [("some", Some (text "new"))]) "/tmp" scan_files
    = (scan_files, Some ErrIsDir) ∧
  (∃ st' e,
     filesnap.Write
       (FMap [("some/x", Some []); ("some", Some (text "new"))])
       "/tmp" scan_files = (st', Some e) ∧
     dir_at ["tmp"; "some"] st').
Proof.
  pose proof (filesnap_write_collision "/tmp" "emptyFile" (Some (text "new"))
                scan_files) as [Hfile _].
  pose proof (filesnap_write_collision "/tmp" "some" (Some (text "new"))
                scan_files) as [_ Hdir].
  assert (dir_at (resolve (path.Join "/tmp" "some")) scan_files) as Hd
    by (eexists; reflexivity).
  destruct (Hdir Hd) as [Hstep Hall].
  split; [exact (Hfile [] [] eq_refl eq_refl)|].
  split; [exact (Hstep [])|].
  apply (Hall (FMap [("some/x", Some []); ("some", Some (text "new"))])).
  right. left.
Defined.

(** C10, as stated, fails when the path of the entry is taken by a
    directory: [Write] returns the error of [os.WriteFile] and no file is
    created. Here the entry [some] with nil content is written where
    [some] is a directory. *)
Lemma filesnap_write_nil_counterexample :
  filesnap.Write (FMap [("some", None)]) "/tmp" scan_files
  = (scan_files, Some ErrIsDir) ∧
  dir_at ["tmp"; "some"] scan_files.
Proof. split; [reflexivity|]. eexists. reflexivity. Qed.

(** C10, amended. [Files.Write] treats a nil content as an empty one: the
    two writes are the same function of the disk. When the loop reaches an
    entry with nil content whose parent directories can be created and
    whose target is not a directory, the entry raises no error and leaves
    a file of zero length at the target. *)
Theorem filesnap_write_nil (dir n : string)
    (rest : list (string * bytes)) (st : node) :
  let p := path.Join dir n in
  filesnap.Write (FMap ((n, None) :: rest)) dir st
    = filesnap.Write (FMap ((n, Some []) :: rest)) dir st ∧
  (∀ st1, MkdirAll (path.Dir p) st = (st1, None) →
          ¬ dir_at (resolve p) st1 →
          ∃ st2, filesnap.Write (FMap ((n, None) :: rest)) dir st
                 = filesnap.Write (FMap rest) dir st2 ∧
                 filesnap.Write (FMap [(n, None)]) dir st = (st2, None) ∧
                 get (resolve p) st2 = Some (File [])).
Proof.
  intros p. unfold filesnap.Write. cbn [range].
  split; [done|]. intros st1 Hm Hnd.
  exists (put (resolve p) (File []) st1). simpl. fold p. rewrite Hm.
  unfold MkdirAll in Hm. unfold p in Hm. rewrite resolve_Dir_Join in Hm.
  fold p in Hm. apply mkdirall_at_ok_dir_at in Hm.
  assert ((∃ x, probe (resolve p) st1 = Found x)
          ∨ probe (resolve p) st1 = Absent) as Hp.
  { destruct (decide (resolve p = [])) as [Heq|Hne].
    - rewrite Heq in *. by destruct Hnd.
    - by apply probe_under_dir. }
  unfold WriteFile, writefile_at.
  assert (match probe (resolve p) st1 with
          | Found (Dir _) => False | _ => True end) as Hfile.
  { destruct (probe (resolve p) st1) as [[|ents]| | |] eqn:Hpr; try done.
    apply Hnd. exists ents. by apply probe_Found. }
  rewrite (get_put_new _ _ _ Hp).
  destruct Hp as [[x Hp]|Hp]; rewrite Hp in *; [destruct x|]; done.
Qed.

Lemma filesnap_write_nil_witness :
  ∃ st2, filesnap.Write (FMap [("myFile", None)]) "/tmp" tmp
         = filesnap.Write (FMap []) "/tmp" st2 ∧
         filesnap.Write (FMap [("myFile", None)]) "/tmp" tmp = (st2, None) ∧
         get ["tmp"; "myFile"] st2 = Some (File []).
Proof.
  refine (proj2 (filesnap_write_nil "/tmp" "myFile" [] tmp) tmp eq_refl _).
  intros [ents Hg]. discriminate Hg.
Defined.
End write_results.

Section snapshot_results.
Import dirsnap filesnap Fixtures.

(** C3, as stated, fails when the directory holds an object of the other
    type under a name of the snapshot: the first call returns an error.
    Here a file marker [some] is written where [some] is a directory. *)
Lemma write_idempotent_counterexample :
  wf_dirs (DMap [("some", DNil)]) ∧
  dirsnap.Write (DMap [("some", DNil)]) "/tmp" scan_tree
  = (scan_tree, Some ErrIsDir).
Proof.
  split; [|reflexivity].
  repeat (constructor; simpl); try by apply (bool_decide_unpack _).
Qed.

(** C3, amended. Writing a snapshot twice. For a snapshot with well-formed
    names whose entries have consistent types (a tree snapshot always has;
    a flat snapshot has when no key is a directory on the path of another
    key), [Write] into an existing empty directory succeeds. And whenever
    [Write] succeeds, on any disk, [Write] of the same snapshot into the
    same directory, with its entries taken in any order, succeeds on the
    disk that the first call left and leaves it as it is. This holds for
    tree snapshots and for flat snapshots. *)
Theorem write_idempotent :
  (∀ (S : Dirs) (dir : string) (st : node),
     wf_dirs S → get (resolve dir) st = Some (Dir []) →
     ∃ st1, dirsnap.Write S dir st = (st1, None)) ∧
  (∀ (f : Files) (dir : string) (st : node),
     wf_files (range f) → consistent_files (range f) →
     get (resolve dir) st = Some (Dir []) →
     ∃ st1, filesnap.Write f dir st = (st1, None)) ∧
  (∀ (S S' : Dirs) (dir : string) (st st1 : node),
     wf_dirs S → wf_dirs S' → Dirs_equal S S' →
     dirsnap.Write S dir st = (st1, None) →
     dirsnap.Write S' dir st1 = (st1, None)) ∧
  (∀ (f f' : Files) (dir : string) (st st1 : node),
     wf_files (range f) → range f' ≡ₚ range f →
     filesnap.Write f dir st = (st1, None) →
     filesnap.Write f' dir st1 = (st1, None)).
Proof.
  split; [|split; [|split]].
  - intros [|l] dir st Hwf Hg; [by eexists|]. eexists.
    by apply (Write_fresh _ l eq_refl Hwf dir st []).
  - intros f. apply Files_Write_ok.
  - intros S S' dir st st1 Hwf Hwf' Heq HW.
    destruct Heq as [|l l' Hlook]; [done|].
    destruct l as [|[n v] l].
    { destruct l' as [|[k' v'] l']; [done|].
      specialize (Hlook k'). simpl in Hlook. rewrite decide_True in Hlook by done.
      inversion Hlook. }
    assert (path.valid_name n) as Hn.
    { apply wf_dirs_DMap in Hwf as [_ Hall].
      by apply Forall_cons in Hall as [[? _] _]. }
    destruct (Write_needs_dir _ _ _ _ _ _ Hn HW) as [ents Hg].
    destruct (Write_holds _ _ eq_refl Hwf _ _ _ _ Hg HW) as (ents1 & -> & Hh & _).
    assert (holds (DMap l') (Dir ents1)) as Hh'.
    { eapply (holds_equal _ (DMap ((n, v) :: l))); [by constructor|done..|].
      apply holds_DMap. by exists ents1. }
    apply holds_DMap in Hh' as (? & [= <-] & Hh').
    eapply holds_Write; [done|done| |done]. by eapply get_put.
  - intros f0 f0' dir st st1. unfold filesnap.Write.
    generalize (range f0) (range f0'). clear f0 f0'.
    intros f f' [Hnd Hclean] Hperm HW.
    assert (Forall (λ kv, clean_key kv.1) f') as Hclean'
      by (by rewrite Hperm).
    rewrite Files_Write_at in HW |- * by done.
    pose proof (write_files_at_get _ _ _ HW (file_at_keys_NoDup f dir Hnd)) as Hget.
    apply write_files_at_same. apply Forall_forall. intros e He.
    split.
    + apply list_elem_of_fmap in He as ([k b] & -> & _). simpl.
      pose proof (split_not_nil k). by destruct (resolve dir), (path.split k).
    + apply (proj1 (Forall_forall _ _) Hget). by rewrite <-Hperm.
Qed.

Lemma write_idempotent_witness :
  (∃ st1, dirsnap.Write tr "/tmp" tmp = (st1, None) ∧
          dirsnap.Write tr "/tmp" st1 = (st1, None)) ∧
  (∃ st1, filesnap.Write fl "/tmp" tmp = (st1, None) ∧
          filesnap.Write (FMap (rev (range fl))) "/tmp" st1 = (st1, None)).
Proof.
  destruct write_idempotent as (Hdirs1 & Hfiles1 & Hdirs & Hfiles).
  assert (wf_dirs tr) as Hwd
    by (repeat (constructor; simpl); try by apply (bool_decide_unpack _)).
  assert (wf_files (range fl)) as Hwf
    by (split; apply (bool_decide_unpack _); by vm_compute).
  assert (consistent_files (range fl)) as Hcf
    by (apply (bool_decide_unpack _); by vm_compute).
  split.
  - destruct (Hdirs1 tr "/tmp" tmp Hwd eq_refl) as [st1 HW].
    exists st1. split; [done|].
    by apply (Hdirs tr tr "/tmp" tmp); [| |apply Dirs_equal_refl|].
  - destruct (Hfiles1 fl "/tmp" tmp Hwf Hcf eq_refl) as [st1 HW].
    exists st1. split; [done|].
    apply (Hfiles fl (FMap (rev (range fl))) "/tmp" tmp); [done| |done].
    symmetry. apply Permutation_rev.
Defined.

(** C1, as stated, fails when the directory is not empty: the scan also
    returns what was there before the write. Here the empty flat snapshot
    is written into the directory of [testScanFiles]. It fails as well
    for the nil snapshot of either package, in an empty directory too:
    [Write] of a nil map writes nothing, and the scan returns a map that
    is empty but not nil, which is not equal to it. *)
Lemma write_read_roundtrip_counterexample :
  (∃ st1 f', filesnap.Write (FMap []) "/tmp" scan_files = (st1, None) ∧
             filesnap.Read 4 st1 "/tmp" (-1) = Some (f', None) ∧
             ¬ Files_equal f' (FMap [])) ∧
  (filesnap.Write FNil "/tmp" tmp = (tmp, None) ∧
   filesnap.Read 1 tmp "/tmp" (-1) = Some (FMap [], None) ∧
   ¬ Files_equal (FMap []) FNil) ∧
  (dirsnap.Write DNil "/tmp" tmp = (tmp, None) ∧
   dirsnap.Read 1 tmp "/tmp" (-1) = Some (DMap [], None) ∧
   ¬ Dirs_equal (DMap []) DNil).
Proof.
  split; [|split].
  - exists scan_files,
      (FMap [("some/sub/file", Some (text "foobar"));
             ("some/nested.txt", Some (text "File Contents"));
             ("emptyFile", Some [])]).
    split; [reflexivity|]. split; [reflexivity|].
    intros Heq. specialize (Heq "emptyFile"). vm_compute in Heq.
    discriminate.
  - split; [reflexivity|]. split; [reflexivity|]. by intros [].
  - split; [reflexivity|]. split; [reflexivity|]. intros Heq.
    inversion Heq.
Qed.

(** C1, amended. Round trip through an empty directory. Let [dir] be an
    existing directory without entries.
    - A non-nil tree snapshot whose names are entry names, distinct in
      each map, is written without error, and an unlimited scan of [dir]
      then returns a snapshot equal to it.
    - A non-nil flat snapshot with distinct keys, each a relative path of
      entry names, none of them a directory on the path of another, is
      written without error, and an unlimited scan of [dir] then returns
      a snapshot equal to it, with the bytes that were written: a nil
      content comes back as an empty one.
    The scans are given fuel for the depth of the snapshot, which is below
    [2^63], the range of the depth counter. *)
Theorem write_read_roundtrip :
  (∀ (l : list (string * Dirs)) (dir : string) (st : node) (fuel : nat),
     wf_dirs (DMap l) →
     get (resolve dir) st = Some (Dir []) →
     (Z.of_nat (Dirs_depth (DMap l)) < 2 ^ 63)%Z →
     Dirs_depth (DMap l) ≤ fuel →
     ∃ st1 S', dirsnap.Write (DMap l) dir st = (st1, None) ∧
               dirsnap.Read fuel st1 dir (-1) = Some (S', None) ∧
               Dirs_equal S' (DMap l)) ∧
  (∀ (l : list (string * bytes)) (dir : string) (st : node)
     (h fuel : nat),
     wf_files l → consistent_files l →
     get (resolve dir) st = Some (Dir []) →
     Forall (λ kv, length (path.split kv.1) ≤ h) l →
     (Z.of_nat h < 2 ^ 63)%Z → 1 ≤ h ≤ fuel →
     ∃ st1 f', filesnap.Write (FMap l) dir st = (st1, None) ∧
               filesnap.Read fuel st1 dir (-1) = Some (f', None) ∧
               Files_equal f' (FMap (written l))).
Proof.
  split.
  - intros l dir st fuel Hwf Hg Hdepth Hfuel.
    exists (put (resolve dir) (tree_of (DMap l)) st), (DMap l).
    split; [|split; [|apply Dirs_equal_refl]].
    + rewrite (Write_fresh _ l eq_refl Hwf dir st []) by done.
      by rewrite tree_of_DMap.
    + apply (ReadFS_tree_of _ l); [done..| |done|done|].
      * by eapply get_put.
      * unfold int_min. lia.
  - intros f dir st h fuel Hwff Hcons Hg Hlen Hh [Hh1 Hfuel].
    unfold filesnap.Write. cbn [range].
    destruct (Files_Write_ok f dir st Hwff Hcons Hg) as [st1 HW].
    exists st1. destruct Hwff as [Hnd Hclean].
    rewrite (Files_Write_below f dir st (Dir [])) in HW |- * by done.
    destruct (write_files_at (map file_below f) (Dir [])) as [T1 err] eqn:HT.
    injection HW as <- ->.
    assert (wf_node T1) as Hwf.
    { eapply (write_files_at_wf (map file_below f));
        [|apply (wf_Dir []); constructor|done].
      apply Forall_map. eapply Forall_impl; [exact Hclean|]. by intros [??]. }
    assert (height T1 ≤ h) as Hheight.
    { apply (write_files_at_height _ h) in HT as Hle.
      - simpl in Hle. lia.
      - apply Forall_map. eapply Forall_impl; [exact Hlen|]. intros [k b] Hk.
        simpl in *. split; [apply split_not_nil|done]. }
    assert (∃ ents, T1 = Dir ents) as [ents ->].
    { pose proof (write_files_at_is_dir _ (Dir []) _ _ eq_refl HT) as Hd.
      destruct T1 as [x|ents]; [done|by eexists]. }
    exists (FMap (fold_left record (files_of [] (Dir ents)) [])).
    split; [done|]. split.
    + unfold filesnap.Read, filesnap.ReadFS.
      rewrite (readFS_files_of (Dir ents) Hwf ents eq_refl fuel _ dir []);
        [done|constructor| |lia|done|unfold int_min; lia].
      rewrite app_nil_r. by eapply get_put.
    + intros k. rewrite alookup_fold_record. simpl.
      rewrite (written_files f (Dir ents)) by done.
      by destruct (alookup k (written f)).
Qed.

Lemma write_read_roundtrip_witness :
  (∃ st1 S', dirsnap.Write tr "/tmp" tmp = (st1, None) ∧
             dirsnap.Read 3 st1 "/tmp" (-1) = Some (S', None) ∧
             Dirs_equal S' tr) ∧
  (∃ st1 f', filesnap.Write fl "/tmp" tmp = (st1, None) ∧
             filesnap.Read 2 st1 "/tmp" (-1) = Some (f', None) ∧
             Files_equal f' (FMap (written (range fl)))).
Proof.
  destruct write_read_roundtrip as [Hdirs Hfiles]. split.
  - apply Hdirs; [|reflexivity|by vm_compute|by vm_compute].
    repeat (constructor; simpl); try by apply (bool_decide_unpack _).
  - apply (Hfiles (range fl) "/tmp" tmp 2 2); [| |reflexivity| |done|lia].
    + split; apply (bool_decide_unpack _); by vm_compute.
    + apply (bool_decide_unpack _). by vm_compute.
    + apply (bool_decide_unpack _). by vm_compute.
Defined.
End snapshot_results.

(** * Further properties *)

(** ** Scans of a tree, at any depth *)

Section scan_depth.
Import dirsnap filesnap Fixtures.

Lemma snap_upto_Dir k ents :
  snap_upto (S k) (Dir ents)
  = DMap (map (λ kv, (kv.1, snap_upto k kv.2)) ents).
Proof.
  simpl. f_equal. induction ents as [|[n c] l IH]; [done|]. by rewrite IH.
Qed.

Lemma snap_of_Dir ents :
  snap_of (Dir ents) = DMap (map (λ kv, (kv.1, snap_of kv.2)) ents).
Proof.
  simpl. f_equal. induction ents as [|[n c] l IH]; [done|]. by rewrite IH.
Qed.

Lemma files_upto_Dir k pre ents :
  files_upto (S k) pre (Dir ents)
  = foldr (λ kv r, files_upto k (pre ++ [kv.1]) kv.2 ++ r) [] ents.
Proof.
  simpl. induction ents as [|[n c] l IH]; [done|]. simpl. by rewrite IH.
Qed.

(** Below the height of the tree a cut changes nothing. *)
Lemma snap_upto_height t : ∀ k, height t ≤ k → snap_upto k t = snap_of t.
Proof.
  induction t as [x|ents IH] using node_ind'; intros k Hk; [done|].
  rewrite height_Dir in Hk. destruct k as [|k]; [lia|].
  rewrite snap_upto_Dir, snap_of_Dir. f_equal.
  apply map_ext_Forall. rewrite Forall_forall in IH.
  apply Forall_forall. intros [n c] Hin. simpl. f_equal.
  apply (IH _ Hin). simpl.
  assert (height c ≤ highest ents); [|lia].
  clear -Hin. induction ents as [|[n' c'] l IHl]; [by apply elem_of_nil in Hin|].
  unfold highest in *.
  apply elem_of_cons in Hin as [[= <- <-]|Hin]; simpl; [lia|].
  specialize (IHl Hin). lia.
Qed.

Lemma highest_elem n c ents : (n, c) ∈ ents → height c ≤ highest ents.
Proof.
  unfold highest. induction ents as [|[n' c'] l IHl]; intros Hin.
  - by apply elem_of_nil in Hin.
  - apply elem_of_cons in Hin as [[= <- <-]|Hin]; simpl; [lia|].
    specialize (IHl Hin). lia.
Qed.

(** A tree scan of a directory of the disk, at any depth: what it returns
    is the tree cut after the levels it descends. *)
Lemma ReadFS_snap_upto T :
  wf_node T → ∀ ents, T = Dir ents →
  ∀ fuel st dir n k,
    get (resolve dir) st = Some T →
    (if (n <? 0)%Z
     then height T ≤ k ∧ (int_min ≤ n - Z.of_nat (height T))%Z
     else k = S (Z.to_nat n)) →
    Nat.min k (height T) ≤ fuel →
    dirsnap.ReadFS fuel (osfs st) dir n = Some (snap_upto k T, None).
Proof.
  induction T as [x|ents0 IH] using node_ind'; [done|].
  intros [Hnd Hwf]%wf_node_Dir ents [= <-] fuel st dir n k Hg Hk Hfuel.
  rewrite height_Dir in Hk, Hfuel.
  destruct k as [|k]; [by destruct (n <? 0)%Z; lia|].
  destruct fuel as [|fuel]; [lia|].
  cbn [dirsnap.ReadFS osfs ReadDir].
  rewrite (proj2 (probe_Found _ _ _) Hg). cbn [failed].
  rewrite snap_upto_Dir. fold entry_of.
  set (F := λ kv : string * node, (kv.1, snap_upto k kv.2)).
  assert (∀ l seen, ents0 = seen ++ l →
            ReadFS_loop (dirsnap.ReadFS fuel (osfs st)) dir n
              (map entry_of l) (map F seen)
            = Some (DMap (map F (seen ++ l)), None)) as Hloop.
  2:{ by apply (Hloop ents0 []). }
  intros l. induction l as [|[s c] l IHl]; intros seen Heq.
  { simpl. by rewrite app_nil_r. }
  assert ((s, c) ∈ ents0) as Hin.
  { rewrite Heq. apply elem_of_app. right. left. }
  assert (alookup s (map F seen) = None) as Hfresh.
  { apply alookup_None_keys. rewrite Heq, fmap_app in Hnd.
    apply NoDup_app in Hnd as (_ & Hdis & _). intros Hs.
    apply (Hdis s); [|left].
    by rewrite <-list_fmap_compose in Hs. }
  pose proof (proj1 (Forall_forall _ _) Hwf _ Hin) as [Hs Hc].
  pose proof (proj1 (Forall_forall _ _) IH _ Hin) as IHc.
  simpl in Hs, Hc, IHc.
  pose proof (highest_elem _ _ _ Hin) as Hh.
  specialize (IHl (seen ++ [(s, c)])).
  rewrite <-app_assoc in IHl. specialize (IHl Heq).
  rewrite map_app in IHl.
  cbn [map ReadFS_loop entry_of Name IsDir fst snd].
  destruct c as [x|cents].
  - cbn [is_dir negb]. by rewrite aset_fresh.
  - cbn [is_dir negb].
    destruct (Z.eqb_spec n 0) as [->|Hn0].
    + simpl in Hk. injection Hk as ->. by rewrite aset_fresh.
    + assert (get (resolve (path.Join dir s)) st = Some (Dir cents)) as Hgc.
      { rewrite resolve_Join_valid, (get_child _ s st _ Hg) by done.
        by apply alookup_elem_NoDup. }
      rewrite (IHc Hc cents eq_refl fuel st (path.Join dir s) (int_dec n) k);
        [by rewrite aset_fresh|done| |lia].
      destruct (Z.ltb_spec n 0) as [Hneg|Hpos].
      * destruct Hk as [Hk Hmin].
        destruct (int_dec_neg n (highest ents0) Hneg Hmin) as (Hn' & Hmin' & _).
        destruct (Z.ltb_spec (int_dec n) 0); [|lia]. split; lia.
      * injection Hk as ->. unfold int_dec.
        destruct (Z.eqb_spec n int_min) as [->|_]; [unfold int_min in Hpos; lia|].
        destruct (Z.ltb_spec (n - 1) 0); [lia|].
        rewrite Z2Nat.inj_sub by lia. lia.
Qed.

(** X1. A tree scan with a depth [n] that is not negative, of a directory
    of the disk whose names are entry names, descends [n] levels below
    the directory: it returns without error the tree of the directory cut
    after [n + 1] levels, with a marker for each plain file, a map for
    each directory listed, and the empty map for each directory at the
    last level, whatever that directory holds. Fuel for the levels
    visited is enough. *)
Theorem dirsnap_scan_depth (fuel : nat) (st : node) (dir : string) (n : Z)
    (ents : list (string * node)) :
  wf_node (Dir ents) →
  get (resolve dir) st = Some (Dir ents) →
  (0 ≤ n)%Z →
  Nat.min (S (Z.to_nat n)) (height (Dir ents)) ≤ fuel →
  dirsnap.Read fuel st dir n
  = Some (snap_upto (S (Z.to_nat n)) (Dir ents), None).
Proof.
  intros Hwf Hg Hn Hfuel.
  apply (ReadFS_snap_upto (Dir ents) Hwf ents eq_refl); [done| |done].
  by destruct (Z.ltb_spec n 0); [lia|].
Qed.

Lemma dirsnap_scan_depth_witness :
  dirsnap.Read 2 scan_tree "/tmp" 1
  = Some (DMap [("emptyDir", DMap []);
                ("some", DMap [("sub", DMap []); ("nested.txt", DNil)]);
                ("anotherFile", DNil)], None).
Proof.
  apply (dirsnap_scan_depth 2 scan_tree "/tmp" 1
      [("emptyDir", Dir []);
       ("some", Dir [("sub", Dir [("dir", Dir [])]); ("nested.txt", File [])]);
       ("anotherFile", File [])]); [|reflexivity|lia|simpl; lia].
  repeat (constructor; simpl); try by apply (bool_decide_unpack _).
Defined.

(** X2. A tree scan with a negative depth, or with a depth that reaches
    the deepest directory, of a directory of the disk whose names are
    entry names returns without error the snapshot of everything below
    the directory: a marker for each plain file and a map for each
    directory, down to the leaves. The negative depth counter is
    decremented at each level, so the tree must not be high enough to
    make it wrap around. *)
Theorem dirsnap_scan_unlimited (fuel : nat) (st : node) (dir : string)
    (n : Z) (ents : list (string * node)) :
  wf_node (Dir ents) →
  get (resolve dir) st = Some (Dir ents) →
  height (Dir ents) ≤ fuel →
  (n < 0 ∧ int_min ≤ n - Z.of_nat (height (Dir ents)))%Z ∨
  (Z.of_nat (height (Dir ents)) ≤ n + 1)%Z →
  dirsnap.Read fuel st dir n = Some (snap_of (Dir ents), None).
Proof.
  intros Hwf Hg Hfuel Hn.
  rewrite <-(snap_upto_height (Dir ents) (levels n (height (Dir ents)))).
  - apply (ReadFS_snap_upto (Dir ents) Hwf ents eq_refl); [done| |lia].
    unfold levels. destruct (Z.ltb_spec n 0); [|done].
    destruct Hn as [[_ Hmin]|Hh]; [done|]. rewrite height_Dir in Hh. lia.
  - unfold levels. destruct (Z.ltb_spec n 0); [done|].
    destruct Hn as [[? _]|Hh]; lia.
Qed.

Lemma dirsnap_scan_unlimited_witness :
  dirsnap.Read 4 scan_tree "/tmp" (-1)
  = Some (DMap [("emptyDir", DMap []);
                ("some", DMap [("sub", DMap [("dir", DMap [])]);
                               ("nested.txt", DNil)]);
                ("anotherFile", DNil)], None).
Proof.
  apply (dirsnap_scan_unlimited 4 scan_tree "/tmp" (-1)
      [("emptyDir", Dir []);
       ("some", Dir [("sub", Dir [("dir", Dir [])]); ("nested.txt", File [])]);
       ("anotherFile", File [])]);
    [|reflexivity|simpl; lia|left; by vm_compute].
  repeat (constructor; simpl); try by apply (bool_decide_unpack _).
Defined.

(** A flat scan with a depth that is not negative records the plain
    files of the levels it descends, in the order of [files_upto]. *)
Lemma readFS_files_upto T :
  wf_node T → ∀ ents, T = Dir ents →
  ∀ fuel st rootDir pre n f,
    Forall path.valid_name pre →
    get (resolve rootDir ++ pre) st = Some T →
    (0 ≤ n)%Z → Nat.min (S (Z.to_nat n)) (height T) ≤ fuel →
    readFS fuel (osfs st) rootDir (path.join_slash pre) n f
    = Some (fold_left record (files_upto (S (Z.to_nat n)) pre T) f, None).
Proof.
  induction T as [x|ents0 IH] using node_ind'; [done|].
  intros [Hnd Hwf]%wf_node_Dir ents [= <-] fuel st rootDir pre n f
    Hpre Hg Hn Hfuel.
  rewrite height_Dir in Hfuel. destruct fuel as [|fuel]; [lia|].
  cbn [readFS]. cbn [osfs ReadDir].
  rewrite resolve_Join_names by done.
  rewrite (proj2 (probe_Found _ _ _) Hg). cbn [failed].
  rewrite files_upto_Dir. fold entry_of.
  assert (∀ l seen f, ents0 = seen ++ l →
            readFS_loop (readFS fuel (osfs st) rootDir) (osfs st)
              (path.Join rootDir (path.join_slash pre))
              (path.join_slash pre) n (map entry_of l) f
            = Some (fold_left record
                      (foldr (λ kv r, files_upto (Z.to_nat n) (pre ++ [kv.1])
                                        kv.2 ++ r) [] l)
                      f, None)) as Hloop.
  2:{ by apply (Hloop ents0 []). }
  clear f. intros l. induction l as [|[k c] l IHl]; intros seen f Heq; [done|].
  assert ((k, c) ∈ ents0) as Hin.
  { rewrite Heq. apply elem_of_app. right. left. }
  pose proof (proj1 (Forall_forall _ _) Hwf _ Hin) as [Hk Hc].
  pose proof (proj1 (Forall_forall _ _) IH _ Hin) as IHc.
  cbn [fst snd] in Hk, Hc, IHc.
  specialize (IHl (seen ++ [(k, c)])).
  rewrite <-app_assoc in IHl.
  assert (get (resolve rootDir ++ pre ++ [k]) st = Some c) as Hgc.
  { rewrite app_assoc, (get_child _ k st _ Hg).
    by apply alookup_elem_NoDup. }
  assert (Forall path.valid_name (pre ++ [k])) as Hpre'
    by (apply Forall_app; split; [done|by apply Forall_singleton]).
  cbn [map foldr readFS_loop entry_of Name IsDir fst snd].
  rewrite Join_names by done. rewrite fold_left_app.
  destruct c as [x|cents].
  - cbn [is_dir negb osfs ReadFile].
    rewrite resolve_Join_valid, resolve_Join_names by done.
    rewrite <-app_assoc, (proj2 (probe_Found _ _ _) Hgc). cbn [failed].
    simpl files_upto. cbn [fold_left]. by apply IHl.
  - cbn [is_dir negb].
    pose proof (highest_elem _ _ _ Hin) as Hh.
    destruct (Z.eqb_spec n 0) as [->|Hn0]; cbn [negb].
    + simpl. by apply IHl.
    + assert (int_dec n = (n - 1)%Z) as ->.
      { unfold int_dec. destruct (Z.eqb_spec n int_min) as [->|_]; [|done].
        unfold int_min in Hn. lia. }
      assert (Z.to_nat n = S (Z.to_nat (n - 1))) as Hto
        by (rewrite Z2Nat.inj_sub by lia; lia).
      rewrite (IHc Hc cents eq_refl fuel st rootDir (pre ++ [k]) (n - 1)%Z f);
        [|done|done|lia|lia].
      rewrite <-Hto. by apply IHl.
Qed.

(** What [files_upto] lists. *)
Lemma files_upto_elem T :
  wf_node T → ∀ h pre k v,
  (k, v) ∈ files_upto h pre T →
  ∃ q x, get q T = Some (File x) ∧ Forall path.valid_name q ∧
         length q ≤ h ∧ k = path.join_slash (pre ++ q) ∧ v = Some x.
Proof.
  induction T as [x|ents IH] using node_ind'; intros Hwf h pre k v.
  - simpl. intros [= -> ->]%list_elem_of_singleton.
    exists [], x. rewrite app_nil_r. simpl. repeat split; [done|lia].
  - apply wf_node_Dir in Hwf as [Hnd Hwf].
    destruct h as [|h]; [by intros ?%elem_of_nil|]. rewrite files_upto_Dir.
    assert (∀ l, l ⊆ ents →
              (k, v) ∈ foldr (λ kv r, files_upto h (pre ++ [kv.1]) kv.2 ++ r)
                         [] l →
              ∃ q x, get q (Dir ents) = Some (File x) ∧
                     Forall path.valid_name q ∧ length q ≤ S h ∧
                     k = path.join_slash (pre ++ q) ∧ v = Some x) as Hl.
    2:{ by apply Hl. }
    intros l. induction l as [|[s c] l IHl]; intros Hsub; simpl.
    { by intros ?%elem_of_nil. }
    assert ((s, c) ∈ ents) as Hin by (apply Hsub; left).
    intros [Hhere|Hrest]%elem_of_app.
    + pose proof (proj1 (Forall_forall _ _) Hwf _ Hin) as [Hs Hc].
      pose proof (proj1 (Forall_forall _ _) IH _ Hin) as IHc. simpl in *.
      destruct (IHc Hc _ _ _ _ Hhere) as (q & x & Hg & Hq & Hlen & -> & ->).
      exists (s :: q), x. simpl.
      rewrite (alookup_elem_NoDup s c ents) by done. simpl.
      split; [done|]. split; [by constructor|]. split; [lia|].
      by rewrite <-app_assoc.
    + apply IHl; [|done]. intros y Hy. apply Hsub. by right.
Qed.

Lemma elem_files_upto T :
  ∀ h pre q x, get q T = Some (File x) → length q ≤ h →
  (path.join_slash (pre ++ q), Some x) ∈ files_upto h pre T.
Proof.
  induction T as [y|ents IH] using node_ind'; intros h pre q x.
  - destruct q; [|done]. intros [= ->] _. rewrite app_nil_r. simpl. left.
  - destruct q as [|s q]; [done|]. cbn [get length].
    destruct h as [|h]; [lia|]. rewrite files_upto_Dir.
    destruct (alookup s ents) as [c|] eqn:Hc; [|done]. simpl. intros Hg Hlen.
    clear -IH Hc Hg Hlen.
    induction ents as [|[s' c'] l IHl]; [done|].
    apply Forall_cons in IH as [IHc IH]. simpl in *.
    apply elem_of_app. destruct (decide (s = s')) as [->|Hne].
    + injection Hc as ->. left.
      rewrite (cons_middle s' pre q), app_assoc. apply IHc; [done|lia].
    + right. by apply IHl.
Qed.

(** The map a flat scan builds from the plain files it meets: a key is
    the relative path of a file, the value its bytes. [P] selects the
    paths the scan reaches. *)
Lemma flat_lookup ents (P : list string → Prop) L :
  (∀ k v, (k, v) ∈ L →
     ∃ q x, get q (Dir ents) = Some (File x) ∧ Forall path.valid_name q ∧
            P q ∧ k = path.join_slash q ∧ v = Some x) →
  (∀ q x, get q (Dir ents) = Some (File x) → P q →
     (path.join_slash q, Some x) ∈ L) →
  ∀ k v, alookup k (fold_left record L []) = Some v ↔
         ∃ x, v = Some x ∧ get (path.split k) (Dir ents) = Some (File x) ∧
              P (path.split k).
Proof.
  intros Hfrom Hto k v. rewrite alookup_fold_record.
  assert (∀ v', (k, v') ∈ rev L →
            ∃ x, v' = Some x ∧ get (path.split k) (Dir ents) = Some (File x) ∧
                 P (path.split k)) as Hrev.
  { intros v' Hin. apply list_elem_of_In, in_rev, list_elem_of_In in Hin.
    destruct (Hfrom _ _ Hin) as (q & x & Hg & Hq & HP & -> & ->).
    assert (q ≠ []) as Hne by (by intros ->).
    rewrite split_join; [by eauto|done|].
    eapply Forall_impl; [done|]. apply valid_name_nosl. }
  split.
  - destruct (alookup k (rev L)) as [v'|] eqn:Hk; [|done]. simpl.
    intros [= <-]. by apply Hrev, alookup_Some_elem.
  - intros (x & -> & Hg & HP).
    specialize (Hto _ _ Hg HP). rewrite join_split in Hto.
    rewrite (@alookup_unique bytes k (Some x) (rev L)); [done| |].
    + by apply list_elem_of_In, in_rev; rewrite rev_involutive;
        apply list_elem_of_In.
    + intros v' (x' & -> & Hg' & _)%Hrev. congruence.
Qed.

(** X3. A flat scan with a negative depth of a directory of the disk whose
    names are entry names returns without error a map with one key for
    each plain file below the directory, at any level: the key is the
    path of the file relative to the directory, with slashes, and the
    value the bytes of the file, never nil. Directories, empty or not,
    have no key. The negative depth counter is decremented at each level,
    so the tree must not be high enough to make it wrap around. *)
Theorem filesnap_scan_unlimited (fuel : nat) (st : node) (dir : string)
    (n : Z) (ents : list (string * node)) :
  wf_node (Dir ents) →
  get (resolve dir) st = Some (Dir ents) →
  height (Dir ents) ≤ fuel →
  (n < 0)%Z → (int_min ≤ n - Z.of_nat (height (Dir ents)))%Z →
  ∃ f, filesnap.Read fuel st dir n = Some (FMap f, None) ∧
       ∀ k v, alookup k f = Some v ↔
              ∃ x, v = Some x ∧
                   get (path.split k) (Dir ents) = Some (File x).
Proof.
  intros Hwf Hg Hfuel Hn Hmin.
  exists (fold_left record (files_of [] (Dir ents)) []). split.
  - unfold filesnap.Read, filesnap.ReadFS.
    rewrite (readFS_files_of (Dir ents) Hwf ents eq_refl fuel st dir []);
      [done|constructor| |done..].
    by rewrite app_nil_r.
  - intros k v.
    rewrite (flat_lookup ents (λ _, True) (files_of [] (Dir ents))).
    + split; [intros (x & ? & ? & _)|intros (x & ? & ?)]; eauto.
    + intros k' v' (q & x & ? & ? & -> & ->)%files_of_elem; [|done].
      by exists q, x.
    + intros q x Hq _. apply (elem_files_of (Dir ents) [] q x Hq).
Qed.

Lemma filesnap_scan_unlimited_witness :
  ∃ f, filesnap.Read 4 scan_files "/tmp" (-1) = Some (FMap f, None) ∧
       ∀ k v, alookup k f = Some v ↔
              ∃ x, v = Some x ∧
                   get (path.split k)
                     (Dir [("emptyDir", Dir []);
                           ("some", Dir [
                              ("sub", Dir [("dir", Dir []);
                                           ("file", File (text "foobar"))]);
                              ("nested.txt", File (text "File Contents"))]);
                           ("emptyFile", File [])])
                   = Some (File x).
Proof.
  apply (filesnap_scan_unlimited 4 scan_files "/tmp" (-1));
    [|reflexivity|simpl; lia|lia|by vm_compute].
  repeat (constructor; simpl); try by apply (bool_decide_unpack _).
Defined.

(** X4. A flat scan with a depth [n] that is not negative, of a directory
    of the disk whose names are entry names, returns without error a map
    with one key for each plain file at most [n] directory levels below
    the directory: the keys are the relative paths of at most [n + 1]
    elements that lead to a plain file, each with the bytes of its file.
    Files further down, and directories, have no key. *)
Theorem filesnap_scan_depth (fuel : nat) (st : node) (dir : string) (n : Z)
    (ents : list (string * node)) :
  wf_node (Dir ents) →
  get (resolve dir) st = Some (Dir ents) →
  (0 ≤ n)%Z →
  Nat.min (S (Z.to_nat n)) (height (Dir ents)) ≤ fuel →
  ∃ f, filesnap.Read fuel st dir n = Some (FMap f, None) ∧
       ∀ k v, alookup k f = Some v ↔
              ∃ x, v = Some x ∧
                   get (path.split k) (Dir ents) = Some (File x) ∧
                   length (path.split k) ≤ S (Z.to_nat n).
Proof.
  intros Hwf Hg Hn Hfuel.
  exists (fold_left record (files_upto (S (Z.to_nat n)) [] (Dir ents)) []).
  split.
  - unfold filesnap.Read, filesnap.ReadFS.
    rewrite (readFS_files_upto (Dir ents) Hwf ents eq_refl fuel st dir []);
      [done|constructor| |done..].
    by rewrite app_nil_r.
  - apply (flat_lookup ents (λ q, length q ≤ S (Z.to_nat n))).
    + intros k' v' (q & x & ? & ? & ? & -> & ->)%files_upto_elem; [|done].
      by exists q, x.
    + intros q x Hq Hlen.
      apply (elem_files_upto (Dir ents) _ [] q x Hq Hlen).
Qed.

Lemma filesnap_scan_depth_witness :
  ∃ f, filesnap.Read 2 scan_files "/tmp" 1 = Some (FMap f, None) ∧
       ∀ k v, alookup k f = Some v ↔
              ∃ x, v = Some x ∧
                   get (path.split k)
                     (Dir [("emptyDir", Dir []);
                           ("some", Dir [
                              ("sub", Dir [("dir", Dir []);
                                           ("file", File (text "foobar"))]);
                              ("nested.txt", File (text "File Contents"))]);
                           ("emptyFile", File [])])
                   = Some (File x) ∧
                   length (path.split k) ≤ 2.
Proof.
  apply (filesnap_scan_depth 2 scan_files "/tmp" 1);
    [|reflexivity|lia|simpl; lia].
  repeat (constructor; simpl); try by apply (bool_decide_unpack _).
Defined.

End scan_depth.

(** ** Writes, entry after entry *)

Section write_sequence.
Import dirsnap filesnap Fixtures.

Lemma isWriteErrOk_nil name wantDir st :
  isWriteErrOk None name wantDir st = true.
Proof. done. Qed.

(** X5. [Files.Write] handles its entries one after the other, each on
    the disk the entries before it left, and stops at the first error:
    writing the entries [f1] followed by [f2] is writing [f1] and then,
    if that raised no error, [f2] on the disk it left. When [f1] fails
    its error is returned, the entries of [f2] are not tried, and what
    was written before the failure stays on the disk. *)
Theorem filesnap_write_sequence (f1 f2 : list (string * bytes))
    (dir : string) (st : node) :
  filesnap.Write (FMap (f1 ++ f2)) dir st
  = let '(st1, err) := filesnap.Write (FMap f1) dir st in
    match err with
    | Some e => (st1, Some e)
    | None => filesnap.Write (FMap f2) dir st1
    end.
Proof.
  unfold filesnap.Write. cbn [range]. revert st. induction f1 as [|[n data] f1 IH]; intros st; [done|].
  cbn [app filesnap.Write_loop].
  destruct (MkdirAll _ st) as [st1 [e|]]; [done|].
  destruct (WriteFile _ data st1) as [st2 [e|]]; [done|]. apply IH.
Qed.

(** X6. [Dirs.Write] handles the entries of a map one after the other,
    each on the disk the entries before it left, and stops at the first
    error: writing a map with the entries [l1] followed by [l2] is
    writing [l1] and then, if that raised no error, [l2] on the disk it
    left. When [l1] fails its error is returned, the entries of [l2] are
    not tried, and what was written before the failure stays on the
    disk. *)
Theorem dirsnap_write_sequence (l1 l2 : list (string * Dirs)) (dir : string)
    (st : node) :
  dirsnap.Write (DMap (l1 ++ l2)) dir st
  = let '(st1, err) := dirsnap.Write (DMap l1) dir st in
    match err with
    | Some e => (st1, Some e)
    | None => dirsnap.Write (DMap l2) dir st1
    end.
Proof.
  revert st. induction l1 as [|[n [|sub]] l1 IH]; intros st; [done|..];
    cbn [app].
  - rewrite !Write_cons_file. cbv zeta.
    destruct (writeEmptyFile _ st) as [st1 err].
    destruct (isWriteErrOk err _ false st1) eqn:Hok; cbn [negb]; [apply IH|].
    destruct err; [done|]. by rewrite isWriteErrOk_nil in Hok.
  - rewrite !Write_cons_dir. cbv zeta.
    destruct (Mkdir _ st) as [st1 err].
    destruct (isWriteErrOk err _ true st1) eqn:Hok; cbn [negb].
    + destruct (dirsnap.Write (DMap sub) _ st1) as [st2 [e|]]; [done|].
      apply IH.
    + destruct err; [done|]. by rewrite isWriteErrOk_nil in Hok.
Qed.

End write_sequence.

(** ** What a write leaves alone *)

Section write_keeps.
Import dirsnap filesnap Fixtures.

Lemma keeps_kinds_refl t : keeps_kinds t t.
Proof. intros q c Hg. by exists c. Qed.

Lemma keeps_kinds_trans t1 t2 t3 :
  keeps_kinds t1 t2 → keeps_kinds t2 t3 → keeps_kinds t1 t3.
Proof.
  intros H12 H23 q c Hg.
  destruct (H12 _ _ Hg) as (c2 & Hg2 & <-). by apply H23.
Qed.

Lemma keeps_or_empties_refl t : keeps_or_empties t t.
Proof. intros q x Hg. by left. Qed.

Lemma keeps_or_empties_trans t1 t2 t3 :
  keeps_or_empties t1 t2 → keeps_or_empties t2 t3 → keeps_or_empties t1 t3.
Proof.
  intros H12 H23 q x Hg.
  destruct (H12 _ _ Hg) as [Hg2|Hg2]; destruct (H23 _ _ Hg2); auto.
Qed.

(** A new entry, or a plain file in the place of a plain file, leaves
    every object with its type. *)
Lemma put_kinds p v t :
  match probe p t with
  | Absent => True
  | Found (File _) => is_dir v = false
  | _ => False
  end →
  keeps_kinds t (put p v t).
Proof.
  revert t. induction p as [|s p IH]; intros t; simpl.
  - destruct t as [x|]; [|done]. intros Hv q c Hg.
    destruct q; [|done]. injection Hg as <-. by exists v.
  - destruct t as [|ents]; [done|].
    destruct (alookup s ents) as [ch|] eqn:Hch.
    + intros Hp q c Hg. destruct q as [|s' q].
      { injection Hg as <-. by eexists. }
      cbn [get] in *. rewrite alookup_aset.
      destruct (decide (s' = s)) as [->|Hne]; [|by eexists].
      rewrite Hch in Hg. simpl in *. by apply IH.
    + destruct p; [|done]. intros _ q c Hg. destruct q as [|s' q].
      { injection Hg as <-. by eexists. }
      cbn [get] in *. rewrite alookup_aset.
      destruct (decide (s' = s)) as [->|Hne]; [|by eexists].
      by rewrite Hch in Hg.
Qed.

(** A new entry leaves every plain file with its bytes. *)
Lemma put_absent_file p v q x t :
  probe p t = Absent →
  get q t = Some (File x) → get q (put p v t) = Some (File x).
Proof.
  revert t q. induction p as [|s p IH]; intros t q; simpl; [done|].
  destruct t as [|ents]; [done|].
  destruct (alookup s ents) as [ch|] eqn:Hch.
  - intros Hp. destruct q as [|s' q]; [done|]. cbn [get].
    rewrite alookup_aset. destruct (decide (s' = s)) as [->|Hne]; [|done].
    rewrite Hch. simpl. by apply IH.
  - destruct p; [|done]. intros _. destruct q as [|s' q]; [done|]. cbn [get].
    rewrite alookup_aset. destruct (decide (s' = s)) as [->|Hne]; [|done].
    by rewrite Hch.
Qed.

Lemma mkdir_at_kinds p t t' err :
  mkdir_at p t = (t', err) → keeps_kinds t t'.
Proof.
  unfold mkdir_at. intros Hm. pose proof (put_kinds p (Dir []) t) as Hput.
  destruct (probe p t) as [[]| | |]; simplify_eq;
    auto using keeps_kinds_refl.
Qed.

Lemma mkdir_at_file p q x t t' err :
  mkdir_at p t = (t', err) →
  get q t = Some (File x) → get q t' = Some (File x).
Proof.
  unfold mkdir_at. intros Hm Hg.
  pose proof (put_absent_file p (Dir []) q x t) as Hput.
  destruct (probe p t) as [[]| | |]; simplify_eq; auto.
Qed.

Lemma writefile_at_kinds p y t t' err :
  writefile_at p y t = (t', err) → keeps_kinds t t'.
Proof.
  unfold writefile_at. intros Hw. pose proof (put_kinds p (File y) t) as Hput.
  destruct (probe p t) as [[]| | |]; simplify_eq;
    auto using keeps_kinds_refl.
Qed.

Lemma writefile_at_error p y t t' e :
  writefile_at p y t = (t', Some e) → t' = t.
Proof.
  unfold writefile_at. intros Hw.
  by destruct (probe p t) as [[]| | |]; simplify_eq.
Qed.

Lemma writefile_at_other p q y x t t' err :
  writefile_at p y t = (t', err) → q ≠ p →
  get q t = Some (File x) → get q t' = Some (File x).
Proof.
  destruct err as [e|].
  - by intros ->%writefile_at_error.
  - apply writefile_at_file.
Qed.

Lemma writefile_at_empties p t t' err :
  writefile_at p [] t = (t', err) → keeps_or_empties t t'.
Proof.
  intros Hw q x Hg. destruct err as [e|].
  { apply writefile_at_error in Hw as ->. by left. }
  destruct (decide (q = p)) as [->|Hne].
  - right. by eapply writefile_at_get.
  - left. by eapply writefile_at_file.
Qed.

Lemma mkdirall_at_kinds p t t' err :
  mkdirall_at p t = (t', err) → keeps_kinds t t'.
Proof.
  intros Hm q [x|ents] Hg.
  - exists (File x). split; [|done]. by eapply mkdirall_at_file.
  - destruct (mkdirall_at_dir_at _ q _ _ _ Hm) as [ents' Hg'];
      [by exists ents|].
    by exists (Dir ents').
Qed.

(** X7. [Files.Write] removes nothing and changes the type of nothing,
    whether it returns an error or not: every object of the disk is
    still there afterwards, a directory as a directory and a plain file
    as a plain file. A plain file keeps its bytes unless it is the target
    [path.Join dir n] of an entry [n] of the snapshot. *)
Theorem filesnap_write_keeps (f : Files) (dir : string) (st st' : node)
    (err : option error) :
  filesnap.Write f dir st = (st', err) →
  keeps_kinds st st' ∧
  (∀ q x, get q st = Some (File x) →
          q ∉ map (λ kv, resolve (path.Join dir kv.1)) (range f) →
          get q st' = Some (File x)).
Proof.
  unfold filesnap.Write. generalize (range f). clear f. intros f.
  revert st. induction f as [|[n data] f IH]; intros st; cbn [filesnap.Write_loop].
  { intros [= <- _]. split; [apply keeps_kinds_refl|done]. }
  destruct (MkdirAll _ st) as [st1 e1] eqn:Hm.
  assert (keeps_kinds st st1) as Hk1 by (by eapply mkdirall_at_kinds).
  assert (∀ q x, get q st = Some (File x) → get q st1 = Some (File x)) as Hf1
    by (intros q x; by eapply mkdirall_at_file).
  destruct e1 as [e|].
  { intros [= <- _]. split; [done|]. intros q x Hg _. by apply Hf1. }
  destruct (WriteFile _ data st1) as [st2 e2] eqn:Hw.
  assert (keeps_kinds st st2) as Hk2.
  { eapply keeps_kinds_trans; [done|]. by eapply writefile_at_kinds. }
  assert (∀ q x, get q st = Some (File x) →
                 q ≠ resolve (path.Join dir n) →
                 get q st2 = Some (File x)) as Hf2.
  { intros q x Hg Hne. eapply writefile_at_other; [done..|]. by apply Hf1. }
  destruct e2 as [e|].
  { intros [= <- _]. split; [done|]. intros q x Hg Hq. apply Hf2; [done|].
    intros ->. apply Hq. left. }
  intros [Hk Hf]%IH. split; [by eapply keeps_kinds_trans|].
  intros q x Hg Hq. apply Hf.
  - apply Hf2; [done|]. intros ->. apply Hq. left.
  - intros Hin. apply Hq. by right.
Qed.

Lemma filesnap_write_keeps_witness :
  keeps_kinds scan_files
    (filesnap.Write (FMap [("some/nested.txt", None); ("emptyDir", Some [])])
       "/tmp" scan_files).1 ∧
  get ["tmp"; "some"; "sub"; "file"]
    (filesnap.Write (FMap [("some/nested.txt", None); ("emptyDir", Some [])])
       "/tmp" scan_files).1
  = Some (File (text "foobar")).
Proof.
  destruct (filesnap_write_keeps
              (FMap [("some/nested.txt", None); ("emptyDir", Some [])])
              "/tmp" scan_files _ _ eq_refl) as [Hk Hf].
  split; [exact Hk|]. apply Hf; [reflexivity|].
  apply (bool_decide_unpack _). by vm_compute.
Defined.

(** X8. [Dirs.Write] removes nothing and changes the type of nothing,
    whether it returns an error or not: every object of the disk is
    still there afterwards, a directory as a directory and a plain file
    as a plain file. The only change it makes to a plain file is to
    empty it: afterwards a file has the bytes it had, or none. *)
Theorem dirsnap_write_keeps (d : Dirs) (dir : string) (st st' : node)
    (err : option error) :
  dirsnap.Write d dir st = (st', err) →
  keeps_kinds st st' ∧ keeps_or_empties st st'.
Proof.
  revert dir st st' err. induction d as [|l IH] using Dirs_ind'.
  { intros dir st st' err [= <- _].
    split; [apply keeps_kinds_refl|apply keeps_or_empties_refl]. }
  intros dir. induction l as [|[n [|sub]] l IHl]; intros st st' err.
  - intros [= <- _].
    split; [apply keeps_kinds_refl|apply keeps_or_empties_refl].
  - apply Forall_cons in IH as [_ IH]. specialize (IHl IH).
    rewrite Write_cons_file. cbv zeta.
    destruct (writeEmptyFile _ st) as [st1 e1] eqn:Hw.
    assert (keeps_kinds st st1 ∧ keeps_or_empties st st1) as [Hk1 He1].
    { split; [by eapply writefile_at_kinds|by eapply writefile_at_empties]. }
    destruct (negb _); [by intros [= <- _]|].
    intros [Hk He]%IHl.
    split; [by eapply keeps_kinds_trans|by eapply keeps_or_empties_trans].
  - apply Forall_cons in IH as [IHsub IH]. specialize (IHl IH).
    simpl in IHsub. rewrite Write_cons_dir. cbv zeta.
    destruct (Mkdir _ st) as [st1 e1] eqn:Hm.
    assert (keeps_kinds st st1 ∧ keeps_or_empties st st1) as [Hk1 He1].
    { split; [by eapply mkdir_at_kinds|].
      intros q x Hg. left. by eapply mkdir_at_file. }
    destruct (negb _); [by intros [= <- _]|].
    destruct (dirsnap.Write (DMap sub) _ st1) as [st2 e2] eqn:Hs.
    apply IHsub in Hs as [Hk2 He2].
    assert (keeps_kinds st st2 ∧ keeps_or_empties st st2) as [Hk12 He12].
    { split; [by eapply keeps_kinds_trans|by eapply keeps_or_empties_trans]. }
    destruct e2 as [e|]; [by intros [= <- _]|].
    intros [Hk He]%IHl.
    split; [by eapply keeps_kinds_trans|by eapply keeps_or_empties_trans].
Qed.

Lemma dirsnap_write_keeps_witness :
  keeps_kinds scan_files (dirsnap.Write tr "/tmp" scan_files).1 ∧
  keeps_or_empties scan_files (dirsnap.Write tr "/tmp" scan_files).1.
Proof.
  apply (dirsnap_write_keeps tr "/tmp" scan_files _
           (dirsnap.Write tr "/tmp" scan_files).2).
  by destruct (dirsnap.Write tr "/tmp" scan_files).
Defined.

End write_keeps.

(** ** The outcome of a write *)

Section write_outcome.
Import dirsnap filesnap Fixtures.

(** X9. [isWriteErrOk] accepts the outcome of a write step in two cases
    only: the step raised no error, or it raised "exists" and the object
    at the target is of the wanted type, a directory when a directory is
    wanted and a plain file otherwise. Any other error is rejected,
    whatever is on the disk. *)
Theorem isWriteErrOk_accepts (err : option error) (name : string)
    (wantDir : bool) (st : node) :
  isWriteErrOk err name wantDir st = true ↔
  err = None ∨
  (err = Some ErrExist ∧
   ∃ c, get (resolve name) st = Some c ∧ is_dir c = wantDir).
Proof.
  destruct (decide (err = Some ErrExist)) as [->|Hne].
  - unfold isWriteErrOk, Stat, IsExist.
    rewrite (bool_decide_true (Some ErrExist = Some ErrExist)) by done.
    cbn [negb]. split.
    + destruct (probe _ st) as [c| | |] eqn:Hp; [|done..].
      apply probe_Found in Hp. intros Hok. right. split; [done|].
      exists c. split; [done|].
      destruct c; simpl in Hok; by apply bool_decide_eq_true in Hok.
    + intros [?|[_ (c & Hg & <-)]]; [done|].
      rewrite (proj2 (probe_Found _ _ _) Hg).
      by destruct c.
  - unfold isWriteErrOk, IsExist. rewrite bool_decide_false by done.
    cbn [negb]. rewrite bool_decide_eq_true. split; [by left|].
    by intros [?|[? _]].
Qed.

(** X10. [Dirs.Write] does not create the directory it writes into. When
    [dir] is not an existing directory, writing a snapshot that has at
    least one entry fails at the first entry with the error of the
    operating system, "does not exist" or "not a directory", and the disk
    is left as it was. *)
Theorem dirsnap_write_missing_dir (n : string) (v : Dirs)
    (l : list (string * Dirs)) (dir : string) (st : node) :
  path.valid_name n → ¬ dir_at (resolve dir) st →
  ∃ e, dirsnap.Write (DMap ((n, v) :: l)) dir st = (st, Some e) ∧
       (e = ErrNotExist ∨ e = ErrNotDir).
Proof.
  intros Hn Hd.
  pose proof (probe_snoc_dir (resolve dir) n st) as Hp.
  rewrite <-resolve_Join_valid in Hp by done. destruct v as [|sub].
  - rewrite Write_cons_file. cbv zeta.
    unfold writeEmptyFile, WriteFile, writefile_at.
    destruct (probe _ st) as [[]| | |]; try (by destruct Hd; apply Hp).
    + exists ErrNotExist. by split; [|left].
    + exists ErrNotDir. by split; [|right].
  - rewrite Write_cons_dir. cbv zeta. unfold Mkdir, mkdir_at.
    destruct (probe _ st) as [[]| | |]; try (by destruct Hd; apply Hp).
    + exists ErrNotExist. by split; [|left].
    + exists ErrNotDir. by split; [|right].
Qed.

Lemma dirsnap_write_missing_dir_witness :
  ∃ e, dirsnap.Write tr "/tmp/gone" scan_tree = (scan_tree, Some e) ∧
       (e = ErrNotExist ∨ e = ErrNotDir).
Proof.
  apply (dirsnap_write_missing_dir "emptyDir" (DMap []) _ "/tmp/gone").
  - apply (bool_decide_unpack _). by vm_compute.
  - by intros [ents Hg].
Defined.

(** X11. After a successful [Dirs.Write] of a snapshot whose names are
    entry names, into an existing directory, whatever the directory held
    before: the disk has changed in that directory only; the directory
    has everything the snapshot asks for, an empty plain file under each
    marker name and, under each map name, a directory that has the
    nested snapshot in the same sense; and the entries of the directory
    under names that are not in the snapshot are as they were. *)
Theorem dirsnap_write_merges (l : list (string * Dirs)) (dir : string)
    (st st1 : node) (ents : list (string * node)) :
  wf_dirs (DMap l) →
  get (resolve dir) st = Some (Dir ents) →
  dirsnap.Write (DMap l) dir st = (st1, None) →
  ∃ ents1, st1 = put (resolve dir) (Dir ents1) st ∧
           holds (DMap l) (Dir ents1) ∧
           (∀ k, k ∉ l.*1 → alookup k ents1 = alookup k ents).
Proof.
  intros Hwf Hg HW.
  destruct (Write_holds _ l eq_refl Hwf _ _ _ _ Hg HW)
    as (ents1 & -> & Hholds & Hrest).
  exists ents1. split; [done|]. split; [|done].
  apply holds_DMap. by exists ents1.
Qed.

Lemma dirsnap_write_merges_witness :
  ∃ ents1,
    (dirsnap.Write tr "/tmp" scan_tree).1
    = put ["tmp"] (Dir ents1) scan_tree ∧
    holds tr (Dir ents1) ∧
    (∀ k, k ∉ ["emptyDir"; "some"; "anotherFile"] →
          alookup k ents1
          = alookup k
              [("emptyDir", Dir []);
               ("some", Dir [("sub", Dir [("dir", Dir [])]);
                             ("nested.txt", File [])]);
               ("anotherFile", File [])]).
Proof.
  apply (dirsnap_write_merges
           [("emptyDir", DMap []);
            ("some", DMap [("subDir", DMap []); ("nested.txt", DNil)]);
            ("anotherFile", DNil)]
           "/tmp" scan_tree (dirsnap.Write tr "/tmp" scan_tree).1
           [("emptyDir", Dir []);
            ("some", Dir [("sub", Dir [("dir", Dir [])]);
                          ("nested.txt", File [])]);
            ("anotherFile", File [])]); [|reflexivity|reflexivity].
  repeat (constructor; simpl); try by apply (bool_decide_unpack _).
Defined.

(** X12. [Dirs.Write] into an existing directory that has none of the
    top-level names of the snapshot, the names of the snapshot being
    entry names, raises no error and adds to the directory exactly the
    tree the snapshot describes: the entries that were there stay as
    they are, and each name of the snapshot comes after them with an
    empty plain file for a marker and a directory with the described
    entries for a map. *)
Theorem dirsnap_write_fresh (l : list (string * Dirs)) (dir : string)
    (st : node) (ents : list (string * node)) :
  wf_dirs (DMap l) →
  get (resolve dir) st = Some (Dir ents) →
  (∀ k, k ∈ l.*1 → alookup k ents = None) →
  dirsnap.Write (DMap l) dir st
  = (put (resolve dir) (Dir (ents ++ map tree_entry l)) st, None).
Proof. intros Hwf Hg Hfresh. by apply (Write_fresh _ l eq_refl). Qed.

Lemma dirsnap_write_fresh_witness :
  dirsnap.Write (DMap [("new", DMap [("file", DNil)])]) "/tmp/some" scan_tree
  = (put ["tmp"; "some"]
       (Dir [("sub", Dir [("dir", Dir [])]); ("nested.txt", File []);
             ("new", Dir [("file", File [])])])
       scan_tree, None).
Proof.
  apply (dirsnap_write_fresh [("new", DMap [("file", DNil)])] "/tmp/some"
           scan_tree [("sub", Dir [("dir", Dir [])]); ("nested.txt", File [])]);
    [|reflexivity|].
  - repeat (constructor; simpl); try by apply (bool_decide_unpack _).
  - intros k [->|[]%elem_of_nil]%elem_of_cons. reflexivity.
Defined.

Lemma dir_at_prefix p q t : dir_at p t → q `prefix_of` p → dir_at q t.
Proof.
  intros [ents Hg] [r ->]. rewrite get_app in Hg.
  unfold dir_at. destruct (get q t) as [c|]; simpl in Hg; [|done].
  destruct r as [|s r]; simpl in Hg; [by exists ents|].
  destruct c as [|cents]; [done|]. by exists cents.
Qed.

(** X13. [Files.Write] creates the directories that an entry needs, [dir]
    itself included. For the entry [n] that the loop reaches, with target
    [path.Join dir n]: when no plain file is on the way to the parent of
    the target and the target is not a directory, the entry raises no
    error, whichever of the directories on the way exist. Afterwards the
    target is a plain file with the bytes of the entry and every
    directory on the way is there. *)
Theorem filesnap_write_creates_dirs (n : string) (data : bytes)
    (rest : list (string * bytes)) (dir : string) (st : node) :
  let p := resolve (path.Join dir n) in
  is_dir st = true →
  (∀ q x, q `prefix_of` removelast p → get q st ≠ Some (File x)) →
  ¬ dir_at p st →
  ∃ st2, filesnap.Write (FMap ((n, data) :: rest)) dir st
         = filesnap.Write (FMap rest) dir st2 ∧
         get p st2 = Some (File (content data)) ∧
         (∀ q, q `prefix_of` removelast p → dir_at q st2).
Proof.
  intros p Hd Hfree Hp.
  assert (p ≠ []) as Hne.
  { intros Hnil. apply Hp. rewrite Hnil. destruct st; [done|]. by eexists. }
  destruct (mkdirall_at_ok (removelast p) st Hd Hfree) as [st1 Hm].
  pose proof (mkdirall_at_ok_dir_at _ _ _ Hm) as Hd1.
  assert (¬ dir_at p st1) as Hp1.
  { intros [?|Hpre]%(mkdirall_at_dir_inv _ _ _ _ _ Hm); [done|].
    apply prefix_length in Hpre.
    pose proof (app_removelast_last "" Hne) as Hl.
    apply (f_equal length) in Hl. rewrite length_app in Hl. simpl in Hl.
    lia. }
  assert (writefile_at p (content data) st1
          = (put p (File (content data)) st1, None)) as Hw.
  { unfold writefile_at.
    destruct (probe_under_dir p st1 Hne Hd1) as [[c Hc]| ->]; [|done].
    rewrite Hc. destruct c as [|cents]; [done|].
    destruct Hp1. exists cents. by apply probe_Found. }
  exists (put p (File (content data)) st1). split; [|split].
  - unfold filesnap.Write. cbn [range filesnap.Write_loop].
    unfold MkdirAll, WriteFile.
    rewrite resolve_Dir_Join. fold p. by rewrite Hm, Hw.
  - by eapply writefile_at_get.
  - intros q Hq. eapply writefile_at_dir_at; [done|].
    by eapply dir_at_prefix.
Qed.

Lemma filesnap_write_creates_dirs_witness :
  ∃ st2, filesnap.Write (FMap [("a/b/file", Some (text "x"))])
           "/tmp/new/dir" tmp
         = filesnap.Write (FMap []) "/tmp/new/dir" st2 ∧
         get ["tmp"; "new"; "dir"; "a"; "b"; "file"] st2
         = Some (File (text "x")) ∧
         (∀ q, q `prefix_of` ["tmp"; "new"; "dir"; "a"; "b"] → dir_at q st2).
Proof.
  apply (filesnap_write_creates_dirs "a/b/file" (Some (text "x")) []
           "/tmp/new/dir" tmp); [reflexivity| |].
  - intros q x [r Hr]. change (["tmp"; "new"; "dir"; "a"; "b"] = q ++ r) in Hr.
    destruct q as [|s1 [|s2 q]]; [done| |]; injection Hr as <- Hr.
    + done.
    + destruct q; simplify_eq; simpl; done.
  - by intros [ents Hg].
Defined.

(** X14. A flat scan after a flat write, in a directory that may hold
    files already. When [Files.Write] of a snapshot with distinct keys,
    each a relative path of entry names, into an existing directory
    raises no error, an unlimited scan of the directory then returns the
    entries of the snapshot, with the bytes written, over the files that
    were there before: a key of the snapshot has the bytes of its entry,
    and any other key is the relative path of a plain file that was in
    the directory before the write, with the bytes it had. The negative
    depth counter is decremented at each level, so neither the tree nor
    a key of the snapshot may be deep enough to make it wrap around. *)
Theorem filesnap_write_then_scan (f : Files) (dir : string) (st st1 : node)
    (ents : list (string * node)) (h fuel : nat) (n : Z) :
  wf_files (range f) → wf_node (Dir ents) →
  get (resolve dir) st = Some (Dir ents) →
  filesnap.Write f dir st = (st1, None) →
  height (Dir ents) ≤ h →
  Forall (λ kv, length (path.split kv.1) ≤ h) (range f) →
  h ≤ fuel → (n < 0)%Z → (int_min ≤ n - Z.of_nat h)%Z →
  ∃ f', filesnap.Read fuel st1 dir n = Some (FMap f', None) ∧
        ∀ k v, alookup k f' = Some v ↔
               (∃ b, alookup k (range f) = Some b ∧ v = Some (content b)) ∨
               (alookup k (range f) = None ∧
                ∃ x, v = Some x ∧
                     get (path.split k) (Dir ents) = Some (File x)).
Proof.
  unfold filesnap.Write. generalize (range f). clear f. intros f.
  intros [Hnd Hclean] Hwf Hg HW Hh Hlen Hfuel Hn Hmin.
  rewrite (Files_Write_below f dir st (Dir ents)) in HW by done.
  destruct (write_files_at (map file_below f) (Dir ents)) as [T1 err] eqn:HT.
  injection HW as <- ->.
  assert (wf_node T1) as Hwf1.
  { eapply (write_files_at_wf (map file_below f)); [|exact Hwf|done].
    apply Forall_map. eapply Forall_impl; [exact Hclean|]. by intros [??]. }
  assert (height T1 ≤ h) as Hh1.
  { apply (write_files_at_height _ h) in HT as Hle; [lia|].
    apply Forall_map. eapply Forall_impl; [exact Hlen|]. intros [k b] Hk.
    simpl in *. split; [apply split_not_nil|done]. }
  assert (∃ ents1, T1 = Dir ents1) as [ents1 ->].
  { pose proof (write_files_at_is_dir _ (Dir ents) _ _ eq_refl HT) as Hd.
    destruct T1 as [x|ents1]; [done|by eexists]. }
  pose proof (write_files_at_get _ _ _ HT (file_below_keys_NoDup f Hnd)) as Hget.
  assert (∀ k b, alookup k f = Some b →
            get (path.split k) (Dir ents1) = Some (File (content b))) as Hnew.
  { intros k b Hk%alookup_Some_elem.
    apply (proj1 (Forall_forall _ _) Hget (file_below (k, b))).
    apply list_elem_of_fmap. by exists (k, b). }
  assert (∀ k, alookup k f = None →
            path.split k ∉ (map file_below f).*1) as Hold.
  { intros k Hk%alookup_None_keys Hin. apply Hk.
    apply list_elem_of_fmap in Hin as ([q y] & Hq & Hin).
    apply list_elem_of_fmap in Hin as ([k' b'] & [= -> _] & Hin).
    apply split_inj in Hq as ->. apply list_elem_of_fmap. by exists (k', b'). }
  exists (fold_left record (files_of [] (Dir ents1)) []). split.
  { unfold filesnap.Read, filesnap.ReadFS.
    rewrite (readFS_files_of (Dir ents1) Hwf1 ents1 eq_refl fuel _ dir []);
      [done|constructor| |lia|done|lia].
    rewrite app_nil_r. by eapply get_put. }
  intros k v.
  rewrite (flat_lookup ents1 (λ _, True) (files_of [] (Dir ents1))).
  - split.
    + intros (x & -> & Hx & _). destruct (alookup k f) as [b|] eqn:Hk.
      * left. exists b. split; [done|]. rewrite (Hnew _ _ Hk) in Hx.
        by injection Hx as <-.
      * right. split; [done|]. exists x. split; [done|].
        destruct (write_files_at_file_inv _ _ _ _ _ _ HT Hx) as [Hin|?];
          [|done].
        destruct (Hold _ Hk). apply list_elem_of_fmap.
        by exists (path.split k, x).
    + intros [(b & Hk & ->)|(Hk & x & -> & Hx)].
      * exists (content b). by rewrite (Hnew _ _ Hk).
      * exists x. split; [done|]. split; [|done].
        eapply write_files_at_file; [done|by apply Hold|done].
  - intros k' v' (q & x & ? & ? & -> & ->)%files_of_elem; [|done].
    by exists q, x.
  - intros q x Hq _. apply (elem_files_of (Dir ents1) [] q x Hq).
Qed.

Lemma filesnap_write_then_scan_witness :
  ∃ f', filesnap.Read 4
          (filesnap.Write
             (FMap [("some/nested.txt", None); ("new", Some (text "x"))])
             "/tmp" scan_files).1 "/tmp" (-1) = Some (FMap f', None) ∧
        ∀ k v, alookup k f' = Some v ↔
               (∃ b, alookup k
                       [("some/nested.txt", None); ("new", Some (text "x"))]
                     = Some b ∧ v = Some (content b)) ∨
               (alookup k [("some/nested.txt", None); ("new", Some (text "x"))]
                = None ∧
                ∃ x, v = Some x ∧
                     get (path.split k)
                       (Dir [("emptyDir", Dir []);
                             ("some", Dir [
                                ("sub", Dir [("dir", Dir []);
                                             ("file", File (text "foobar"))]);
                                ("nested.txt", File (text "File Contents"))]);
                             ("emptyFile", File [])])
                     = Some (File x)).
Proof.
  apply (filesnap_write_then_scan
           (FMap [("some/nested.txt", None); ("new", Some (text "x"))])
           "/tmp" scan_files _ _ 4 4 (-1));
    [| |reflexivity|reflexivity|simpl; lia| |lia|lia|by vm_compute].
  - split; apply (bool_decide_unpack _); by vm_compute.
  - repeat (constructor; simpl); try by apply (bool_decide_unpack _).
  - apply (bool_decide_unpack _). by vm_compute.
Defined.

End write_outcome.

(** ** Tree scans of an arbitrary file system *)

Section scan_listing.
Import dirsnap filesnap Fixtures.

Lemma ReadFS_loop_map rec dir n entries t r err :
  ReadFS_loop rec dir n entries t = Some (r, err) → ∃ t', r = DMap t'.
Proof.
  revert t. induction entries as [|e es IH]; intros t; simpl.
  - intros [= <- _]. by eexists.
  - destruct (negb (IsDir e)); [apply IH|].
    destruct (n =? 0)%Z; [apply IH|].
    destruct (rec _ _) as [[sub [e'|]]|]; [|apply IH|done].
    intros [= <- _]. by eexists.
Qed.

(** A scan that raises no error returns a map, not the nil snapshot. *)
Lemma ReadFS_ok_map fuel fsys dir n r :
  dirsnap.ReadFS fuel fsys dir n = Some (r, None) → ∃ t, r = DMap t.
Proof.
  destruct fuel as [|fuel]; [done|]. simpl.
  destruct (ReadDir fsys dir) as [entries err].
  destruct (failed err) eqn:Hf.
  - intros [= _ ->]. done.
  - apply ReadFS_loop_map.
Qed.

Lemma ReadFS_loop_listing fuel fsys dir n entries t r :
  NoDup (map Name entries) →
  ReadFS_loop (dirsnap.ReadFS fuel fsys) dir n entries t = Some (r, None) →
  ∃ t', r = DMap t' ∧
        (∀ k, k ∉ map Name entries → alookup k t' = alookup k t) ∧
        (∀ e, e ∈ entries →
              ∃ v, alookup (Name e) t' = Some v ∧
                   (v = DNil ↔ IsDir e = false)).
Proof.
  revert t. induction entries as [|e es IH]; intros t Hnd.
  { simpl. intros [= <-]. exists t. split; [done|]. split; [done|].
    by intros e ?%elem_of_nil. }
  cbn [map] in Hnd. apply NoDup_cons in Hnd as [Hfresh Hnd].
  cbn [ReadFS_loop].
  assert (∀ v, (v = DNil ↔ IsDir e = false) →
            ReadFS_loop (dirsnap.ReadFS fuel fsys) dir n es
              (aset (Name e) v t) = Some (r, None) →
            ∃ t', r = DMap t' ∧
                  (∀ k, k ∉ map Name (e :: es) → alookup k t' = alookup k t) ∧
                  (∀ e', e' ∈ e :: es →
                         ∃ v', alookup (Name e') t' = Some v' ∧
                               (v' = DNil ↔ IsDir e' = false))) as Hstep.
  { intros v Hv (t' & -> & Hout & Hin)%IH; [|done].
    exists t'. split; [done|]. split.
    - intros k Hk. rewrite Hout.
      + rewrite alookup_aset_ne; [done|]. intros Heq. apply Hk.
        rewrite <-Heq. left.
      + intros ?. apply Hk. by right.
    - intros e' [->|He']%elem_of_cons; [|by apply Hin].
      exists v. split; [|done]. by rewrite Hout, alookup_aset_eq. }
  destruct (IsDir e) eqn:Hd; cbn [negb]; [|by apply Hstep].
  destruct (n =? 0)%Z; [by apply Hstep|].
  destruct (dirsnap.ReadFS fuel fsys _ _) as [[sub [e'|]]|] eqn:Hsub;
    [done| |done].
  apply Hstep. apply ReadFS_ok_map in Hsub as [l ->]. done.
Qed.

(** X15. The top level of a tree scan, on any file system and at any
    depth. When [ReadFS] raises no error on a directory whose listing has
    distinct names, it returns a non-nil map whose keys are exactly the
    names of the listing, and the value under the name of an entry tells
    its type: the nil marker for a plain file, and a non-nil map, empty
    or not, for a directory. *)
Theorem dirsnap_scan_listing (fuel : nat) (fsys : FS) (dir : string)
    (n : Z) (entries : list DirEntry) (err0 : option error) (r : Dirs) :
  ReadDir fsys dir = (entries, err0) →
  NoDup (map Name entries) →
  dirsnap.ReadFS fuel fsys dir n = Some (r, None) →
  ∃ t, r = DMap t ∧
       (∀ k, is_Some (alookup k t) ↔ k ∈ map Name entries) ∧
       (∀ e, e ∈ entries →
             ∃ v, alookup (Name e) t = Some v ∧
                  (v = DNil ↔ IsDir e = false)).
Proof.
  intros Hl Hnd. destruct fuel as [|fuel]; [done|]. simpl. rewrite Hl.
  destruct (failed err0) eqn:Hf.
  { intros [= _ ->]. done. }
  intros (t & -> & Hout & Hin)%ReadFS_loop_listing; [|done].
  exists t. split; [done|]. split; [|done].
  intros k. split.
  - intros Hk. destruct (decide (k ∈ map Name entries)) as [|Hno]; [done|].
    rewrite (Hout _ Hno) in Hk. by destruct Hk.
  - intros (e & -> & He)%list_elem_of_fmap.
    destruct (Hin _ He) as (v & -> & _). by eexists.
Qed.

Lemma dirsnap_scan_listing_witness :
  ∃ t, DMap [("emptyDir", DMap []);
             ("some", DMap [("sub", DMap []); ("nested.txt", DNil)]);
             ("anotherFile", DNil)] = DMap t ∧
       (∀ k, is_Some (alookup k t) ↔
             k ∈ map Name [{| Name := "emptyDir"; IsDir := true |};
                           {| Name := "some"; IsDir := true |};
                           {| Name := "anotherFile"; IsDir := false |}]) ∧
       (∀ e, e ∈ [{| Name := "emptyDir"; IsDir := true |};
                  {| Name := "some"; IsDir := true |};
                  {| Name := "anotherFile"; IsDir := false |}] →
             ∃ v, alookup (Name e) t = Some v ∧
                  (v = DNil ↔ IsDir e = false)).
Proof.
  apply (dirsnap_scan_listing 2 (osfs scan_tree) "/tmp" 1 _ None);
    [reflexivity| |reflexivity].
  apply (bool_decide_unpack _). by vm_compute.
Defined.

End scan_listing.

(** ** From a scan to a write and back *)

Section scan_write_scan.
Import dirsnap filesnap Fixtures.

Lemma wf_dirs_snap_of t : wf_node t → wf_dirs (snap_of t).
Proof.
  induction t as [x|ents IH] using node_ind'; [constructor|].
  intros [Hnd Hwf]%wf_node_Dir. rewrite snap_of_Dir. apply wf_dirs_DMap.
  split.
  - by rewrite <-list_fmap_compose.
  - apply Forall_map. rewrite Forall_forall in IH, Hwf.
    apply Forall_forall. intros [n c] Hin. simpl.
    destruct (Hwf _ Hin) as [Hn Hc]. split; [done|]. by apply (IH _ Hin).
Qed.

Lemma Dirs_depth_snap_of t : Dirs_depth (snap_of t) = height t.
Proof.
  induction t as [x|ents IH] using node_ind'; [done|].
  rewrite snap_of_Dir, Dirs_depth_DMap, height_Dir. f_equal.
  unfold deepest, highest.
  induction ents as [|[n c] l IHl]; [done|].
  apply Forall_cons in IH as [Hc IH]. simpl in *. by rewrite Hc, IHl.
Qed.

Lemma get_valid_path t : wf_node t → ∀ q c, get q t = Some c →
  Forall path.valid_name q ∧ wf_node c.
Proof.
  intros Hwf q. revert t Hwf. induction q as [|s q IH]; intros t Hwf c.
  - simpl. by intros [= <-].
  - destruct t as [|ents]; [done|]. simpl.
    destruct (alookup s ents) as [ch|] eqn:Hch; [|done]. simpl. intros Hg.
    apply wf_node_Dir in Hwf as [Hnd Hwf].
    apply alookup_Some_elem in Hch.
    destruct (proj1 (Forall_forall _ _) Hwf _ Hch) as [Hs Hc]. simpl in *.
    destruct (IH _ Hc _ Hg) as [Hq Hwc]. split; [by constructor|done].
Qed.

Lemma get_length_height q : ∀ t c, get q t = Some c →
  length q + height c ≤ height t.
Proof.
  induction q as [|s q IH]; intros t c.
  - simpl. intros [= <-]. lia.
  - destruct t as [|ents]; [done|]. cbn [get].
    destruct (alookup s ents) as [ch|] eqn:Hch; [|done]. cbn [mbind option_bind].
    intros Hg%IH. rewrite height_Dir.
    pose proof (height_child _ _ _ Hch). simpl. lia.
Qed.

Lemma fold_record_NoDup L f :
  NoDup (f.*1) → NoDup ((fold_left record L f).*1).
Proof.
  revert f. induction L as [|[k v] L IH]; intros f Hnd; [done|].
  simpl. apply IH. by apply aset_keys_NoDup.
Qed.

(** What an unlimited flat scan of a tree returns is a snapshot that a
    flat write accepts. *)
Lemma files_of_scan ents :
  wf_node (Dir ents) →
  let f := fold_left record (files_of [] (Dir ents)) [] in
  (∀ k v, alookup k f = Some v ↔
          ∃ x, v = Some x ∧ get (path.split k) (Dir ents) = Some (File x)) ∧
  wf_files f ∧ consistent_files f ∧
  Forall (λ kv, length (path.split kv.1) ≤ height (Dir ents)) f.
Proof.
  intros Hwf f.
  assert (∀ k v, alookup k f = Some v ↔
            ∃ x, v = Some x ∧
                 get (path.split k) (Dir ents) = Some (File x)) as Hlook.
  { intros k v. unfold f.
    rewrite (flat_lookup ents (λ _, True) (files_of [] (Dir ents))).
    - split; [intros (x & ? & ? & _)|intros (x & ? & ?)]; eauto.
    - intros k' v' (q & x & ? & ? & -> & ->)%files_of_elem; [|done].
      by exists q, x.
    - intros q x Hq _. apply (elem_files_of (Dir ents) [] q x Hq). }
  assert (NoDup (f.*1)) as Hnd by (apply fold_record_NoDup; constructor).
  assert (∀ k v, (k, v) ∈ f →
            ∃ x, v = Some x ∧
                 get (path.split k) (Dir ents) = Some (File x)) as Hin.
  { intros k v Hkv. apply Hlook. by apply alookup_elem_NoDup. }
  split; [done|]. split; [split; [done|]|split].
  - apply Forall_forall. intros [k v] (x & _ & Hg)%Hin. simpl.
    by destruct (get_valid_path _ Hwf _ _ Hg).
  - apply Forall_forall. intros [k v] (x & _ & Hg)%Hin.
    apply Forall_forall. intros [k' v'] (x' & _ & Hg')%Hin. simpl.
    destruct (decide (k = k')) as [|Hne]; [by left|]. right.
    intros [r Hr]. rewrite Hr, get_app, Hg in Hg'. simpl in Hg'.
    destruct r; [|done]. rewrite app_nil_r in Hr.
    by apply split_inj in Hr.
  - apply Forall_forall. intros [k v] (x & _ & Hg)%Hin. simpl.
    apply get_length_height in Hg. simpl in Hg. lia.
Qed.

(** X16. A directory structure is copied through a tree snapshot. For an
    existing directory whose names are entry names, an unlimited tree
    scan returns a snapshot that [Dirs.Write] always accepts in an
    existing empty directory, and an unlimited scan of that directory
    then returns the same snapshot. *)
Theorem dirsnap_scan_write_scan (fuel : nat) (st st' : node)
    (dir dir' : string) (ents : list (string * node)) :
  wf_node (Dir ents) →
  get (resolve dir) st = Some (Dir ents) →
  get (resolve dir') st' = Some (Dir []) →
  height (Dir ents) ≤ fuel →
  (Z.of_nat (height (Dir ents)) < 2 ^ 63)%Z →
  ∃ S st1, dirsnap.Read fuel st dir (-1) = Some (S, None) ∧
           dirsnap.Write S dir' st' = (st1, None) ∧
           dirsnap.Read fuel st1 dir' (-1) = Some (S, None).
Proof.
  intros Hwf Hg Hg' Hfuel Hh.
  pose proof (wf_dirs_snap_of _ Hwf) as HwfS.
  pose proof (Dirs_depth_snap_of (Dir ents)) as Hdepth.
  exists (snap_of (Dir ents)).
  rewrite snap_of_Dir in HwfS, Hdepth |- *.
  set (l := map (λ kv, (kv.1, snap_of kv.2)) ents) in *.
  exists (put (resolve dir') (tree_of (DMap l)) st').
  split; [|split].
  - unfold l. rewrite <-snap_of_Dir.
    rewrite <-(snap_upto_height (Dir ents) (height (Dir ents))) by done.
    apply (ReadFS_snap_upto (Dir ents) Hwf ents eq_refl); [done| |lia].
    change (-1 <? 0)%Z with true. cbv iota.
    split; [done|unfold int_min; lia].
  - rewrite (Write_fresh _ l eq_refl HwfS dir' st' []) by done.
    by rewrite tree_of_DMap.
  - apply (ReadFS_tree_of _ l); [done..| |lia|done|].
    + by eapply get_put.
    + unfold int_min. lia.
Qed.

Lemma dirsnap_scan_write_scan_witness :
  ∃ S st1, dirsnap.Read 4 scan_files "/tmp" (-1) = Some (S, None) ∧
           dirsnap.Write S "/tmp" tmp = (st1, None) ∧
           dirsnap.Read 4 st1 "/tmp" (-1) = Some (S, None).
Proof.
  apply (dirsnap_scan_write_scan 4 scan_files tmp "/tmp" "/tmp"
           [("emptyDir", Dir []);
            ("some", Dir [
               ("sub", Dir [("dir", Dir []); ("file", File (text "foobar"))]);
               ("nested.txt", File (text "File Contents"))]);
            ("emptyFile", File [])]);
    [|reflexivity|reflexivity|simpl; lia|by vm_compute].
  repeat (constructor; simpl); try by apply (bool_decide_unpack _).
Defined.

(** X17. The files of a directory are copied through a flat snapshot. For
    an existing directory whose names are entry names, an unlimited flat
    scan returns a snapshot that [Files.Write] always accepts in an
    existing empty directory, and an unlimited scan of that directory
    then returns an equal snapshot: the same keys with the same bytes. *)
Theorem filesnap_scan_write_scan (fuel : nat) (st st' : node)
    (dir dir' : string) (ents : list (string * node)) :
  wf_node (Dir ents) →
  get (resolve dir) st = Some (Dir ents) →
  get (resolve dir') st' = Some (Dir []) →
  height (Dir ents) ≤ fuel →
  (Z.of_nat (height (Dir ents)) < 2 ^ 63)%Z →
  ∃ f st1 f', filesnap.Read fuel st dir (-1) = Some (f, None) ∧
              filesnap.Write f dir' st' = (st1, None) ∧
              filesnap.Read fuel st1 dir' (-1) = Some (f', None) ∧
              Files_equal f' f.
Proof.
  intros Hwf Hg Hg' Hfuel Hh.
  destruct (files_of_scan ents Hwf) as (Hlook & Hwff & Hcons & Hlen).
  set (f := fold_left record (files_of [] (Dir ents)) []) in *.
  exists (FMap f).
  destruct (Files_Write_ok f dir' st' Hwff Hcons Hg') as [st1 HW].
  exists st1. destruct Hwff as [Hnd Hclean].
  unfold filesnap.Write. cbn [range].
  rewrite (Files_Write_below f dir' st' (Dir [])) in HW |- * by done.
  destruct (write_files_at (map file_below f) (Dir [])) as [T1 err] eqn:HT.
  injection HW as <- ->.
  assert (wf_node T1) as Hwf1.
  { eapply (write_files_at_wf (map file_below f));
      [|apply (wf_Dir []); constructor|done].
    apply Forall_map. eapply Forall_impl; [exact Hclean|]. by intros [??]. }
  assert (height T1 ≤ height (Dir ents)) as Hheight.
  { apply (write_files_at_height _ (height (Dir ents))) in HT as Hle.
    - change (height (Dir [])) with 1 in Hle.
      rewrite height_Dir in Hle |- *. lia.
    - apply Forall_map. eapply Forall_impl; [exact Hlen|]. intros [k b] Hk.
      split; [apply split_not_nil|done]. }
  assert (∃ ents1, T1 = Dir ents1) as [ents1 ->].
  { pose proof (write_files_at_is_dir _ (Dir []) _ _ eq_refl HT) as Hd.
    destruct T1 as [x|ents1]; [done|by eexists]. }
  exists (FMap (fold_left record (files_of [] (Dir ents1)) [])).
  split; [|split; [done|split]].
  - unfold filesnap.Read, filesnap.ReadFS.
    rewrite (readFS_files_of (Dir ents) Hwf ents eq_refl fuel st dir []);
      [done|constructor| |done|done|unfold int_min; lia].
    by rewrite app_nil_r.
  - unfold filesnap.Read, filesnap.ReadFS.
    rewrite (readFS_files_of (Dir ents1) Hwf1 ents1 eq_refl fuel _ dir' []);
      [done|constructor| |lia|done|unfold int_min; lia].
    rewrite app_nil_r. by eapply get_put.
  - intros k. rewrite alookup_fold_record. simpl.
    rewrite (written_files f (Dir ents1)) by done.
    rewrite alookup_written.
    destruct (alookup k f) as [v|] eqn:Hk; [|done].
    apply Hlook in Hk as (x & -> & _). done.
Qed.

Lemma filesnap_scan_write_scan_witness :
  ∃ f st1 f', filesnap.Read 4 scan_files "/tmp" (-1) = Some (f, None) ∧
              filesnap.Write f "/tmp" tmp = (st1, None) ∧
              filesnap.Read 4 st1 "/tmp" (-1) = Some (f', None) ∧
              Files_equal f' f.
Proof.
  apply (filesnap_scan_write_scan 4 scan_files tmp "/tmp" "/tmp"
           [("emptyDir", Dir []);
            ("some", Dir [
               ("sub", Dir [("dir", Dir []); ("file", File (text "foobar"))]);
               ("nested.txt", File (text "File Contents"))]);
            ("emptyFile", File [])]);
    [|reflexivity|reflexivity|simpl; lia|by vm_compute].
  repeat (constructor; simpl); try by apply (bool_decide_unpack _).
Defined.

End scan_write_scan.

(** ** When a flat write succeeds, and in which order *)

Section write_order.
Import dirsnap filesnap Fixtures.

Lemma Files_Write_targets f dir st :
  filesnap.Write_loop f dir st = write_files_at (map (target dir) f) st.
Proof.
  revert st. induction f as [|[k data] f IH]; intros st; [done|].
  cbn [filesnap.Write_loop map write_files_at]. unfold write_file_at, target.
  cbn [fst snd]. unfold MkdirAll, WriteFile. rewrite resolve_Dir_Join.
  destruct (mkdirall_at _ st) as [st1 [e|]]; [done|].
  destruct (writefile_at _ _ st1) as [st2 [e|]]; [done|]. apply IH.
Qed.

Lemma is_dir_dir_at t : is_dir t = true ↔ dir_at [] t.
Proof.
  split.
  - destruct t as [|ents]; [done|]. by exists ents.
  - by intros [ents [= ->]].
Qed.

Lemma not_prefix_removelast {A} (p : list A) :
  p ≠ [] → ¬ p `prefix_of` removelast p.
Proof.
  intros Hne Hpre%prefix_length. destruct p as [|a p]; [done|].
  pose proof (app_removelast_last a Hne) as Hl.
  apply (f_equal length) in Hl. rewrite length_app in Hl.
  change (length [List.last (a :: p) a]) with 1 in Hl. lia.
Qed.

Lemma writefile_at_dir_inv p q y t t' err :
  writefile_at p y t = (t', err) → dir_at q t' → dir_at q t.
Proof.
  unfold writefile_at. intros Hw Hd.
  pose proof (put_file_dir_inv p q y t) as Hput.
  destruct (probe p t) as [[]| | |]; simplify_eq; auto.
Qed.

(** One file of a flat write: when it is written. *)
Lemma write_file_at_ok e t :
  is_dir t = true →
  (∀ q x, q `prefix_of` removelast e.1 → get q t ≠ Some (File x)) →
  ¬ dir_at e.1 t →
  ∃ t0, mkdirall_at (removelast e.1) t = (t0, None) ∧
        write_file_at e t = (put e.1 (File e.2) t0, None).
Proof.
  destruct e as [p y]. cbn [fst snd]. intros Hd Hfree Hp.
  assert (p ≠ []) as Hne.
  { intros ->. by apply Hp, is_dir_dir_at. }
  destruct (mkdirall_at_ok (removelast p) t Hd Hfree) as [t0 Hm].
  exists t0. split; [done|]. unfold write_file_at. cbn [fst snd]. rewrite Hm.
  pose proof (mkdirall_at_ok_dir_at _ _ _ Hm) as Hd0.
  unfold writefile_at.
  destruct (probe_under_dir p t0 Hne Hd0) as [[c Hc]| ->]; [|done].
  rewrite Hc. destruct c as [|cents]; [done|].
  destruct (mkdirall_at_dir_inv _ p _ _ _ Hm) as [?|Hpre]; [|done|].
  - exists cents. by apply probe_Found.
  - by apply not_prefix_removelast in Hpre.
Qed.

(** One file of a flat write: what its success tells, and what it
    leaves. *)
Lemma write_file_at_inv e t t1 :
  is_dir t = true → write_file_at e t = (t1, None) →
  (∀ q x, q `prefix_of` removelast e.1 → get q t ≠ Some (File x)) ∧
  ¬ dir_at e.1 t ∧
  get e.1 t1 = Some (File e.2) ∧ dir_at (removelast e.1) t1 ∧
  is_dir t1 = true ∧ keeps_kinds t t1 ∧
  (∀ q, dir_at q t1 → dir_at q t ∨ q `prefix_of` removelast e.1) ∧
  (∀ q x, get q t1 = Some (File x) →
          (q = e.1 ∧ x = e.2) ∨ get q t = Some (File x)).
Proof.
  destruct e as [p y]. unfold write_file_at. cbn [fst snd]. intros Hd.
  destruct (mkdirall_at (removelast p) t) as [t0 [e0|]] eqn:Hm; [done|].
  intros Hw.
  pose proof (mkdirall_at_ok_dir_at _ _ _ Hm) as Hd0.
  assert (keeps_kinds t t1) as Hk.
  { eapply keeps_kinds_trans;
      [by eapply mkdirall_at_kinds|by eapply writefile_at_kinds]. }
  split; [|split; [|split; [|split; [|split; [|split; [done|split]]]]]].
  - intros q x Hq Hg.
    destruct (dir_at_prefix _ _ _ Hd0 Hq) as [ents Hg0].
    rewrite (mkdirall_at_file _ _ _ _ _ _ Hm Hg) in Hg0. done.
  - intros Hp. apply (mkdirall_at_dir_at _ _ _ _ _ Hm) in Hp as [ents Hg0].
    unfold writefile_at in Hw.
    by rewrite (proj2 (probe_Found _ _ _) Hg0) in Hw.
  - by eapply writefile_at_get.
  - by eapply writefile_at_dir_at.
  - apply is_dir_dir_at. eapply writefile_at_dir_at; [done|].
    eapply mkdirall_at_dir_at; [done|]. by apply is_dir_dir_at.
  - intros q Hq%(writefile_at_dir_inv _ _ _ _ _ _ Hw).
    by eapply mkdirall_at_dir_inv.
  - intros q x Hg.
    assert (t1 = put p (File y) t0) as ->.
    { unfold writefile_at in Hw.
      by destruct (probe p t0) as [[]| | |]; simplify_eq. }
    apply put_file_inv in Hg as [?|Hg]; [by left|]. right.
    by eapply mkdirall_at_file_inv.
Qed.

Lemma writable_cons e L t :
  writable t (e :: L) ↔
  ((∀ q x, q `prefix_of` removelast e.1 → get q t ≠ Some (File x)) ∧
   ¬ dir_at e.1 t ∧ ¬ e.1 `prefix_of` removelast e.1) ∧
  Forall (λ e', ¬ e.1 `prefix_of` removelast e'.1 ∧
                ¬ e'.1 `prefix_of` removelast e.1) L ∧
  writable t L.
Proof.
  unfold writable. rewrite Forall_cons. split.
  - intros [(Hfree & Hp & [Hself Hothers]%Forall_cons) Hrest].
    split; [done|]. split.
    + apply Forall_forall. intros e' He'. split.
      * by apply (proj1 (Forall_forall _ _) Hothers).
      * destruct (proj1 (Forall_forall _ _) Hrest _ He')
          as (_ & _ & [? _]%Forall_cons). done.
    + eapply Forall_impl; [exact Hrest|].
      by intros e' (? & ? & [_ ?]%Forall_cons).
  - intros [(Hfree & Hp & Hself) [Hpair Hrest]]. split.
    + split; [done|]. split; [done|]. constructor; [done|].
      eapply Forall_impl; [exact Hpair|]. by intros e' [? _].
    + apply Forall_forall. intros e' He'.
      destruct (proj1 (Forall_forall _ _) Hrest _ He') as (? & ? & ?).
      split; [done|]. split; [done|]. constructor; [|done].
      by destruct (proj1 (Forall_forall _ _) Hpair _ He').
Qed.

Lemma writable_success L : ∀ t,
  is_dir t = true → writable t L → ∃ t', write_files_at L t = (t', None).
Proof.
  induction L as [|e L IH]; intros t Hd; [by eexists|].
  intros [(Hfree & Hp & _) [Hpair Hrest]]%writable_cons.
  destruct (write_file_at_ok e t Hd Hfree Hp) as (t0 & Hm & Hw).
  cbn [write_files_at]. rewrite Hw.
  destruct (write_file_at_inv e t _ Hd Hw)
    as (_ & _ & _ & _ & Hd1 & _ & Hdirs & Hfiles).
  apply IH; [done|]. apply Forall_forall. intros e' He'.
  destruct (proj1 (Forall_forall _ _) Hrest _ He') as (Hfree' & Hp' & Hall').
  destruct (proj1 (Forall_forall _ _) Hpair _ He') as [Hee' He'e].
  split; [|split; [|done]].
  - intros q x Hq [[-> _]|Hg]%Hfiles; [done|]. by apply (Hfree' q x).
  - by intros [?|?]%Hdirs.
Qed.

Lemma success_writable L : ∀ t t',
  is_dir t = true → write_files_at L t = (t', None) → writable t L.
Proof.
  induction L as [|e L IH]; intros t t' Hd; [by constructor|].
  cbn [write_files_at].
  destruct (write_file_at e t) as [t1 [e1|]] eqn:Hw; [done|]. intros HW.
  destruct (write_file_at_inv e t _ Hd Hw)
    as (Hfree & Hp & Hget & Hparent & Hd1 & Hk & _ & _).
  specialize (IH _ _ Hd1 HW).
  assert (e.1 ≠ []) as Hne.
  { intros Hnil. apply Hp. rewrite Hnil. by apply is_dir_dir_at. }
  apply writable_cons. split; [|split].
  - split; [done|]. split; [done|]. by apply not_prefix_removelast.
  - apply Forall_forall. intros e' He'.
    destruct (proj1 (Forall_forall _ _) IH _ He') as (Hfree' & Hp' & _).
    split.
    + intros Hpre. by apply (Hfree' _ _ Hpre Hget).
    + intros Hpre. apply Hp'. by eapply dir_at_prefix.
  - apply Forall_forall. intros e' He'.
    destruct (proj1 (Forall_forall _ _) IH _ He') as (Hfree' & Hp' & Hall').
    split; [|split; [|done]].
    + intros q x Hq Hg. destruct (Hk _ _ Hg) as (c & Hg1 & Hc).
      destruct c as [y|]; [|done]. by apply (Hfree' q y).
    + intros [ents Hg]. destruct (Hk _ _ Hg) as (c & Hg1 & Hc).
      destruct c as [|cents]; [done|]. apply Hp'. by exists cents.
Qed.

Lemma writable_perm t L L' : L ≡ₚ L' → writable t L → writable t L'.
Proof.
  intros HP Hw. unfold writable in *. rewrite <-HP.
  eapply Forall_impl; [exact Hw|]. intros e (? & ? & ?).
  split; [done|]. split; [done|]. by rewrite <-HP.
Qed.

(** The directories of the disk after a flat write that raised no
    error. *)
Lemma write_files_at_dirs L : ∀ t t',
  is_dir t = true → write_files_at L t = (t', None) →
  ∀ q, dir_at q t' ↔
       dir_at q t ∨ ∃ e, e ∈ L ∧ q `prefix_of` removelast e.1.
Proof.
  induction L as [|e L IH]; intros t t' Hd.
  { intros [= <-] q. split; [by left|].
    by intros [?|(e & ?%elem_of_nil & _)]. }
  cbn [write_files_at].
  destruct (write_file_at e t) as [t1 [e1|]] eqn:Hw; [done|]. intros HW q.
  destruct (write_file_at_inv e t _ Hd Hw)
    as (_ & _ & _ & Hparent & Hd1 & Hk & Hdirs & _).
  rewrite (IH _ _ Hd1 HW). split.
  - intros [[?|?]%Hdirs|(e' & He' & Hq)].
    + by left.
    + right. exists e. split; [left|done].
    + right. exists e'. split; [by right|done].
  - intros [[ents Hg]|(e' & [->|He']%elem_of_cons & Hq)].
    + left. destruct (Hk _ _ Hg) as (c & Hg1 & Hc).
      destruct c as [|cents]; [done|]. by exists cents.
    + left. by eapply dir_at_prefix.
    + right. by exists e'.
Qed.

(** The plain files of the disk after a flat write that raised no
    error. *)
Lemma write_files_at_files L t t' :
  NoDup (L.*1) → write_files_at L t = (t', None) →
  ∀ q x, get q t' = Some (File x) ↔
         (q, x) ∈ L ∨ ((q ∉ L.*1) ∧ get q t = Some (File x)).
Proof.
  intros Hnd HW q x.
  pose proof (write_files_at_get _ _ _ HW Hnd) as Hget.
  rewrite Forall_forall in Hget. split.
  - intros Hg. destruct (decide (q ∈ L.*1)) as [Hin|Hno].
    + left. apply list_elem_of_fmap in Hin as ([q' y] & -> & Hin).
      specialize (Hget _ Hin). simpl in *.
      rewrite Hg in Hget. by injection Hget as ->.
    + right. split; [done|].
      destruct (write_files_at_file_inv _ _ _ _ _ _ HW Hg) as [Hin|?];
        [|done].
      destruct Hno. apply list_elem_of_fmap. by exists (q, x).
  - intros [Hin|[Hno Hg]].
    + apply (Hget _ Hin).
    + by eapply write_files_at_file.
Qed.

(** X18. When [Files.Write] succeeds. On a disk whose root is a
    directory, [Write] raises no error exactly when every entry finds its
    way: on the disk before the write no plain file is on the way to the
    parent directory of its target, its target is not a directory, and
    its target is not a directory on the way to the target of another
    entry of the snapshot. The condition does not depend on the order of
    the entries. *)
Theorem filesnap_write_succeeds (f : Files) (dir : string) (st : node) :
  is_dir st = true →
  (∃ st1, filesnap.Write f dir st = (st1, None)) ↔
  writable st (map (target dir) (range f)).
Proof.
  intros Hd. unfold filesnap.Write. rewrite Files_Write_targets. split.
  - intros [st1 HW]. by eapply success_writable.
  - by apply writable_success.
Qed.

Lemma filesnap_write_succeeds_witness :
  (∃ st1, filesnap.Write fl "/tmp/new" tmp = (st1, None)) ↔
  writable tmp (map (target "/tmp/new") (range fl)).
Proof. by apply (filesnap_write_succeeds fl "/tmp/new" tmp). Defined.

(** X19. The order in which [Files.Write] takes the entries of a
    snapshot, which Go leaves open, does not matter to a write that
    succeeds. If [Write] raises no error with the entries in one order,
    it raises none with them in any other order, and when the entries
    have distinct targets the two writes leave the same objects on the
    disk: the same directories, and the same plain files with the same
    bytes. *)
Theorem filesnap_write_any_order (f f' : Files) (dir : string)
    (st st1 : node) :
  is_dir st = true → range f ≡ₚ range f' →
  filesnap.Write f dir st = (st1, None) →
  ∃ st1', filesnap.Write f' dir st = (st1', None) ∧
          (NoDup ((map (target dir) (range f)).*1) → same_objects st1 st1').
Proof.
  unfold filesnap.Write. generalize (range f) (range f'). clear f f'.
  intros f f' Hd HP. rewrite !Files_Write_targets. intros HW.
  assert (map (target dir) f ≡ₚ map (target dir) f') as HPt
    by (by apply fmap_Permutation).
  destruct (writable_success (map (target dir) f') st Hd) as [st1' HW'].
  { eapply writable_perm; [done|]. by eapply success_writable. }
  exists st1'. split; [done|]. intros Hnd. split.
  - intros q. rewrite (write_files_at_dirs _ _ _ Hd HW).
    rewrite (write_files_at_dirs _ _ _ Hd HW').
    by setoid_rewrite HPt.
  - intros q x. rewrite (write_files_at_files _ _ _ Hnd HW).
    rewrite (write_files_at_files _ _ _ (proj1 (NoDup_Permutation_proper _ _
               (fmap_Permutation fst _ _ HPt)) Hnd) HW').
    by setoid_rewrite HPt.
Qed.

Lemma filesnap_write_any_order_witness :
  ∃ st1', filesnap.Write (FMap (rev (range fl))) "/tmp" tmp = (st1', None) ∧
          same_objects (filesnap.Write fl "/tmp" tmp).1 st1'.
Proof.
  destruct (filesnap_write_any_order fl (FMap (rev (range fl))) "/tmp" tmp
              (filesnap.Write fl "/tmp" tmp).1 eq_refl
              (Permutation_rev (range fl)) eq_refl) as (st1' & HW & Hsame).
  exists st1'. split; [exact HW|]. apply Hsame.
  apply (bool_decide_unpack _). by vm_compute.
Defined.

End write_order.

(** ** When a tree write succeeds, and what it leaves *)

Section write_accepts.
Import dirsnap filesnap Fixtures.

Lemma accepts_DMap l ents :
  accepts (DMap l) (Some (Dir ents)) ↔ Forall (accepts_entry ents) l.
Proof.
  simpl. induction l as [|[k v] l IH]; [done|].
  rewrite Forall_cons, <-IH. done.
Qed.

Lemma accepts_None d : accepts d None.
Proof. by destruct d. Qed.

Lemma accepts_entry_frame ents ents' l :
  (∀ k, k ∈ l.*1 → alookup k ents' = alookup k ents) →
  Forall (accepts_entry ents') l ↔ Forall (accepts_entry ents) l.
Proof.
  intros Hframe. rewrite !Forall_forall.
  apply forall_proper. intros [k v].
  unfold accepts_entry. simpl.
  split; intros H Hin; specialize (H Hin);
    (rewrite Hframe in * || rewrite <-Hframe);
    try done; apply list_elem_of_fmap; by exists (k, v).
Qed.

Lemma merge_DMap l o :
  merge (DMap l) o
  = Dir (merge_entries l (match o with Some (Dir ents) => ents | _ => [] end)).
Proof.
  simpl. f_equal. unfold merge_entries.
  generalize (match o with Some (Dir ents) => ents | _ => [] end).
  induction l as [|[k v] l IH]; intros ents; [done|]. apply IH.
Qed.

Lemma Dirs_merge_DMap l o :
  Dirs_merge (DMap l) o
  = DMap (Dirs_merge_entries l
            (match o with Some (DMap t) => t | _ => [] end)).
Proof.
  simpl. f_equal. unfold Dirs_merge_entries.
  generalize (match o with Some (DMap t) => t | _ => [] end).
  induction l as [|[k v] l IH]; intros t; [done|]. apply IH.
Qed.

Lemma merge_entries_cons k v l ents :
  merge_entries ((k, v) :: l) ents
  = merge_entries l (aset k (merge v (alookup k ents)) ents).
Proof. done. Qed.

(** The outcome of a tree write into an existing directory: either
    nothing stands in the way of its entries, and it succeeds, leaving
    the directory with the entries written over what it had and the rest
    of the disk as it was; or something does, and it fails. *)
Lemma Write_outcome d :
  ∀ l, d = DMap l → wf_dirs d →
  ∀ dir st ents,
    get (resolve dir) st = Some (Dir ents) →
    (Forall (accepts_entry ents) l ∧
     dirsnap.Write d dir st
     = (put (resolve dir) (Dir (merge_entries l ents)) st, None)) ∨
    (¬ Forall (accepts_entry ents) l ∧
     ∃ st' e, dirsnap.Write d dir st = (st', Some e)).
Proof.
  induction d as [|l0 IH] using Dirs_ind'; [done|].
  intros l [= <-] [Hnd Hwf]%wf_dirs_DMap dir.
  induction l0 as [|[n v] l IHl]; intros st ents Hg.
  { left. split; [constructor|].
    by rewrite (put_same _ st (Dir ents)). }
  apply Forall_cons in IH as [IHv IH].
  apply Forall_cons in Hwf as [[Hn Hv] Hwf].
  apply NoDup_cons in Hnd as [Hfresh Hnd]. simpl in Hn, Hv, Hfresh, IHv.
  specialize (IHl IH Hnd Hwf).
  assert (resolve (path.Join dir n) = resolve dir ++ [n]) as Hr
    by (by apply resolve_Join_valid).
  rewrite merge_entries_cons.
  (* once the entry is written, the rest is written next to it *)
  assert (∀ c, accepts v (alookup n ents) →
            (Forall (accepts_entry ents) ((n, v) :: l) ∧
             dirsnap.Write (DMap l) dir
               (put (resolve dir) (Dir (aset n c ents)) st)
             = (put (resolve dir) (Dir (merge_entries l (aset n c ents))) st,
                None)) ∨
            (¬ Forall (accepts_entry ents) ((n, v) :: l) ∧
             ∃ st' e, dirsnap.Write (DMap l) dir
                        (put (resolve dir) (Dir (aset n c ents)) st)
                      = (st', Some e))) as Hrest.
  { intros c Hacc.
    assert (Forall (accepts_entry (aset n c ents)) l
            ↔ Forall (accepts_entry ents) l) as Hframe.
    { apply accepts_entry_frame. intros k Hk.
      apply alookup_aset_ne. by intros ->. }
    destruct (IHl (put (resolve dir) (Dir (aset n c ents)) st)
                (aset n c ents) (get_put _ _ _ _ Hg))
      as [[Hall HW]|[Hall (st' & e & HW)]].
    - left. split; [constructor; [done|by apply Hframe]|].
      by rewrite HW, (put_put _ _ _ st (Dir ents)).
    - right. split; [|by eauto].
      intros [_ ?]%Forall_cons. by apply Hall, Hframe. }
  destruct v as [|sub].
  - rewrite Write_cons_file. cbv zeta.
    rewrite (writeEmptyFile_child _ _ n st ents Hr Hg).
    destruct (alookup n ents) as [[x|cents]|] eqn:Hc.
    + cbn [negb isWriteErrOk IsExist]. by apply Hrest.
    + right. split; [|by eauto].
      intros [Hacc _]%Forall_cons. unfold accepts_entry in Hacc.
      simpl in Hacc. by rewrite Hc in Hacc.
    + cbn [negb isWriteErrOk IsExist]. by apply Hrest.
  - rewrite Write_cons_dir. cbv zeta.
    rewrite (Mkdir_child _ _ n st ents Hr Hg). rewrite merge_DMap.
    destruct (alookup n ents) as [[x|cents]|] eqn:Hc.
    + right. rewrite (isWriteErrOk_exist _ _ _ (File x))
        by (by rewrite Hr, (get_child _ n st ents)).
      split; [|by eauto].
      intros [Hacc _]%Forall_cons. unfold accepts_entry in Hacc.
      simpl in Hacc. by rewrite Hc in Hacc.
    + rewrite (isWriteErrOk_exist _ _ _ (Dir cents))
        by (by rewrite Hr, (get_child _ n st ents)).
      rewrite bool_decide_true by done. cbn [negb].
      destruct (IHv sub eq_refl Hv (path.Join dir n) st cents)
        as [[Hall ->]|[Hall (st' & e & ->)]].
      * by rewrite Hr, (get_child _ n st ents).
      * rewrite Hr, (put_child_app _ n _ st ents) by done.
        apply Hrest. by apply accepts_DMap.
      * right. split; [|by eauto].
        intros [Hacc _]%Forall_cons. unfold accepts_entry in Hacc.
        simpl fst in Hacc. simpl snd in Hacc. rewrite Hc in Hacc.
        by apply Hall, accepts_DMap.
    + cbn [negb isWriteErrOk IsExist].
      set (st0 := put (resolve dir) (Dir (aset n (Dir []) ents)) st).
      assert (get (resolve dir) st0 = Some (Dir (aset n (Dir []) ents)))
        as Hg0 by (by eapply get_put).
      destruct (IHv sub eq_refl Hv (path.Join dir n) st0 [])
        as [[Hall ->]|[Hall _]].
      * by rewrite Hr, (get_child _ n st0 _ Hg0), alookup_aset_eq.
      * rewrite Hr, (put_child_app _ n _ st0 _ Hg0).
        unfold st0. rewrite (put_put _ _ _ st (Dir ents)) by done.
        rewrite aset_aset. by apply Hrest.
      * destruct Hall. apply Forall_forall. intros [k w] _.
        apply accepts_None.
Qed.

(** X20. When [Dirs.Write] succeeds. For a snapshot whose names are entry
    names, distinct in each map, written into an existing directory,
    [Write] raises no error exactly when nothing on the disk stands in
    the way of an entry: under the name of a marker there is nothing or a
    plain file, and under the name of a map there is nothing or a
    directory, in which in turn nothing stands in the way of the entries
    of the map. The condition does not depend on the order of the
    entries. *)
Theorem dirsnap_write_succeeds (l : list (string * Dirs)) (dir : string)
    (st : node) (ents : list (string * node)) :
  wf_dirs (DMap l) →
  get (resolve dir) st = Some (Dir ents) →
  (∃ st1, dirsnap.Write (DMap l) dir st = (st1, None)) ↔
  accepts (DMap l) (Some (Dir ents)).
Proof.
  intros Hwf Hg. rewrite accepts_DMap.
  destruct (Write_outcome _ l eq_refl Hwf dir st ents Hg)
    as [[Hall HW]|[Hall (st' & e & HW)]]; rewrite HW.
  - split; [done|]. by eexists.
  - split; [by intros [st1 [= _]]|done].
Qed.

Lemma dirsnap_write_succeeds_witness :
  (∃ st1, dirsnap.Write tr "/tmp" scan_tree = (st1, None)) ↔
  accepts tr
    (Some (Dir [("emptyDir", Dir []);
                ("some", Dir [("sub", Dir [("dir", Dir [])]);
                              ("nested.txt", File [])]);
                ("anotherFile", File [])])).
Proof.
  apply (dirsnap_write_succeeds
           [("emptyDir", DMap []);
            ("some", DMap [("subDir", DMap []); ("nested.txt", DNil)]);
            ("anotherFile", DNil)] "/tmp" scan_tree); [|reflexivity].
  repeat (constructor; simpl); try by apply (bool_decide_unpack _).
Defined.

(** X21. The disk after a [Dirs.Write] that raised no error, for a
    snapshot whose names are entry names, distinct in each map, written
    into an existing directory. The disk has changed in that directory
    only, and the directory is what it was with the entries of the
    snapshot written over it one after the other: an empty plain file
    under the name of each marker, and under the name of each map the
    directory found there, or a new one, with the entries of the map
    written over it in the same way. *)
Theorem dirsnap_write_result (l : list (string * Dirs)) (dir : string)
    (st st1 : node) (ents : list (string * node)) :
  wf_dirs (DMap l) →
  get (resolve dir) st = Some (Dir ents) →
  dirsnap.Write (DMap l) dir st = (st1, None) →
  st1 = put (resolve dir) (merge (DMap l) (Some (Dir ents))) st.
Proof.
  intros Hwf Hg HW. rewrite merge_DMap.
  destruct (Write_outcome _ l eq_refl Hwf dir st ents Hg)
    as [[_ HW']|[_ (st' & e & HW')]]; rewrite HW' in HW; [|done].
  by injection HW as <-.
Qed.

Lemma dirsnap_write_result_witness :
  (dirsnap.Write tr "/tmp" scan_tree).1
  = put ["tmp"]
      (Dir [("emptyDir", Dir []);
            ("some", Dir [("sub", Dir [("dir", Dir [])]);
                          ("nested.txt", File []);
                          ("subDir", Dir [])]);
            ("anotherFile", File [])])
      scan_tree.
Proof.
  apply (dirsnap_write_result
           [("emptyDir", DMap []);
            ("some", DMap [("subDir", DMap []); ("nested.txt", DNil)]);
            ("anotherFile", DNil)] "/tmp" scan_tree
           (dirsnap.Write tr "/tmp" scan_tree).1
           [("emptyDir", Dir []);
            ("some", Dir [("sub", Dir [("dir", Dir [])]);
                          ("nested.txt", File [])]);
            ("anotherFile", File [])]); [|reflexivity|reflexivity].
  repeat (constructor; simpl); try by apply (bool_decide_unpack _).
Defined.

Lemma alookup_fmap {A B} (F : A → B) k (l : list (string * A)) :
  alookup k (map (λ kv, (kv.1, F kv.2)) l) = F <$> alookup k l.
Proof.
  induction l as [|[k' v] l IH]; simpl; [done|].
  by destruct (decide (k = k')).
Qed.

Lemma aset_fmap {A B} (F : A → B) k v (l : list (string * A)) :
  map (λ kv, (kv.1, F kv.2)) (aset k v l)
  = aset k (F v) (map (λ kv, (kv.1, F kv.2)) l).
Proof.
  induction l as [|[k' v'] l IH]; simpl; [done|].
  destruct (decide (k = k')); simpl; [done|]. by rewrite IH.
Qed.

(** The snapshot of the tree that a write leaves is the snapshot written,
    laid over the snapshot of the tree that was there. *)
Lemma snap_of_merge d : ∀ o,
  snap_of (merge d o) = Dirs_merge d (snap_of <$> o).
Proof.
  induction d as [|l IH] using Dirs_ind'; intros o; [done|].
  rewrite merge_DMap, Dirs_merge_DMap, snap_of_Dir. f_equal.
  set (F := λ kv : string * node, (kv.1, snap_of kv.2)).
  assert (match snap_of <$> o with Some (DMap t) => t | _ => [] end
          = map F match o with Some (Dir ents) => ents | _ => [] end) as ->.
  { destruct o as [[x|ents]|]; [done| |done].
    change (snap_of <$> Some (Dir ents)) with (Some (snap_of (Dir ents))).
    by rewrite snap_of_Dir. }
  generalize (match o with Some (Dir ents) => ents | _ => [] end).
  induction l as [|[k v] l IHl]; intros ents; [done|].
  apply Forall_cons in IH as [IHv IH]. simpl in IHv.
  unfold merge_entries, Dirs_merge_entries. cbn [fold_left fst snd].
  fold (merge_entries l (aset k (merge v (alookup k ents)) ents)).
  rewrite (IHl IH). unfold F at 1. rewrite (aset_fmap snap_of).
  by rewrite IHv, (alookup_fmap snap_of).
Qed.

Lemma wf_node_merge d : ∀ o,
  wf_dirs d → (∀ t, o = Some t → wf_node t) → wf_node (merge d o).
Proof.
  induction d as [|l IH] using Dirs_ind'; intros o; [constructor|].
  intros [_ Hwf]%wf_dirs_DMap Ho. rewrite merge_DMap.
  assert (wf_node (Dir match o with Some (Dir ents) => ents | _ => [] end))
    as Hents.
  { destruct o as [[x|ents]|]; [by apply wf_node_Dir; split; constructor|
                                by apply Ho|
                                by apply wf_node_Dir; split; constructor]. }
  revert Hents. generalize (match o with Some (Dir ents) => ents | _ => [] end).
  induction l as [|[k v] l IHl]; intros ents Hents; [done|].
  apply Forall_cons in IH as [IHv IH].
  apply Forall_cons in Hwf as [[Hk Hv] Hwf]. simpl in IHv, Hk, Hv.
  rewrite merge_entries_cons. apply (IHl IH Hwf).
  apply wf_node_aset; [done..|]. apply IHv; [done|].
  intros t Ht. by eapply wf_node_child.
Qed.

Lemma height_merge d : ∀ o,
  height (merge d o) ≤ Nat.max (from_option height 0 o) (Dirs_depth d).
Proof.
  induction d as [|l IH] using Dirs_ind'; intros o; [simpl; lia|].
  rewrite merge_DMap, height_Dir, Dirs_depth_DMap.
  assert (S (highest match o with Some (Dir ents) => ents | _ => [] end)
          ≤ Nat.max (from_option height 0 o) 1) as Hents.
  { destruct o as [[x|ents]|]; [simpl; lia| |simpl; lia].
    cbn [from_option]. rewrite height_Dir. lia. }
  revert Hents. generalize (match o with Some (Dir ents) => ents | _ => [] end).
  generalize (from_option height 0 o). intros h0.
  assert (∀ ents, highest (merge_entries l ents)
                  ≤ Nat.max (highest ents) (deepest l)) as Hl.
  2:{ intros ents Hents. specialize (Hl ents). lia. }
  induction l as [|[k v] l IHl]; intros ents; [simpl; lia|].
  apply Forall_cons in IH as [IHv IH]. simpl in IHv.
  rewrite merge_entries_cons. etrans; [apply (IHl IH)|].
  pose proof (highest_aset k (merge v (alookup k ents)) ents) as Ha.
  specialize (IHv (alookup k ents)).
  assert (from_option height 0 (alookup k ents) ≤ highest ents) as Hc.
  { destruct (alookup k ents) as [c|] eqn:Hc; simpl; [|lia].
    by eapply height_child. }
  unfold deepest. cbn [foldr snd]. fold (deepest l). lia.
Qed.

(** X22. A tree scan after a tree write, in a directory that may hold
    entries already. When [Dirs.Write] of a snapshot whose names are
    entry names, distinct in each map, into an existing directory raises
    no error, an unlimited scan of the directory then returns the
    snapshot laid over what an unlimited scan returned before the write:
    the entries of the earlier scan, with each entry of the snapshot put
    in or, for a map over a map, laid over the entry of its name in the
    same way. The negative depth counter is decremented at each level,
    so neither the tree nor the snapshot may be deep enough to make it
    wrap around. *)
Theorem dirsnap_write_then_scan (l : list (string * Dirs)) (dir : string)
    (st st1 : node) (ents : list (string * node)) (h fuel : nat) (n : Z) :
  wf_dirs (DMap l) → wf_node (Dir ents) →
  get (resolve dir) st = Some (Dir ents) →
  dirsnap.Write (DMap l) dir st = (st1, None) →
  height (Dir ents) ≤ h → Dirs_depth (DMap l) ≤ h →
  h ≤ fuel → (n < 0)%Z → (int_min ≤ n - Z.of_nat h)%Z →
  ∃ S0, dirsnap.Read fuel st dir n = Some (S0, None) ∧
        dirsnap.Read fuel st1 dir n
        = Some (Dirs_merge (DMap l) (Some S0), None).
Proof.
  intros Hwf Hwfn Hg HW Hh Hd Hfuel Hn Hmin.
  assert (∀ st' ents', wf_node (Dir ents') →
            get (resolve dir) st' = Some (Dir ents') →
            height (Dir ents') ≤ h →
            dirsnap.Read fuel st' dir n = Some (snap_of (Dir ents'), None))
    as Hscan.
  { intros st' ents' Hwf' Hg' Hh'.
    rewrite <-(snap_upto_height (Dir ents') h) by done.
    apply (ReadFS_snap_upto (Dir ents') Hwf' ents' eq_refl); [done| |lia].
    destruct (Z.ltb_spec n 0); [|lia]. split; lia. }
  exists (snap_of (Dir ents)). split; [by apply Hscan|].
  destruct (Write_outcome _ l eq_refl Hwf dir st ents Hg)
    as [[_ HW']|[_ (st' & e & HW')]]; rewrite HW' in HW; [|done].
  injection HW as <-.
  change (Some (snap_of (Dir ents))) with (snap_of <$> Some (Dir ents)).
  rewrite <-snap_of_merge, merge_DMap. apply Hscan.
  - rewrite <-(merge_DMap l (Some (Dir ents))).
    apply wf_node_merge; [done|]. by intros t [= <-].
  - by eapply get_put.
  - rewrite <-(merge_DMap l (Some (Dir ents))).
    pose proof (height_merge (DMap l) (Some (Dir ents))) as Hm.
    cbn [from_option] in Hm. lia.
Qed.

Lemma dirsnap_write_then_scan_witness :
  ∃ S0, dirsnap.Read 4 scan_tree "/tmp" (-1) = Some (S0, None) ∧
        dirsnap.Read 4 (dirsnap.Write tr "/tmp" scan_tree).1 "/tmp" (-1)
        = Some (Dirs_merge tr (Some S0), None).
Proof.
  apply (dirsnap_write_then_scan
           [("emptyDir", DMap []);
            ("some", DMap [("subDir", DMap []); ("nested.txt", DNil)]);
            ("anotherFile", DNil)] "/tmp" scan_tree
           (dirsnap.Write tr "/tmp" scan_tree).1
           [("emptyDir", Dir []);
            ("some", Dir [("sub", Dir [("dir", Dir [])]);
                          ("nested.txt", File [])]);
            ("anotherFile", File [])] 4 4 (-1));
    [| |reflexivity|reflexivity|simpl; lia|simpl; lia|lia|lia|by vm_compute].
  - repeat (constructor; simpl); try by apply (bool_decide_unpack _).
  - repeat (constructor; simpl); try by apply (bool_decide_unpack _).
Defined.

Lemma same_objects_refl t : same_objects t t.
Proof. by split. Qed.

Lemma same_objects_Dir a b :
  (∀ k, option_Forall2 same_objects (alookup k a) (alookup k b)) →
  same_objects (Dir a) (Dir b).
Proof.
  intros Hlook. split.
  - intros [|k q]; [split; intros _; by eexists|].
    unfold dir_at. cbn [get].
    destruct (Hlook k) as [c c' [Hd _]|]; [apply Hd|done].
  - intros [|k q] x; [done|]. cbn [get].
    destruct (Hlook k) as [c c' [_ Hf]|]; [apply Hf|done].
Qed.

(** The same objects below a directory give the same objects on the
    disk. *)
Lemma put_same_objects d : ∀ st M M' T,
  get d st = Some T → same_objects M M' →
  same_objects (put d M st) (put d M' st).
Proof.
  induction d as [|s d IH]; intros st M M' T Hg HM; [done|].
  destruct st as [|ents]; [done|]. cbn [get put] in *.
  destruct (alookup s ents) as [c|] eqn:Hc; [|done]. simpl in Hg.
  apply same_objects_Dir. intros k. rewrite !alookup_aset.
  destruct (decide (k = s)) as [->|Hne].
  - constructor. by eapply IH.
  - destruct (alookup k ents); constructor. apply same_objects_refl.
Qed.

Lemma alookup_merge_entries l :
  NoDup (l.*1) → ∀ ents k,
  alookup k (merge_entries l ents)
  = match alookup k l with
    | Some v => Some (merge v (alookup k ents))
    | None => alookup k ents
    end.
Proof.
  induction l as [|[k0 v0] l IH]; intros Hnd ents k; [done|].
  apply NoDup_cons in Hnd as [Hfresh Hnd]. simpl in Hfresh.
  rewrite merge_entries_cons, (IH Hnd). cbn [alookup].
  destruct (decide (k = k0)) as [->|Hne].
  - rewrite (proj2 (alookup_None_keys k0 l) Hfresh).
    by rewrite alookup_aset_eq.
  - by rewrite alookup_aset_ne.
Qed.

Lemma accepts_equal d' :
  ∀ d o, Dirs_equal d d' → wf_dirs d → wf_dirs d' →
         accepts d o → accepts d' o.
Proof.
  induction d' as [|l' IH] using Dirs_ind'; intros d o Heq Hwf Hwf' Hacc.
  - by inversion Heq; subst.
  - inversion Heq as [|l ? Hlook]; subst.
    destruct o as [[x|ents]|]; [done| |done].
    apply accepts_DMap in Hacc. apply accepts_DMap.
    apply wf_dirs_DMap in Hwf as [Hnd Hwf].
    apply wf_dirs_DMap in Hwf' as [Hnd' Hwf'].
    apply Forall_forall. intros [k v'] Hin.
    pose proof (alookup_elem_NoDup k v' l' Hnd' Hin) as Hk'.
    specialize (Hlook k). rewrite Hk' in Hlook.
    inversion Hlook as [v ? Hvv' Hk|]; subst. symmetry in Hk.
    apply alookup_Some_elem in Hk as Hinl.
    pose proof (proj1 (Forall_forall _ _) Hacc _ Hinl) as Hav.
    pose proof (proj1 (Forall_forall _ _) IH _ Hin) as IHv.
    pose proof (proj1 (Forall_forall _ _) Hwf _ Hinl) as [_ Hwv].
    pose proof (proj1 (Forall_forall _ _) Hwf' _ Hin) as [_ Hwv'].
    unfold accepts_entry in *. simpl in *. by apply (IHv v).
Qed.

Lemma merge_equal d' :
  ∀ d o, Dirs_equal d d' → wf_dirs d → wf_dirs d' →
         same_objects (merge d o) (merge d' o).
Proof.
  induction d' as [|l' IH] using Dirs_ind'; intros d o Heq Hwf Hwf'.
  - inversion Heq; subst. apply same_objects_refl.
  - inversion Heq as [|l ? Hlook]; subst. rewrite !merge_DMap.
    apply wf_dirs_DMap in Hwf as [Hnd Hwf].
    apply wf_dirs_DMap in Hwf' as [Hnd' Hwf'].
    set (ents0 := match o with Some (Dir ents) => ents | _ => [] end).
    apply same_objects_Dir. intros k.
    rewrite !alookup_merge_entries by done.
    pose proof (Hlook k) as Hk.
    inversion Hk as [v v' Hvv' Hl Hl'|Hl Hl']; symmetry in Hl, Hl';
      rewrite ?Hl, ?Hl'.
    + constructor.
      apply alookup_Some_elem in Hl as Hinl, Hl' as Hinl'.
      pose proof (proj1 (Forall_forall _ _) IH _ Hinl') as IHv.
      pose proof (proj1 (Forall_forall _ _) Hwf _ Hinl) as [_ Hwv].
      pose proof (proj1 (Forall_forall _ _) Hwf' _ Hinl') as [_ Hwv'].
      by apply IHv.
    + destruct (alookup k ents0); constructor. apply same_objects_refl.
Qed.

Lemma alookup_perm {A} (l l' : list (string * A)) k :
  NoDup (l.*1) → l ≡ₚ l' → alookup k l = alookup k l'.
Proof.
  intros Hnd HP.
  assert (NoDup (l'.*1)) as Hnd' by (by rewrite <-HP).
  destruct (alookup k l) as [v|] eqn:Hk.
  - symmetry. apply alookup_elem_NoDup; [done|].
    rewrite <-HP. by apply alookup_Some_elem.
  - symmetry. apply alookup_None_keys. rewrite <-HP.
    by apply alookup_None_keys.
Qed.

Lemma Dirs_equal_perm l l' :
  NoDup (l.*1) → l ≡ₚ l' → Dirs_equal (DMap l) (DMap l').
Proof.
  intros Hnd HP. constructor. intros k.
  rewrite <-(alookup_perm l l' k Hnd HP).
  destruct (alookup k l); constructor. apply Dirs_equal_refl.
Qed.

(** X23. The order in which [Dirs.Write] takes the entries of a map,
    which Go leaves open at every level of the snapshot, does not matter
    to a write that succeeds. For two equal snapshots whose names are
    entry names, distinct in each map, written into an existing
    directory: if [Write] raises no error for one it raises none for the
    other, and the two writes leave the same objects on the disk, the
    same directories and the same plain files with the same bytes. *)
Theorem dirsnap_write_any_order (l l' : list (string * Dirs))
    (dir : string) (st st1 : node) (ents : list (string * node)) :
  wf_dirs (DMap l) → wf_dirs (DMap l') →
  Dirs_equal (DMap l) (DMap l') →
  get (resolve dir) st = Some (Dir ents) →
  dirsnap.Write (DMap l) dir st = (st1, None) →
  ∃ st1', dirsnap.Write (DMap l') dir st = (st1', None) ∧
          same_objects st1 st1'.
Proof.
  intros Hwf Hwf' Heq Hg HW.
  destruct (Write_outcome _ l eq_refl Hwf dir st ents Hg)
    as [[Hall HW1]|[_ (st' & e & HW1)]]; rewrite HW1 in HW; [|done].
  injection HW as <-.
  destruct (Write_outcome _ l' eq_refl Hwf' dir st ents Hg)
    as [[_ HW2]|[Hno _]].
  - eexists. split; [exact HW2|].
    apply (put_same_objects _ _ _ _ (Dir ents)); [done|].
    rewrite <-(merge_DMap l (Some (Dir ents))).
    rewrite <-(merge_DMap l' (Some (Dir ents))).
    by apply merge_equal.
  - destruct Hno. apply accepts_DMap.
    apply (accepts_equal _ (DMap l)); [done..|]. by apply accepts_DMap.
Qed.

Lemma dirsnap_write_any_order_witness :
  ∃ st1', dirsnap.Write
            (DMap [("anotherFile", DNil);
                   ("some", DMap [("subDir", DMap []); ("nested.txt", DNil)]);
                   ("emptyDir", DMap [])]) "/tmp" scan_files
          = (st1', None) ∧
          same_objects (dirsnap.Write tr "/tmp" scan_files).1 st1'.
Proof.
  apply (dirsnap_write_any_order
           [("emptyDir", DMap []);
            ("some", DMap [("subDir", DMap []); ("nested.txt", DNil)]);
            ("anotherFile", DNil)]
           [("anotherFile", DNil);
            ("some", DMap [("subDir", DMap []); ("nested.txt", DNil)]);
            ("emptyDir", DMap [])]
           "/tmp" scan_files (dirsnap.Write tr "/tmp" scan_files).1
           [("emptyDir", Dir []);
            ("some", Dir [
               ("sub", Dir [("dir", Dir []); ("file", File (text "foobar"))]);
               ("nested.txt", File (text "File Contents"))]);
            ("emptyFile", File [])]);
    [| | |reflexivity|reflexivity].
  - repeat (constructor; simpl); try by apply (bool_decide_unpack _).
  - repeat (constructor; simpl); try by apply (bool_decide_unpack _).
  - apply Dirs_equal_perm.
    + apply (bool_decide_unpack _). by vm_compute.
    + apply (Permutation_rev [_; _; _]).
Defined.

End write_accepts.

(** ** Scans of what is not a directory *)

Section scan_missing.
Import dirsnap filesnap Fixtures.

Lemma osfs_ReadDir_not_dir st name :
  ¬ dir_at (resolve name) st →
  ∃ e, ReadDir (osfs st) name = ([], Some e) ∧
       (e = ErrNotExist ∨ e = ErrNotDir).
Proof.
  intros Hd. cbn [osfs ReadDir].
  destruct (probe (resolve name) st) as [[x|ents]| | |] eqn:Hp.
  - exists ErrNotDir. by split; [|right].
  - destruct Hd. exists ents. by apply probe_Found.
  - exists ErrNotExist. by split; [|left].
  - exists ErrNotExist. by split; [|left].
  - exists ErrNotDir. by split; [|right].
Qed.

(** X24. A scan of a path that is not an existing directory. Whatever
    the depth, each [Read] returns the error of its own listing, which is
    "does not exist" or "not a directory". The tree scan lists [dir] as
    it is given and the flat scan lists the cleaned [path.Join dir ""],
    so the two errors are stated apart and nothing says they are the
    same. With its error the tree scan returns the nil snapshot, and the
    flat scan the map that [ReadFS] made: empty, and not the nil map. *)
Theorem scan_not_a_directory (fuel : nat) (st : node) (dir : string)
    (n : Z) :
  ¬ dir_at (resolve dir) st →
  (∃ e, (e = ErrNotExist ∨ e = ErrNotDir) ∧
        dirsnap.Read (S fuel) st dir n = Some (DNil, Some e)) ∧
  (∃ e', (e' = ErrNotExist ∨ e' = ErrNotDir) ∧
         filesnap.Read (S fuel) st dir n = Some (FMap [], Some e')) ∧
  FMap [] ≠ FNil.
Proof.
  intros Hd.
  destruct (osfs_ReadDir_not_dir st dir Hd) as (e & Hl & He).
  split; [|split; [|done]]; exists e; (split; [done|]).
  - unfold dirsnap.Read. cbn [dirsnap.ReadFS]. rewrite Hl.
    by destruct He as [-> | ->].
  - unfold filesnap.Read, filesnap.ReadFS. cbn [readFS].
    assert (resolve (path.Join dir "") = resolve dir) as Hr.
    { pose proof (resolve_Join_names dir [] (List.Forall_nil _)) as Hr.
      by rewrite app_nil_r in Hr. }
    revert Hl. cbn [osfs ReadDir]. rewrite Hr. intros ->.
    by destruct He as [-> | ->].
Qed.

Lemma scan_not_a_directory_witness :
  (∃ e, (e = ErrNotExist ∨ e = ErrNotDir) ∧
        dirsnap.Read 1 scan_tree "/tmp/some/nested.txt" (-1)
        = Some (DNil, Some e)) ∧
  (∃ e', (e' = ErrNotExist ∨ e' = ErrNotDir) ∧
         filesnap.Read 1 scan_tree "/tmp/some/nested.txt" (-1)
         = Some (FMap [], Some e')) ∧
  FMap [] ≠ FNil.
Proof.
  apply (scan_not_a_directory 0 scan_tree "/tmp/some/nested.txt" (-1)).
  by intros [ents Hg].
Defined.

End scan_missing.

(** * Scans that meet [io.EOF] or an error *)

(** ** Scans of a file system that shows a tree *)

Section scan_shown.
Import dirsnap filesnap Fixtures.

Lemma lists_below fsys st q q' :
  lists fsys st q → q `prefix_of` q' → lists fsys st q'.
Proof. intros Hs Hq name ents Hname. apply Hs. by etrans. Qed.

Lemma shows_below fsys st q q' :
  shows fsys st q → q `prefix_of` q' → shows fsys st q'.
Proof.
  intros [Hl Hr] Hq. split; [by eapply lists_below|].
  intros name x Hname. apply Hr. by etrans.
Qed.

Lemma shows_with_eof st q : shows (with_eof (osfs st)) st q.
Proof.
  split.
  - intros name ents _ Hg. exists (Some EOF). cbn [with_eof osfs ReadDir].
    by rewrite (proj2 (probe_Found _ _ _) Hg).
  - intros name x _ Hg. exists None. cbn [with_eof osfs ReadFile].
    by rewrite (proj2 (probe_Found _ _ _) Hg).
Qed.

(** What is refused at [q'] cannot be seen from a path that does not
    lead to [q']. *)
Lemma shows_refusing st q q' l data err :
  ¬ q `prefix_of` q' → shows (refusing q' l data err (osfs st)) st q.
Proof.
  intros Hq. split.
  - intros name ents Hname Hg. exists None. cbn [refusing osfs ReadDir].
    rewrite decide_False by (by intros <-).
    by rewrite (proj2 (probe_Found _ _ _) Hg).
  - intros name x Hname Hg. exists None. cbn [refusing osfs ReadFile].
    rewrite decide_False by (by intros <-).
    by rewrite (proj2 (probe_Found _ _ _) Hg).
Qed.

(** A plain file that cannot be read is still listed. *)
Lemma lists_refusing_file st q q' x l data err :
  get q' st = Some (File x) → lists (refusing q' l data err (osfs st)) st q.
Proof.
  intros Hx name ents _ Hg. exists None. cbn [refusing osfs ReadDir].
  rewrite decide_False by (intros <-; congruence).
  by rewrite (proj2 (probe_Found _ _ _) Hg).
Qed.

Lemma depth_step n h hc k :
  (if (n <? 0)%Z
   then S h ≤ S k ∧ (int_min ≤ n - Z.of_nat (S h))%Z
   else S k = S (Z.to_nat n)) →
  hc ≤ h → (n =? 0)%Z = false →
  if (int_dec n <? 0)%Z
  then hc ≤ k ∧ (int_min ≤ int_dec n - Z.of_nat hc)%Z
  else k = S (Z.to_nat (int_dec n)).
Proof.
  intros Hk Hh Hn0. apply Z.eqb_neq in Hn0.
  destruct (Z.ltb_spec n 0) as [Hneg|Hpos].
  - destruct Hk as [Hk Hmin].
    destruct (int_dec_neg n h Hneg Hmin) as (Hn' & Hmin' & _).
    destruct (Z.ltb_spec (int_dec n) 0); [|lia]. split; lia.
  - injection Hk as ->. unfold int_dec.
    destruct (Z.eqb_spec n int_min) as [->|_]; [unfold int_min in Hpos; lia|].
    destruct (Z.ltb_spec (n - 1) 0); [lia|].
    rewrite Z2Nat.inj_sub by lia. lia.
Qed.

Lemma depth_zero n h k :
  (if (n <? 0)%Z
   then S h ≤ S k ∧ (int_min ≤ n - Z.of_nat (S h))%Z
   else S k = S (Z.to_nat n)) →
  (n =? 0)%Z = true → k = 0.
Proof. intros Hk ->%Z.eqb_eq. simpl in Hk. by injection Hk. Qed.

Lemma snap_fold_fresh (F : node → Dirs) l t :
  NoDup (t.*1 ++ l.*1) →
  fold_left (λ t kv, aset kv.1 (F kv.2) t) l t
  = t ++ map (λ kv, (kv.1, F kv.2)) l.
Proof.
  revert t. induction l as [|[s c] l IH]; intros t Hnd; simpl.
  { by rewrite app_nil_r. }
  rewrite aset_fresh.
  - rewrite IH; [by rewrite <-app_assoc|].
    by rewrite fmap_app, <-app_assoc.
  - apply alookup_None_keys. apply NoDup_app in Hnd as (_ & Hdis & _).
    intros Hs. apply (Hdis s Hs). left.
Qed.

(** The loop of a tree scan over entries whose subdirectories are scanned
    without error. *)
Lemma ReadFS_loop_ok rec dir n k l t :
  ((n =? 0)%Z = true → k = 0) →
  (∀ s cents, (s, Dir cents) ∈ l → (n =? 0)%Z = false →
     rec (path.Join dir s) (int_dec n)
     = Some (snap_upto k (Dir cents), None)) →
  ReadFS_loop rec dir n (map entry_of l) t
  = Some (DMap (fold_left (λ t kv, aset kv.1 (snap_upto k kv.2) t) l t),
          None).
Proof.
  intros Hk Hrec. revert t. induction l as [|[s c] l IH]; intros t; [done|].
  cbn [map ReadFS_loop entry_of Name IsDir fst snd fold_left].
  assert (∀ s cents, (s, Dir cents) ∈ l → (n =? 0)%Z = false →
            rec (path.Join dir s) (int_dec n)
            = Some (snap_upto k (Dir cents), None)) as Hrec'.
  { intros s' cents' Hin. apply Hrec. by right. }
  destruct c as [x|cents]; cbn [is_dir negb].
  - by apply IH.
  - destruct (n =? 0)%Z eqn:Hn.
    + rewrite (Hk eq_refl). rewrite (Hk eq_refl) in IH. by apply IH.
    + rewrite (Hrec s cents) by (done || left). by apply IH.
Qed.

(** A tree scan of a file system that shows a tree: what it returns is
    the tree cut after the levels it descends. *)
Lemma ReadFS_shown T :
  wf_node T → ∀ ents, T = Dir ents →
  ∀ fuel fsys st dir n k,
    get (resolve dir) st = Some T →
    lists fsys st (resolve dir) →
    (if (n <? 0)%Z
     then height T ≤ k ∧ (int_min ≤ n - Z.of_nat (height T))%Z
     else k = S (Z.to_nat n)) →
    Nat.min k (height T) ≤ fuel →
    dirsnap.ReadFS fuel fsys dir n = Some (snap_upto k T, None).
Proof.
  induction T as [x|ents0 IH] using node_ind'; [done|].
  intros [Hnd Hwf]%wf_node_Dir ents [= <-] fuel fsys st dir n k Hg Hs Hk Hfuel.
  rewrite height_Dir in Hk, Hfuel.
  destruct k as [|k]; [by destruct (n <? 0)%Z; lia|].
  destruct fuel as [|fuel]; [lia|].
  cbn [dirsnap.ReadFS].
  destruct (Hs dir _ (reflexivity _) Hg) as (e & -> & ->).
  rewrite (ReadFS_loop_ok _ dir n k ents0 []).
  - by rewrite snap_upto_Dir, snap_fold_fresh.
  - by apply (depth_zero n (highest ents0)).
  - intros s cents Hin Hn0.
    pose proof (proj1 (Forall_forall _ _) Hwf _ Hin) as [Hv Hc].
    pose proof (proj1 (Forall_forall _ _) IH _ Hin) as IHc.
    cbn [fst snd] in Hv, Hc, IHc.
    pose proof (highest_elem _ _ _ Hin) as Hh.
    assert (resolve (path.Join dir s) = resolve dir ++ [s]) as Hr
      by (by apply resolve_Join_valid).
    apply (IHc Hc cents eq_refl fuel fsys st (path.Join dir s) (int_dec n) k).
    + rewrite Hr, (get_child _ s st _ Hg). by apply alookup_elem_NoDup.
    + eapply lists_below; [done|]. rewrite Hr. by apply prefix_app_r.
    + by apply (depth_step n (highest ents0)).
    + lia.
Qed.

(** The loop of a flat scan over entries whose plain files are read and
    whose subdirectories are scanned without error. *)
Lemma readFS_loop_ok rec fsys dir pre n k l f :
  Forall path.valid_name pre →
  Forall (λ kv, path.valid_name kv.1) l →
  ((n =? 0)%Z = true → k = 0) →
  (∀ s x, (s, File x) ∈ l →
     ∃ e, ReadFile fsys (path.Join dir s) = (Some x, e) ∧ failed e = false) →
  (∀ s cents g, (s, Dir cents) ∈ l → (n =? 0)%Z = false →
     rec (path.join_slash (pre ++ [s])) (int_dec n) g
     = Some (fold_left record (files_upto k (pre ++ [s]) (Dir cents)) g,
             None)) →
  readFS_loop rec fsys dir (path.join_slash pre) n (map entry_of l) f
  = Some (fold_left record
            (foldr (λ kv r, files_upto k (pre ++ [kv.1]) kv.2 ++ r) [] l) f,
          None).
Proof.
  intros Hpre Hl Hk Hfile Hrec. revert f.
  induction l as [|[s c] l IH]; intros f; [done|].
  apply Forall_cons in Hl as [Hs Hl]. cbn [fst] in Hs.
  assert (∀ f, readFS_loop rec fsys dir (path.join_slash pre) n
                 (map entry_of l) f
               = Some (fold_left record
                         (foldr (λ kv r, files_upto k (pre ++ [kv.1]) kv.2
                                           ++ r) [] l) f, None)) as IH'.
  { apply IH; [done| |].
    - intros s' x' Hin. apply Hfile. by right.
    - intros s' cents' g Hin. apply Hrec. by right. }
  cbn [map foldr readFS_loop entry_of Name IsDir fst snd].
  rewrite Join_names by done. rewrite fold_left_app.
  destruct c as [x|cents]; cbn [is_dir negb].
  - destruct (Hfile s x) as (e & -> & ->); [left|].
    simpl files_upto. cbn [fold_left]. by apply IH'.
  - destruct (n =? 0)%Z eqn:Hn; cbn [negb].
    + rewrite (Hk eq_refl). rewrite (Hk eq_refl) in IH'. by apply IH'.
    + rewrite (Hrec s cents f) by (done || left). by apply IH'.
Qed.

(** A flat scan of a file system that shows a tree records the plain
    files of the levels it descends, in the order of [files_upto]. *)
Lemma readFS_shown T :
  wf_node T → ∀ ents, T = Dir ents →
  ∀ fuel fsys st rootDir pre n k f,
    Forall path.valid_name pre →
    get (resolve rootDir ++ pre) st = Some T →
    shows fsys st (resolve rootDir ++ pre) →
    (if (n <? 0)%Z
     then height T ≤ k ∧ (int_min ≤ n - Z.of_nat (height T))%Z
     else k = S (Z.to_nat n)) →
    Nat.min k (height T) ≤ fuel →
    readFS fuel fsys rootDir (path.join_slash pre) n f
    = Some (fold_left record (files_upto k pre T) f, None).
Proof.
  induction T as [x|ents0 IH] using node_ind'; [done|].
  intros [Hnd Hwf]%wf_node_Dir ents [= <-] fuel fsys st rootDir pre n k f
    Hpre Hg Hs Hk Hfuel.
  rewrite height_Dir in Hk, Hfuel.
  destruct k as [|k]; [by destruct (n <? 0)%Z; lia|].
  destruct fuel as [|fuel]; [lia|].
  pose proof (resolve_Join_names rootDir pre Hpre) as Hr.
  cbn [readFS].
  destruct (proj1 Hs (path.Join rootDir (path.join_slash pre)) ents0)
    as (e & -> & ->); [by rewrite Hr..|].
  assert (∀ s c, (s, c) ∈ ents0 →
            resolve (path.Join (path.Join rootDir (path.join_slash pre)) s)
            = resolve rootDir ++ pre ++ [s] ∧
            get (resolve rootDir ++ pre ++ [s]) st = Some c) as Hchild.
  { intros s c Hin.
    pose proof (proj1 (Forall_forall _ _) Hwf _ Hin) as [Hv _].
    rewrite resolve_Join_valid, Hr, <-app_assoc by done. split; [done|].
    rewrite app_assoc, (get_child _ s st _ Hg).
    by apply alookup_elem_NoDup. }
  rewrite (readFS_loop_ok _ fsys _ pre n k ents0 f).
  - by rewrite files_upto_Dir.
  - done.
  - eapply Forall_impl; [exact Hwf|]. by intros [??] [??].
  - by apply (depth_zero n (highest ents0)).
  - intros s x Hin. destruct (Hchild _ _ Hin) as [Hrs Hgs].
    apply (proj2 Hs (path.Join (path.Join rootDir (path.join_slash pre)) s)).
    + rewrite Hrs, app_assoc. by apply prefix_app_r.
    + by rewrite Hrs.
  - intros s cents g Hin Hn0. destruct (Hchild _ _ Hin) as [Hrs Hgs].
    pose proof (proj1 (Forall_forall _ _) Hwf _ Hin) as [Hv Hc].
    pose proof (proj1 (Forall_forall _ _) IH _ Hin) as IHc.
    cbn [fst snd] in Hv, Hc, IHc.
    pose proof (highest_elem _ _ _ Hin) as Hh.
    apply (IHc Hc cents eq_refl fuel fsys st rootDir (pre ++ [s])
             (int_dec n) k g).
    + apply Forall_app. split; [done|by apply Forall_singleton].
    + done.
    + eapply shows_below; [done|]. rewrite app_assoc. by apply prefix_app_r.
    + by apply (depth_step n (highest ents0)).
    + lia.
Qed.

End scan_shown.

(** ** Scans that reach what is refused *)

Section scan_refused.
Import dirsnap filesnap Fixtures.

Lemma before_split {A} s (c : A) l :
  alookup s l = Some c →
  ∃ rest, l = before s l ++ (s, c) :: rest ∧ s ∉ (before s l).*1.
Proof.
  induction l as [|[s' c'] l IH]; simpl; [done|].
  destruct (decide (s = s')) as [->|Hne].
  - intros [= ->]. rewrite decide_True by done. exists l. split; [done|].
    apply not_elem_of_nil.
  - intros Hl. rewrite decide_False by done.
    destruct (IH Hl) as (rest & Heq & Hs). exists rest. simpl.
    split; [by f_equal|]. by apply not_elem_of_cons.
Qed.

Lemma failed_error err : err ≠ EOF → failed (Some err) = true.
Proof. by destruct err. Qed.

Lemma snap_until_cons k s p ents c :
  alookup s ents = Some c →
  snap_until (S k) (s :: p) (Dir ents)
  = DMap (map (λ kv, (kv.1, snap_upto k kv.2)) (before s ents)
          ++ [(s, snap_until k p c)]).
Proof. intros Hc. simpl. by rewrite Hc. Qed.

Lemma files_until_cons k pre s p data ents c :
  alookup s ents = Some c →
  files_until (S k) pre (s :: p) data (Dir ents)
  = foldr (λ kv r, files_upto k (pre ++ [kv.1]) kv.2 ++ r) [] (before s ents)
    ++ files_until k (pre ++ [s]) p data c.
Proof. intros Hc. simpl. by rewrite Hc. Qed.

(** The directory on the way to a path of a well-formed tree: where its
    entries are split, and what the entries listed before it are. *)
Lemma way_split s p ents c' :
  wf_node (Dir ents) → get (s :: p) (Dir ents) = Some c' →
  ∃ c rest,
    alookup s ents = Some c ∧ get p c = Some c' ∧
    ents = before s ents ++ (s, c) :: rest ∧
    NoDup ((before s ents).*1) ∧ (s ∉ (before s ents).*1) ∧
    (∀ kv, kv ∈ before s ents → kv ∈ ents ∧ kv.1 ≠ s) ∧
    (s, c) ∈ ents.
Proof.
  intros [Hnd Hwf]%wf_node_Dir Hg. simpl in Hg.
  destruct (alookup s ents) as [c|] eqn:Hc; [|done]. simpl in Hg.
  destruct (before_split s c ents Hc) as (rest & Heq & Hs).
  exists c, rest. split; [done|]. split; [done|]. split; [done|].
  assert (NoDup ((before s ents).*1)) as Hndb.
  { rewrite Heq, fmap_app in Hnd. by apply NoDup_app in Hnd as (? & _). }
  split; [done|]. split; [done|]. split.
  - intros kv Hin. split.
    + rewrite Heq. apply elem_of_app. by left.
    + intros <-. apply Hs. apply list_elem_of_fmap. by exists kv.
  - rewrite Heq. apply elem_of_app. right. left.
Qed.

(** A tree scan that reaches a directory whose listing is refused. *)
Lemma ReadFS_refused p :
  ∀ T, wf_node T → ∀ ents, T = Dir ents →
  ∀ fuel st dir n k sub l data err,
    get (resolve dir) st = Some T →
    get p T = Some (Dir sub) →
    length p < k → err ≠ EOF →
    (if (n <? 0)%Z
     then height T ≤ k ∧ (int_min ≤ n - Z.of_nat (height T))%Z
     else k = S (Z.to_nat n)) →
    Nat.min k (height T) ≤ fuel →
    dirsnap.ReadFS fuel (refusing (resolve dir ++ p) l data err (osfs st))
      dir n
    = Some (snap_until k p T, Some err).
Proof.
  induction p as [|s p IH];
    intros T Hwf ents -> fuel st dir n k sub l data err Hg Hp Hlen Herr Hk
      Hfuel;
    rewrite height_Dir in Hk, Hfuel;
    (destruct k as [|k]; [simpl in Hlen; lia|]);
    (destruct fuel as [|fuel]; [lia|]); cbn [dirsnap.ReadFS refusing ReadDir].
  - rewrite app_nil_r, decide_True by done.
    by rewrite (failed_error err Herr).
  - rewrite decide_False.
    2:{ intros Heq. apply (f_equal length) in Heq.
        rewrite length_app in Heq. simpl in Heq. lia. }
    cbn [osfs ReadDir]. rewrite (proj2 (probe_Found _ _ _) Hg). cbn [failed].
    fold entry_of.
    destruct (way_split s p ents _ Hwf Hp)
      as (c & rest & Hc & Hpc & Heq & Hndb & Hs & Hbefore & Hin).
    apply wf_node_Dir in Hwf as [Hnd Hwf].
    assert ((n =? 0)%Z = false) as Hn0.
    { apply Z.eqb_neq. intros ->. simpl in Hk, Hlen. lia. }
    assert (map entry_of ents
            = map entry_of (before s ents) ++ map entry_of ((s, c) :: rest))
      as -> by (rewrite <-map_app; by f_equal).
    rewrite ReadFS_loop_app.
    rewrite (ReadFS_loop_ok _ dir n k (before s ents) []).
    + rewrite snap_fold_fresh by done. cbn [app].
      pose proof (proj1 (Forall_forall _ _) Hwf _ Hin) as [Hv Hwc].
      cbn [fst snd] in Hv, Hwc.
      destruct c as [x|cents]; [by destruct p|].
      cbn [map ReadFS_loop entry_of Name IsDir fst snd is_dir negb].
      rewrite Hn0.
      assert (resolve (path.Join dir s) = resolve dir ++ [s]) as Hr
        by (by apply resolve_Join_valid).
      assert (resolve dir ++ s :: p = resolve (path.Join dir s) ++ p) as ->
        by (by rewrite Hr, <-app_assoc).
      pose proof (highest_elem _ _ _ Hin) as Hh.
      rewrite (IH (Dir cents) Hwc cents eq_refl fuel st (path.Join dir s)
                 (int_dec n) k sub l data err);
        [|by rewrite Hr, (get_child _ s st _ Hg)|done|simpl in Hlen; lia|done
         |by apply (depth_step n (highest ents))|lia].
      rewrite aset_fresh.
      * by rewrite (snap_until_cons k s p ents (Dir cents)).
      * apply alookup_None_keys. by rewrite <-list_fmap_compose.
    + by apply (depth_zero n (highest ents)).
    + intros s' cents' Hin' _.
      destruct (Hbefore _ Hin') as [Hin0 Hne]. cbn [fst] in Hne.
      pose proof (proj1 (Forall_forall _ _) Hwf _ Hin0) as [Hv Hwc].
      cbn [fst snd] in Hv, Hwc.
      pose proof (highest_elem _ _ _ Hin0) as Hh.
      assert (resolve (path.Join dir s') = resolve dir ++ [s']) as Hr
        by (by apply resolve_Join_valid).
      apply (ReadFS_shown (Dir cents') Hwc cents' eq_refl fuel _ st).
      * rewrite Hr, (get_child _ s' st _ Hg). by apply alookup_elem_NoDup.
      * apply shows_refusing. rewrite Hr.
        intros [z Hz]. rewrite <-app_assoc in Hz.
        apply app_inv_head in Hz. by injection Hz.
      * by apply (depth_step n (highest ents)).
      * lia.
Qed.

(** A flat scan that reaches a directory whose listing is refused, or a
    plain file whose reading is refused. *)
Lemma readFS_refused p :
  ∀ T, wf_node T → ∀ ents, T = Dir ents →
  ∀ fuel st rootDir pre n k c l data err f,
    Forall path.valid_name pre →
    get (resolve rootDir ++ pre) st = Some T →
    get p T = Some c →
    length p + (if is_dir c then 1 else 0) ≤ k → err ≠ EOF →
    (if (n <? 0)%Z
     then height T ≤ k ∧ (int_min ≤ n - Z.of_nat (height T))%Z
     else k = S (Z.to_nat n)) →
    Nat.min k (height T) ≤ fuel →
    readFS fuel (refusing (resolve rootDir ++ pre ++ p) l data err (osfs st))
      rootDir (path.join_slash pre) n f
    = Some (fold_left record (files_until k pre p data T) f, Some err).
Proof.
  induction p as [|s p IH];
    intros T Hwf ents -> fuel st rootDir pre n k c l data err f Hpre Hg Hp
      Hlen Herr Hk Hfuel;
    rewrite height_Dir in Hk, Hfuel;
    pose proof (resolve_Join_names rootDir pre Hpre) as Hr.
  - injection Hp as <-. simpl in Hlen.
    destruct k as [|k]; [lia|]. destruct fuel as [|fuel]; [lia|].
    cbn [readFS refusing ReadDir].
    rewrite Hr, app_nil_r, decide_True by done.
    by rewrite (failed_error err Herr).
  - destruct k as [|k]; [simpl in Hlen; lia|].
    destruct fuel as [|fuel]; [lia|].
    cbn [readFS refusing ReadDir]. rewrite Hr, decide_False.
    2:{ intros Heq. apply (f_equal length) in Heq.
        rewrite !length_app in Heq. simpl in Heq. lia. }
    cbn [osfs ReadDir]. rewrite Hr, (proj2 (probe_Found _ _ _) Hg).
    cbn [failed]. fold entry_of.
    destruct (way_split s p ents _ Hwf Hp)
      as (c0 & rest & Hc & Hpc & Heq & Hndb & Hs & Hbefore & Hin).
    apply wf_node_Dir in Hwf as [Hnd Hwf].
    assert (∀ s' c', (s', c') ∈ ents →
              path.valid_name s' ∧ wf_node c' ∧ height c' ≤ highest ents ∧
              resolve (path.Join (path.Join rootDir (path.join_slash pre)) s')
              = resolve rootDir ++ pre ++ [s'] ∧
              get (resolve rootDir ++ pre ++ [s']) st = Some c') as Hchild.
    { intros s' c' Hin'.
      pose proof (proj1 (Forall_forall _ _) Hwf _ Hin') as [Hv Hwc].
      split; [done|]. split; [done|].
      split; [by eapply highest_elem|].
      rewrite resolve_Join_valid, Hr, <-app_assoc by done. split; [done|].
      rewrite app_assoc, (get_child _ s' st _ Hg).
      by apply alookup_elem_NoDup. }
    assert (∀ s', s' ≠ s →
              shows (refusing (resolve rootDir ++ pre ++ s :: p) l data err
                       (osfs st)) st (resolve rootDir ++ pre ++ [s']))
      as Hshows.
    { intros s' Hne. apply shows_refusing. intros [z Hz].
      rewrite <-!app_assoc in Hz. do 2 apply app_inv_head in Hz.
      by injection Hz. }
    assert (map entry_of ents
            = map entry_of (before s ents) ++ map entry_of ((s, c0) :: rest))
      as -> by (rewrite <-map_app; by f_equal).
    rewrite readFS_loop_app.
    rewrite (readFS_loop_ok _ _ _ pre n k (before s ents) f).
    + destruct (Hchild _ _ Hin) as (Hv & Hwc & Hh & Hrs & Hgs).
      rewrite (files_until_cons k pre s p data ents c0 Hc), fold_left_app.
      cbn [map readFS_loop entry_of Name IsDir fst snd].
      rewrite Join_names by done.
      destruct c0 as [x|cents]; cbn [is_dir negb].
      * assert (p = []) as -> by (by destruct p).
        cbn [refusing ReadFile]. rewrite Hrs, decide_True by done.
        by rewrite (failed_error err Herr).
      * assert (1 ≤ k) as Hk1.
        { destruct p; simpl in Hpc, Hlen; [|lia]. injection Hpc as <-.
          simpl in Hlen. lia. }
        assert ((n =? 0)%Z = false) as Hn0.
        { apply Z.eqb_neq. intros ->. simpl in Hk. lia. }
        rewrite Hn0. cbn [negb].
        assert (resolve rootDir ++ pre ++ s :: p
                = resolve rootDir ++ (pre ++ [s]) ++ p) as ->
          by (by rewrite <-app_assoc).
        rewrite (IH (Dir cents) Hwc cents eq_refl fuel st rootDir
                   (pre ++ [s]) (int_dec n) k c l data err);
          [done| |done|done|simpl in Hlen; lia|done
           |by apply (depth_step n (highest ents))|lia].
        apply Forall_app. split; [done|by apply Forall_singleton].
    + done.
    + apply Forall_forall. intros [s' c'] Hin'.
      destruct (Hbefore _ Hin') as [Hin0 _].
      by destruct (Hchild _ _ Hin0) as (? & _).
    + by apply (depth_zero n (highest ents)).
    + intros s' x Hin'. destruct (Hbefore _ Hin') as [Hin0 Hne].
      destruct (Hchild _ _ Hin0) as (_ & _ & _ & Hrs & Hgs).
      apply (proj2 (Hshows s' Hne)
               (path.Join (path.Join rootDir (path.join_slash pre)) s'));
        by rewrite Hrs.
    + intros s' cents' g Hin' Hn0. destruct (Hbefore _ Hin') as [Hin0 Hne].
      destruct (Hchild _ _ Hin0) as (Hv & Hwc & Hh & Hrs & Hgs).
      apply (readFS_shown (Dir cents') Hwc cents' eq_refl fuel _ st).
      * apply Forall_app. split; [done|by apply Forall_singleton].
      * done.
      * by apply Hshows.
      * by apply (depth_step n (highest ents)).
      * lia.
Qed.

End scan_refused.

(** ** What the scans return *)

Section scan_errors.
Import dirsnap filesnap Fixtures.

Lemma levels_depth n h :
  ((n < 0)%Z → (int_min ≤ n - Z.of_nat h)%Z) →
  if (n <? 0)%Z
  then h ≤ levels n h ∧ (int_min ≤ n - Z.of_nat h)%Z
  else levels n h = S (Z.to_nat n).
Proof.
  intros Hmin. unfold levels. destruct (Z.ltb_spec n 0); [|done].
  split; [done|by apply Hmin].
Qed.

(** C8. The end-of-stream error [io.EOF] of a directory listing is taken
    as "no more entries", by both packages. A scan treats a listing that
    ends with it exactly as the same listing without an error, and
    [io.EOF] is never the error a scan returns. When the listing of the
    scanned directory returns entries and [io.EOF], a scan with depth 0
    succeeds with these entries: the tree scan with a marker or an empty
    map for each of them, the flat scan with the plain files among them.
    And on a disk whose every listing ends with [io.EOF], a scan at any
    depth succeeds with all that it returns on the disk without
    [io.EOF]: the tree of the directory cut after the levels the scan
    descends, and the plain files of these levels. *)
Theorem scan_eof_tolerated (fuel : nat) (fsys : FS) (dir : string) (n : Z) :
  (dirsnap.ReadFS fuel fsys dir n = dirsnap.ReadFS fuel (mask_eof fsys) dir n ∧
   filesnap.ReadFS fuel fsys dir n
   = filesnap.ReadFS fuel (mask_eof fsys) dir n) ∧
  ((∀ t, dirsnap.ReadFS fuel fsys dir n ≠ Some (t, Some EOF)) ∧
   (∀ f, filesnap.ReadFS fuel fsys dir n ≠ Some (f, Some EOF))) ∧
  (∀ entries,
     ReadDir fsys dir = (entries, Some EOF) →
     ∃ t, dirsnap.ReadFS (S fuel) fsys dir 0 = Some (DMap t, None) ∧
          ∀ k, alookup k t = alookup k (rev (map shallow_entry entries))) ∧
  (∀ entries,
     ReadDir fsys (path.Join dir "") = (entries, Some EOF) →
     Forall (λ e, path.valid_name (Name e)) entries →
     Forall (λ e, IsDir e = false →
                  failed (ReadFile fsys
                            (path.Join (path.Join dir "") (Name e))).2 = false)
            entries →
     ∃ f, filesnap.ReadFS (S fuel) fsys dir 0 = Some (FMap f, None) ∧
          ∀ k, alookup k f
               = alookup k (rev (map (flat_entry fsys (path.Join dir ""))
                                   (filter (λ e, IsDir e = false) entries)))) ∧
  (∀ st ents,
     wf_node (Dir ents) →
     get (resolve dir) st = Some (Dir ents) →
     ((n < 0)%Z → (int_min ≤ n - Z.of_nat (height (Dir ents)))%Z) →
     Nat.min (levels n (height (Dir ents))) (height (Dir ents)) ≤ fuel →
     dirsnap.ReadFS fuel (with_eof (osfs st)) dir n
     = Some (snap_upto (levels n (height (Dir ents))) (Dir ents), None) ∧
     filesnap.ReadFS fuel (with_eof (osfs st)) dir n
     = Some (FMap (fold_left record
                     (files_upto (levels n (height (Dir ents))) []
                        (Dir ents)) []), None)).
Proof.
  split; [split|split; [split|split; [|split]]].
  - by rewrite dirsnap_ReadFS_mask_eof.
  - unfold filesnap.ReadFS. by rewrite filesnap_readFS_mask_eof.
  - intros t Ht. by apply dirsnap_ReadFS_error in Ht.
  - intros f. unfold filesnap.ReadFS.
    destruct (readFS fuel fsys dir "" n []) as [[f' err]|] eqn:Hf; [|done].
    intros [= _ ->]. by apply filesnap_readFS_error in Hf.
  - intros entries Hl. cbn [dirsnap.ReadFS]. rewrite Hl. cbn [failed].
    rewrite ReadFS_loop_zero. eexists. split; [done|].
    intros k. rewrite alookup_fold_aset. simpl.
    by destruct (alookup k (rev (map shallow_entry entries))).
  - intros entries Hl Hv Hr. unfold filesnap.ReadFS. cbn [readFS].
    rewrite Hl. cbn [failed]. rewrite readFS_loop_zero by done.
    eexists. split; [done|].
    intros k. rewrite alookup_fold_aset. simpl.
    by destruct (alookup k _).
  - intros st ents Hwf Hg Hmin Hfuel. split.
    + apply (ReadFS_shown (Dir ents) Hwf ents eq_refl fuel _ st);
        [done|apply shows_with_eof|by apply levels_depth|done].
    + unfold filesnap.ReadFS.
      rewrite (readFS_shown (Dir ents) Hwf ents eq_refl fuel _ st dir [] n
                 (levels n (height (Dir ents))));
        [done|constructor|by rewrite app_nil_r|apply shows_with_eof
         |by apply levels_depth|done].
Qed.

Lemma scan_eof_tolerated_witness :
  (∃ t, dirsnap.ReadFS 5 (with_eof (osfs scan_files)) "/tmp" 0
        = Some (DMap t, None) ∧
        ∀ k, alookup k t
             = alookup k [("emptyFile", DNil); ("some", DMap []);
                          ("emptyDir", DMap [])]) ∧
  (∃ f, filesnap.ReadFS 5 (with_eof (osfs scan_files)) "/tmp" 0
        = Some (FMap f, None) ∧
        ∀ k, alookup k f = alookup k [("emptyFile", Some [])]) ∧
  dirsnap.ReadFS 4 (with_eof (osfs scan_files)) "/tmp" (-1)
  = Some (DMap [("emptyDir", DMap []);
                ("some", DMap [("sub", DMap [("dir", DMap []);
                                             ("file", DNil)]);
                               ("nested.txt", DNil)]);
                ("emptyFile", DNil)], None) ∧
  filesnap.ReadFS 4 (with_eof (osfs scan_files)) "/tmp" (-1)
  = Some (FMap [("some/sub/file", Some (text "foobar"));
                ("some/nested.txt", Some (text "File Contents"));
                ("emptyFile", Some [])], None).
Proof.
  destruct (scan_eof_tolerated 4 (with_eof (osfs scan_files)) "/tmp" (-1))
    as (_ & _ & Htree0 & Hflat0 & Hall).
  split; [exact (Htree0 _ eq_refl)|]. split.
  - refine (Hflat0 [ {| Name := "emptyDir"; IsDir := true |};
                     {| Name := "some"; IsDir := true |};
                     {| Name := "emptyFile"; IsDir := false |} ]
              eq_refl _ _);
      apply (bool_decide_unpack _); by vm_compute.
  - apply (Hall scan_files
             [("emptyDir", Dir []);
              ("some", Dir [
                 ("sub", Dir [("dir", Dir []); ("file", File (text "foobar"))]);
                 ("nested.txt", File (text "File Contents"))]);
              ("emptyFile", File [])]);
      [|reflexivity|intros _; by vm_compute|vm_compute; lia].
    repeat (constructor; simpl); try by apply (bool_decide_unpack _).
Defined.

(** C4. A scan stops at the first error that is not [io.EOF] and returns
    it with the snapshot built so far, the failing entry included. When
    the listing of the scanned directory fails, on any file system, the
    tree scan returns the nil snapshot and the flat scan the empty map.
    On a disk that refuses the access to one path [p] below the scanned
    directory, with the error [err]:
    - when a directory that the scan lists is at [p], both scans return
      [err]. The tree scan returns the entries listed before the ones on
      the way to [p] with all that is recorded below them, the
      directories on the way to [p] with what was built of them, and
      the directory at [p] as the nil snapshot, which is the marker of a
      plain file. The flat scan returns the plain files met before [p];
    - when a plain file that the scan reads is at [p], the flat scan
      returns [err] with the plain files met before [p] and with the key
      of the file at [p], under which is what the failed read returned.
      The tree scan reads no file and succeeds.
    Nothing listed after the failing entry is in the snapshot. *)
Theorem scan_error_partial (fuel : nat) (st : node) (dir : string) (n : Z)
    (ents : list (string * node)) (p : list string)
    (l : list DirEntry) (data : bytes) (err : error) :
  let T := Dir ents in
  let k := levels n (height T) in
  let fsys := refusing (resolve dir ++ p) l data err (osfs st) in
  wf_node T →
  get (resolve dir) st = Some T →
  err ≠ EOF →
  ((n < 0)%Z → (int_min ≤ n - Z.of_nat (height T))%Z) →
  Nat.min k (height T) ≤ fuel →
  (∀ fsys' entries,
     ReadDir fsys' dir = (entries, Some err) →
     dirsnap.ReadFS (S fuel) fsys' dir n = Some (DNil, Some err)) ∧
  (∀ fsys' entries,
     ReadDir fsys' (path.Join dir "") = (entries, Some err) →
     filesnap.ReadFS (S fuel) fsys' dir n = Some (FMap [], Some err)) ∧
  (∀ sub,
     get p T = Some (Dir sub) → length p < k →
     dirsnap.ReadFS fuel fsys dir n = Some (snap_until k p T, Some err) ∧
     filesnap.ReadFS fuel fsys dir n
     = Some (FMap (fold_left record (files_until k [] p data T) []),
             Some err)) ∧
  (∀ x,
     get p T = Some (File x) → length p ≤ k →
     dirsnap.ReadFS fuel fsys dir n = Some (snap_upto k T, None) ∧
     filesnap.ReadFS fuel fsys dir n
     = Some (FMap (fold_left record (files_until k [] p data T) []),
             Some err)).
Proof.
  intros T k fsys Hwf Hg Herr Hmin Hfuel.
  pose proof (levels_depth n (height T) Hmin) as Hk. fold k in Hk.
  split; [|split; [|split]].
  - intros fsys' entries Hl. cbn [dirsnap.ReadFS]. rewrite Hl.
    by rewrite (failed_error err Herr).
  - intros fsys' entries Hl. unfold filesnap.ReadFS. cbn [readFS].
    rewrite Hl. by rewrite (failed_error err Herr).
  - intros sub Hp Hlen. split.
    + by apply (ReadFS_refused p T Hwf ents eq_refl fuel st dir n k sub).
    + pose proof (readFS_refused p T Hwf ents eq_refl fuel st dir [] n k
                    (Dir sub) l data err []) as Hr.
      unfold filesnap.ReadFS, fsys. simpl in Hr.
      rewrite Hr; [done|constructor|by rewrite app_nil_r|done|lia|done..].
  - intros x Hp Hlen. split.
    + apply (ReadFS_shown T Hwf ents eq_refl fuel _ st); [done| |done..].
      apply (lists_refusing_file _ _ _ x). by rewrite get_app, Hg.
    + pose proof (readFS_refused p T Hwf ents eq_refl fuel st dir [] n k
                    (File x) l data err []) as Hr.
      unfold filesnap.ReadFS, fsys. simpl in Hr.
      rewrite Hr; [done|constructor|by rewrite app_nil_r|done|lia|done..].
Qed.

Lemma scan_error_partial_witness :
  (dirsnap.ReadFS 4
     (refusing ["tmp"; "some"; "sub"] [] None (ErrOther 13) (osfs scan_files))
     "/tmp" (-1)
   = Some (DMap [("emptyDir", DMap []); ("some", DMap [("sub", DNil)])],
           Some (ErrOther 13)) ∧
   filesnap.ReadFS 4
     (refusing ["tmp"; "some"; "sub"] [] None (ErrOther 13) (osfs scan_files))
     "/tmp" (-1)
   = Some (FMap [], Some (ErrOther 13))) ∧
  (dirsnap.ReadFS 4
     (refusing ["tmp"; "some"; "nested.txt"] [] (Some (text "Fi"))
        (ErrOther 5) (osfs scan_files))
     "/tmp" (-1)
   = Some (DMap [("emptyDir", DMap []);
                 ("some", DMap [("sub", DMap [("dir", DMap []);
                                              ("file", DNil)]);
                                ("nested.txt", DNil)]);
                 ("emptyFile", DNil)], None) ∧
   filesnap.ReadFS 4
     (refusing ["tmp"; "some"; "nested.txt"] [] (Some (text "Fi"))
        (ErrOther 5) (osfs scan_files))
     "/tmp" (-1)
   = Some (FMap [("some/sub/file", Some (text "foobar"));
                 ("some/nested.txt", Some (text "Fi"))],
           Some (ErrOther 5))).
Proof.
  assert (wf_node
            (Dir [("emptyDir", Dir []);
                  ("some", Dir [
                     ("sub", Dir [("dir", Dir []);
                                  ("file", File (text "foobar"))]);
                     ("nested.txt", File (text "File Contents"))]);
                  ("emptyFile", File [])])) as Hwf.
  { repeat (constructor; simpl); try by apply (bool_decide_unpack _). }
  split.
  - destruct (scan_error_partial 4 scan_files "/tmp" (-1) _ ["some"; "sub"]
                [] None (ErrOther 13) Hwf eq_refl)
      as (_ & _ & Hdir & _);
      [done|intros _; by vm_compute|vm_compute; lia|].
    apply (Hdir [("dir", Dir []); ("file", File (text "foobar"))] eq_refl).
    vm_compute. lia.
  - destruct (scan_error_partial 4 scan_files "/tmp" (-1) _
                ["some"; "nested.txt"] [] (Some (text "Fi")) (ErrOther 5)
                Hwf eq_refl)
      as (_ & _ & _ & Hfile);
      [done|intros _; by vm_compute|vm_compute; lia|].
    apply (Hfile (text "File Contents") eq_refl). vm_compute. lia.
Defined.

(** C4, as stated, fails for the failing entry itself: it is in the
    snapshot returned, and it was not recorded before the failure. The
    tree scan of the directory of [testScanTree] with the listing of
    [some] refused returns [some] as the nil snapshot, which is the
    marker of a plain file, beside [emptyDir], the one entry recorded
    before it. The flat scan of the directory of [testScanFiles] with
    the reading of [some/nested.txt] refused returns the key of that
    file, beside the one file read before it. *)
Lemma scan_error_partial_counterexample :
  (dirsnap.ReadFS 2
     (refusing ["tmp"; "some"] [] None (ErrOther 13) (osfs scan_tree))
     "/tmp" (-1)
   = Some (DMap [("emptyDir", DMap []); ("some", DNil)],
           Some (ErrOther 13)) ∧
   dir_at ["tmp"; "some"] scan_tree ∧
   ¬ Dirs_equal (DMap [("emptyDir", DMap []); ("some", DNil)])
                (DMap [("emptyDir", DMap [])])) ∧
  (filesnap.ReadFS 4
     (refusing ["tmp"; "some"; "nested.txt"] [] None (ErrOther 13)
        (osfs scan_files))
     "/tmp" (-1)
   = Some (FMap [("some/sub/file", Some (text "foobar"));
                 ("some/nested.txt", None)],
           Some (ErrOther 13)) ∧
   ¬ Files_equal (FMap [("some/sub/file", Some (text "foobar"));
                        ("some/nested.txt", None)])
                 (FMap [("some/sub/file", Some (text "foobar"))])).
Proof.
  split; (split; [reflexivity|]).
  - split; [by eexists|]. intros Heq. inversion Heq as [|la lb Hk].
    specialize (Hk "some"). vm_compute in Hk. inversion Hk.
  - intros Heq. specialize (Heq "some/nested.txt"). vm_compute in Heq.
    discriminate.
Qed.

End scan_errors.
